(** * SketchUp importer: analysis, deduplication and write passes

    A shallow embedding of [sketchup_importer/__init__.py]: the class
    [SceneImporter] with the properties its specification states, the
    import of materials, and the helpers of the 3D Warehouse operators.

    Conventions of the embedding.
    - The importer object and the part of [bpy.data] it writes into are one
      explicit [State] record threaded through every call; the options and
      tables that are fixed once the passes start are a [Config] record.
    - A Python call either returns, raises, or exhausts the call depth:
      [result].  Every recursive method takes a [fuel] bounding the depth of
      nested calls.
    - 4x4 matrices, vectors and quaternions belong to [mathutils]; they are
      abstract carriers with the operations the importer calls on them.
    - Progress logging ([skp_log], [print]) is not modelled. *)

From Stdlib Require Import ZArith Floats DecimalString.
From stdpp Require Import gmap strings list fin_maps sorting.

Set Default Proof Using "Type".
Open Scope string_scope.
Open Scope list_scope.
Open Scope nat_scope.

(** ** Outcomes of a call *)

Inductive exn := KeyError | IndexError.

Inductive result (A : Type) :=
| Ok (a : A)
| Raise (e : exn)
| OutOfFuel.
Arguments Ok {A} a.
Arguments Raise {A} e.
Arguments OutOfFuel {A}.

#[global] Instance result_bind : MBind result := fun A B k r =>
  match r with
  | Ok a => k a
  | Raise e => Raise e
  | OutOfFuel => OutOfFuel
  end.
#[global] Instance result_ret : MRet result := fun A a => Ok a.

(** A [for] loop whose body may raise. *)
Fixpoint for_each {A S} (body : A → S → result S) (l : list A) (s : S)
  : result S :=
  match l with
  | [] => Ok s
  | a :: l' => s' ← body a s ; for_each body l' s'
  end.

(** [EntityType] of SKPutil. *)
Inductive EntityType := ET_none | ET_group | ET_component | ET_outer.

#[global] Instance EntityType_eq_dec : EqDecision EntityType.
Proof. solve_decision. Defined.

(** Keys of [component_stats], [component_skip], [group_written] and
    [component_meshes]: a name and a material name. *)
Abbreviation Key := (string * string)%type.

(** ** [defaultdict(list)]

    Iteration order is insertion order, and both [component_stats] and the
    [orientations] of the instancing pass are iterated, so such a
    dictionary is an association list with distinct keys. *)

(** [d[k]] for reading: the empty list for a key never appended to. *)
Fixpoint defaultdict_get {K A} `{!EqDecision K} (k : K)
    (d : list (K * list A)) : list A :=
  match d with
  | [] => []
  | (k', v) :: d' => if decide (k' = k) then v else defaultdict_get k d'
  end.

(** [d[k].append(a)]: a missing key is created with the empty list first. *)
Fixpoint defaultdict_append {K A} `{!EqDecision K} (k : K) (a : A)
    (d : list (K * list A)) : list (K * list A) :=
  match d with
  | [] => [(k, [a])]
  | (k', v) :: d' =>
      if decide (k' = k) then (k', v ++ [a]) :: d'
      else (k', v) :: defaultdict_append k a d'
  end.

Section Importer.

(** ** Carriers of mathutils and of the SketchUp reader *)

Context {Matrix Vec3 Quat Scale2 UV Layer : Type}.
Context `{!EqDecision Vec3, !EqDecision Quat, !EqDecision Layer}.

(** [a @ b], [Matrix.Identity(4)], [Matrix.decompose], [ob.location] of an
    object whose [matrix_world] was just assigned, and vector subtraction. *)
Variable matmul : Matrix → Matrix → Matrix.
Variable mat_identity : Matrix.
Variable decompose : Matrix → Vec3 * Quat * Vec3.
Variable translation_of : Matrix → Vec3.
Variable vsub : Vec3 → Vec3 → Vec3.
Variable vcross : Vec3 → Vec3 → Vec3.
Variable vnormalized : Vec3 → Vec3.
Variable vzero : Vec3.
Variable vone : Vec3.
Variable quat_identity : Quat.

(** Helpers of SKPutil and the renaming [bpy.data] applies to a new ID. *)
Variable inherent_default_mat : option string → string → string.
Variable group_name : string → string → string.
Variable group_safe_name : string → string.
Variable unique_name : list string → string → string.

(** ** The entity tree *)

(** [f.tessfaces]: vertices, triangles (indices into the vertices) and one
    uv per vertex. *)
Record Tess := mkTess {
  tess_vs : list Vec3;
  tess_tri : list (nat * nat * nat);
  tess_uvs : list UV;
}.

(** A face.  [f.st_scale = ...] is assigned just before [f.tessfaces] is
    read, so the tessellation is a function of the scale override. *)
Record Face := mkFace {
  f_material : option string;
  f_tessfaces : option Scale2 → Tess;
  f_edges_smooth : list bool;
}.

(** An instance refers to its definition by name: the importer only reads
    [instance.definition.name] and resolves it in [skp_components]. *)
Record Instance := mkInstance {
  i_name : string;
  i_definition_name : string;
  i_transform : Matrix;
  i_material : option string;
  i_hidden : bool;
  i_layer : Layer;
}.

Inductive Entities :=
| mkEntities (groups : list Group) (instances : list Instance)
             (faces : list Face)
with Group :=
| mkGroup (name : string) (transform : Matrix) (entities : Entities)
          (material : option string) (hidden : bool) (layer : Layer).

Definition e_groups (e : Entities) : list Group :=
  match e with mkEntities gs _ _ => gs end.
Definition e_instances (e : Entities) : list Instance :=
  match e with mkEntities _ ins _ => ins end.
Definition e_faces (e : Entities) : list Face :=
  match e with mkEntities _ _ fs => fs end.

Definition g_name (g : Group) : string :=
  match g with mkGroup n _ _ _ _ _ => n end.
Definition g_transform (g : Group) : Matrix :=
  match g with mkGroup _ t _ _ _ _ => t end.
Definition g_entities (g : Group) : Entities :=
  match g with mkGroup _ _ e _ _ _ => e end.
Definition g_material (g : Group) : option string :=
  match g with mkGroup _ _ _ m _ _ => m end.
Definition g_hidden (g : Group) : bool :=
  match g with mkGroup _ _ _ _ h _ => h end.
Definition g_layer (g : Group) : Layer :=
  match g with mkGroup _ _ _ _ _ l => l end.

Record ComponentDefinition := mkComponentDefinition {
  cd_name : string;
  cd_entities : Entities;
}.

(** [component_stats] maps a key to the transforms it occurred at. *)
Abbreviation Stats := (list (Key * list Matrix)).

(** ** Options and tables fixed before the passes run *)

Record BMat := mkBMat {
  bm_name : string;
  bm_nodes : option (list string);  (* node_tree.nodes.keys(), if any *)
}.

Record Config := mkConfig {
  layers_skip : list Layer;
  reuse_group : bool;
  max_instance : Z;
  skp_components : gmap string ComponentDefinition;
  component_depth : gmap string nat;
  materials : gmap string BMat;
  materials_scales : gmap string Scale2;
  model_entities : Entities;
  aspect_ratio : float;          (* ren_res_x / ren_res_y *)
  camera_far_plane : float;      (* prefs.camera_far_plane *)
}.

(** [self.layers_skip and x.layer in self.layers_skip] *)
Definition layer_skipped (cfg : Config) (l : Layer) : bool :=
  bool_decide (layers_skip cfg ≠ []) && bool_decide (l ∈ layers_skip cfg).

(** [self.skp_components[name]] *)
Definition lookup_component (cfg : Config) (name : string)
  : result ComponentDefinition :=
  match skp_components cfg !! name with
  | Some cdef => Ok cdef
  | None => Raise KeyError
  end.

(** ** The importer's mutable state and the part of [bpy.data] it fills *)

Record Mesh := mkMesh {
  me_name : string;
  me_materials : list BMat;
  me_vertices : list Vec3;
  me_loops : list nat;             (* vertex_index of every loop *)
  me_loop_start : list nat;
  me_loop_total : list nat;
  me_material_index : list nat;
  me_use_smooth : list bool;
  me_uv : option (list UV);        (* uv_layers[0], when one was made *)
}.

Inductive InstanceType := INST_NONE | INST_COLLECTION | INST_VERTS.

(** An object of [bpy.data.objects].  The transform fields hold what the
    importer assigned to them, [None] when it assigned nothing. *)
Record Object := mkObject {
  ob_name : string;
  ob_data : option nat;                  (* handle into [bpy_meshes] *)
  ob_matrix_world : option Matrix;
  ob_location : option Vec3;
  ob_rotation_quaternion : option Quat;
  ob_scale : option Vec3;
  ob_parent : option nat;                (* handle into [bpy_objects] *)
  ob_show_transparent : bool;
  ob_hide : bool;
  ob_instance_type : InstanceType;
  ob_instance_collection : option nat;   (* handle into [bpy_collections] *)
}.

Record Collection := mkCollection {
  coll_name : string;
  coll_objects : list nat;
}.

Inductive CameraType := PERSP | ORTHO.

(** Camera data of [bpy.data.cameras]; [cam_object] is the object it is the
    data of, [cam_basis] the three columns written into that object's
    [matrix_world]. *)
Record Camera := mkCamera {
  cam_name : string;
  cam_object : nat;
  cam_basis : Vec3 * Vec3 * Vec3;
  cam_type : CameraType;
  cam_angle : option float;      (* [None]: the default was left alone *)
  cam_clip_end : float;
}.

(** A value of [component_skip]: [True] while the group is being written,
    the definition's entities afterwards. *)
Inductive SkipVal := SkipTrue | SkipEntities (e : Entities).

Record State := mkState {
  component_stats : Stats;
  component_skip : gmap Key SkipVal;
  group_written : gmap Key nat;
  component_meshes : gmap Key (nat * bool);
  bpy_meshes : list Mesh;
  bpy_objects : list Object;
  bpy_collections : list Collection;
  context_collection : list nat;   (* bpy.context.collection.objects *)
  bpy_cameras : list Camera;
}.

Definition set_component_stats (v : Stats) (s : State) : State :=
  mkState v (component_skip s) (group_written s) (component_meshes s)
    (bpy_meshes s) (bpy_objects s) (bpy_collections s)
    (context_collection s) (bpy_cameras s).
Definition set_component_skip (v : gmap Key SkipVal) (s : State) : State :=
  mkState (component_stats s) v (group_written s) (component_meshes s)
    (bpy_meshes s) (bpy_objects s) (bpy_collections s)
    (context_collection s) (bpy_cameras s).
Definition set_group_written (v : gmap Key nat) (s : State) : State :=
  mkState (component_stats s) (component_skip s) v (component_meshes s)
    (bpy_meshes s) (bpy_objects s) (bpy_collections s)
    (context_collection s) (bpy_cameras s).
Definition set_component_meshes (v : gmap Key (nat * bool)) (s : State)
  : State :=
  mkState (component_stats s) (component_skip s) (group_written s) v
    (bpy_meshes s) (bpy_objects s) (bpy_collections s)
    (context_collection s) (bpy_cameras s).
Definition set_bpy_meshes (v : list Mesh) (s : State) : State :=
  mkState (component_stats s) (component_skip s) (group_written s)
    (component_meshes s) v (bpy_objects s) (bpy_collections s)
    (context_collection s) (bpy_cameras s).
Definition set_bpy_objects (v : list Object) (s : State) : State :=
  mkState (component_stats s) (component_skip s) (group_written s)
    (component_meshes s) (bpy_meshes s) v (bpy_collections s)
    (context_collection s) (bpy_cameras s).
Definition set_bpy_collections (v : list Collection) (s : State) : State :=
  mkState (component_stats s) (component_skip s) (group_written s)
    (component_meshes s) (bpy_meshes s) (bpy_objects s) v
    (context_collection s) (bpy_cameras s).
Definition set_context_collection (v : list nat) (s : State) : State :=
  mkState (component_stats s) (component_skip s) (group_written s)
    (component_meshes s) (bpy_meshes s) (bpy_objects s) (bpy_collections s)
    v (bpy_cameras s).
Definition set_bpy_cameras (v : list Camera) (s : State) : State :=
  mkState (component_stats s) (component_skip s) (group_written s)
    (component_meshes s) (bpy_meshes s) (bpy_objects s) (bpy_collections s)
    (context_collection s) v.

(** The state [load] starts the passes from. *)
Definition initial_state : State :=
  mkState [] ∅ ∅ ∅ [] [] [] [] [].

(** *** [bpy.data] primitives *)

(** [bpy.data.meshes.new(name)] followed by the fills of the mesh. *)
Definition meshes_new (me : Mesh) (s : State) : nat * State :=
  let me :=
    mkMesh (unique_name (me_name <$> bpy_meshes s) (me_name me))
      (me_materials me) (me_vertices me) (me_loops me) (me_loop_start me)
      (me_loop_total me) (me_material_index me) (me_use_smooth me)
      (me_uv me) in
  (length (bpy_meshes s), set_bpy_meshes (bpy_meshes s ++ [me]) s).

(** [bpy.data.objects.new(name, data)]: the handle of the new object. *)
Definition objects_new (name : string) (data : option nat) (s : State)
  : nat * State :=
  let ob := mkObject (unique_name (ob_name <$> bpy_objects s) name) data
              None None None None None false false INST_NONE None in
  (length (bpy_objects s), set_bpy_objects (bpy_objects s ++ [ob]) s).

(** An attribute assignment on the object behind a handle. *)
Definition update_object (h : nat) (f : Object → Object) (s : State)
  : State :=
  set_bpy_objects (alter f h (bpy_objects s)) s.

Definition object_name (h : nat) (s : State) : string :=
  default "" (ob_name <$> bpy_objects s !! h).

Definition with_name (n : string) (o : Object) : Object :=
  mkObject n (ob_data o) (ob_matrix_world o) (ob_location o)
    (ob_rotation_quaternion o) (ob_scale o) (ob_parent o)
    (ob_show_transparent o) (ob_hide o) (ob_instance_type o)
    (ob_instance_collection o).
Definition with_matrix_world (m : Matrix) (o : Object) : Object :=
  mkObject (ob_name o) (ob_data o) (Some m) (ob_location o)
    (ob_rotation_quaternion o) (ob_scale o) (ob_parent o)
    (ob_show_transparent o) (ob_hide o) (ob_instance_type o)
    (ob_instance_collection o).
Definition with_location (v : Vec3) (o : Object) : Object :=
  mkObject (ob_name o) (ob_data o) (ob_matrix_world o) (Some v)
    (ob_rotation_quaternion o) (ob_scale o) (ob_parent o)
    (ob_show_transparent o) (ob_hide o) (ob_instance_type o)
    (ob_instance_collection o).
Definition with_rotation_quaternion (q : Quat) (o : Object) : Object :=
  mkObject (ob_name o) (ob_data o) (ob_matrix_world o) (ob_location o)
    (Some q) (ob_scale o) (ob_parent o)
    (ob_show_transparent o) (ob_hide o) (ob_instance_type o)
    (ob_instance_collection o).
Definition with_scale (v : Vec3) (o : Object) : Object :=
  mkObject (ob_name o) (ob_data o) (ob_matrix_world o) (ob_location o)
    (ob_rotation_quaternion o) (Some v) (ob_parent o)
    (ob_show_transparent o) (ob_hide o) (ob_instance_type o)
    (ob_instance_collection o).
Definition with_parent (p : nat) (o : Object) : Object :=
  mkObject (ob_name o) (ob_data o) (ob_matrix_world o) (ob_location o)
    (ob_rotation_quaternion o) (ob_scale o) (Some p)
    (ob_show_transparent o) (ob_hide o) (ob_instance_type o)
    (ob_instance_collection o).
Definition with_show_transparent (b : bool) (o : Object) : Object :=
  mkObject (ob_name o) (ob_data o) (ob_matrix_world o) (ob_location o)
    (ob_rotation_quaternion o) (ob_scale o) (ob_parent o)
    b (ob_hide o) (ob_instance_type o) (ob_instance_collection o).
Definition with_hide (b : bool) (o : Object) : Object :=
  mkObject (ob_name o) (ob_data o) (ob_matrix_world o) (ob_location o)
    (ob_rotation_quaternion o) (ob_scale o) (ob_parent o)
    (ob_show_transparent o) b (ob_instance_type o)
    (ob_instance_collection o).
Definition with_instance (t : InstanceType) (g : option nat) (o : Object)
  : Object :=
  mkObject (ob_name o) (ob_data o) (ob_matrix_world o) (ob_location o)
    (ob_rotation_quaternion o) (ob_scale o) (ob_parent o)
    (ob_show_transparent o) (ob_hide o) t g.

(** [bpy.data.objects[name]] *)
Fixpoint find_name {A} (nm : A → string) (name : string) (l : list A)
  : option nat :=
  match l with
  | [] => None
  | a :: l' => if decide (nm a = name) then Some 0
               else S <$> find_name nm name l'
  end.

Definition objects_getitem (name : string) (s : State) : result nat :=
  match find_name ob_name name (bpy_objects s) with
  | Some h => Ok h
  | None => Raise KeyError
  end.

(** [bpy.context.collection.objects.link(ob)] *)
Definition context_link (h : nat) (s : State) : State :=
  set_context_collection (context_collection s ++ [h]) s.

(** [group.objects.link(ob)] *)
Definition group_link (group h : nat) (s : State) : State :=
  set_bpy_collections
    (alter (fun c => mkCollection (coll_name c) (coll_objects c ++ [h]))
       group (bpy_collections s)) s.

(** [bpy.data.collections.new(name=gname)] *)
Definition collections_new (gname : string) (s : State) : nat * State :=
  let c := mkCollection
             (unique_name (coll_name <$> bpy_collections s) gname) [] in
  (length (bpy_collections s),
   set_bpy_collections (bpy_collections s ++ [c]) s).

(** ** [analyze_entities] *)

(** The body of [for group in entities.groups]; [rec] is the recursive
    call. *)
Definition analyze_group
    (rec : Entities → string → Matrix → string → EntityType → Stats →
           option (list Key) → result Stats)
    (cfg : Config) (transform : Matrix) (default_material : string)
    (group : Group) (component_stats : Stats) : result Stats :=
  if layer_skipped cfg (g_layer group) then Ok component_stats
  else rec (g_entities group) ("G-" +:+ g_name group)
         (matmul transform (g_transform group))
         (inherent_default_mat (g_material group) default_material)
         ET_group component_stats None.

(** The body of [for instance in entities.instances]. *)
Definition analyze_instance
    (rec : Entities → string → Matrix → string → EntityType → Stats →
           option (list Key) → result Stats)
    (cfg : Config) (transform : Matrix) (default_material : string)
    (component_skip : list Key) (instance : Instance)
    (component_stats : Stats) : result Stats :=
  if layer_skipped cfg (i_layer instance) then Ok component_stats
  else
    let mat := inherent_default_mat (i_material instance) default_material in
    cdef ← lookup_component cfg (i_definition_name instance);
    if bool_decide ((cd_name cdef, mat) ∈ component_skip)
    then Ok component_stats
    else rec (cd_entities cdef) (cd_name cdef)
           (matmul transform (i_transform instance)) mat
           ET_component component_stats None.

Fixpoint analyze_entities (fuel : nat) (cfg : Config) (entities : Entities)
    (name : string) (transform : Matrix) (default_material : string)
    (etype : EntityType) (component_stats : Stats)
    (component_skip : option (list Key)) : result Stats :=
  match fuel with
  | 0 => OutOfFuel
  | S fuel' =>
    let component_skip := default [] component_skip in
    let component_stats :=
      if decide (etype = ET_component)
      then defaultdict_append (name, default_material) transform
             component_stats
      else component_stats in
    component_stats ←
      for_each (analyze_group (analyze_entities fuel' cfg) cfg transform
                  default_material)
        (e_groups entities) component_stats;
    for_each (analyze_instance (analyze_entities fuel' cfg) cfg transform
                default_material component_skip)
      (e_instances entities) component_stats
  end.

(** ** [write_mesh_data] *)

(** Modelled from the spec: [keep_offset] of SKPutil, the table behind
    [mats] and [seen], which gives "each distinct material a stable integer
    slot in first-seen order" and is the "running per-mesh vertex table
    keyed by position".  The table is the list of its keys in first-seen
    order; the slot of a key is its position. *)
Fixpoint index_of {K} `{!EqDecision K} (k : K) (ko : list K) : option nat :=
  match ko with
  | [] => None
  | k' :: ko' => if decide (k' = k) then Some 0 else S <$> index_of k ko'
  end.

(** [ko[k]]: the slot of [k], a new one if [k] was never seen. *)
Definition keep_offset_getitem {K} `{!EqDecision K} (k : K) (ko : list K)
  : nat * list K :=
  match index_of k ko with
  | Some i => (i, ko)
  | None => (length ko, ko ++ [k])
  end.

(** The lists built over the faces. *)
Record MeshAcc := mkMeshAcc {
  verts : list Vec3;
  loops_vert_idx : list nat;
  mat_index : list nat;
  smooth : list bool;
  mats : list string;      (* keep_offset() *)
  seen : list Vec3;        (* keep_offset() *)
  uv_list : list (UV * UV * UV);
}.

(** [for i, (v, uv) in enumerate(zip(vs, uvs))] with its [uvs.append(uv)]:
    [zip] takes the next vertex, then the item of [uvs] at the running
    index, which the appends of earlier rounds may have supplied. *)
Fixpoint enumerate_zip (vs : list Vec3) (i : nat) (uvs : list UV)
    (seen verts : list Vec3) (mapping : list nat)
  : list UV * list Vec3 * list Vec3 * list nat :=
  match vs with
  | [] => (uvs, seen, verts, mapping)
  | v :: vs' =>
    match uvs !! i with
    | None => (uvs, seen, verts, mapping)
    | Some uv =>
      let '(idx, seen') := keep_offset_getitem v seen in
      let verts' :=
        if decide (length seen < length seen') then verts ++ [v]
        else verts in
      enumerate_zip vs' (S i) (uvs ++ [uv]) seen' verts' (mapping ++ [idx])
    end
  end.

(** [d[i]] on the dict [mapping] and [l[i]] on the list [uvs]. *)
Definition getitem {A} (e : exn) (l : list A) (i : nat) : result A :=
  match l !! i with
  | Some a => Ok a
  | None => Raise e
  end.

(** One round of [for face in tri]. *)
Definition write_triangle (mapping : list nat) (uvs : list UV)
    (smooth_edge : bool) (mat_number : nat) (face : nat * nat * nat)
    (acc : MeshAcc) : result MeshAcc :=
  let '(f0, f1, f2) := face in
  m2 ← getitem KeyError mapping f2;
  let '(a, b, c) :=
    if decide (m2 = 0) then (f2, f0, f1) else (f0, f1, f2) in
  ma ← getitem KeyError mapping a;
  mb ← getitem KeyError mapping b;
  mc ← getitem KeyError mapping c;
  ua ← getitem IndexError uvs a;
  ub ← getitem IndexError uvs b;
  uc ← getitem IndexError uvs c;
  Ok (mkMeshAcc (verts acc) (loops_vert_idx acc ++ [ma; mb; mc])
        (mat_index acc ++ [mat_number]) (smooth acc ++ [smooth_edge])
        (mats acc) (seen acc) (uv_list acc ++ [(ua, ub, uc)])).

(** The scale assigned to [f.st_scale] before the tessellation is read:
    only for a face without material under a non-default material, and
    only when [materials_scales] knows that material. *)
Definition face_st_scale (cfg : Config) (default_material : string)
    (f : Face) : option Scale2 :=
  match f_material f with
  | Some _ => None
  | None =>
    if decide (default_material = "Material") then None
    else materials_scales cfg !! default_material
  end.

(** One round of [for f in entities.faces]. *)
Definition write_face (cfg : Config) (default_material : string) (f : Face)
    (acc : MeshAcc) : result MeshAcc :=
  let '(mat_number, mats') :=
    keep_offset_getitem (default default_material (f_material f))
      (mats acc) in
  let t := f_tessfaces f (face_st_scale cfg default_material f) in
  let '(uvs, seen', verts', mapping) :=
    enumerate_zip (tess_vs t) 0 (tess_uvs t) (seen acc) (verts acc) [] in
  let smooth_edge := existsb id (f_edges_smooth f) in
  for_each (write_triangle mapping uvs smooth_edge mat_number) (tess_tri t)
    (mkMeshAcc verts' (loops_vert_idx acc) (mat_index acc) (smooth acc)
       mats' seen' (uv_list acc)).

(** [for k in mats_sorted.keys()]: the material of every slot, falling back
    to ['Material'], and whether a uv layer is wanted. *)
Definition mesh_material (cfg : Config) (k : string)
    (acc : list BMat * bool) : result (list BMat * bool) :=
  bmat ← match materials cfg !! k with
         | Some bmat => Ok bmat
         | None => match materials cfg !! "Material" with
                   | Some bmat => Ok bmat
                   | None => Raise KeyError
                   end
         end;
  let uvs_used :=
    match bm_nodes bmat with
    | Some nodes =>
        if bool_decide ("Image Texture" ∈ nodes) then true else acc.2
    | None => false
    end in
  Ok (acc.1 ++ [bmat], uvs_used).

(** [loop_start]: 0, 3, 6, ... for [n] triangles. *)
Definition loop_starts (n : nat) : list nat := (fun i => 3 * i) <$> seq 0 n.

Definition write_mesh_data (cfg : Config) (entities : Entities)
    (name : string) (default_material : string) (s : State)
  : result ((option nat * bool) * State) :=
  let mesh_key := (name, default_material) in
  match component_meshes s !! mesh_key with
  | Some (me, alpha) => Ok ((Some me, alpha), s)
  | None =>
    let alpha := false in
    acc ← for_each (write_face cfg default_material) (e_faces entities)
            (mkMeshAcc [] [] [] [] [] [] []);
    if decide (length (verts acc) = 0) then Ok ((None, false), s)
    else
      slots ← for_each (mesh_material cfg) (mats acc) ([], false);
      let bmats : list BMat := slots.1 in
      let uvs_used : bool := slots.2 in
      let tri_face_count := length (loops_vert_idx acc) `div` 3 in
      let uv_layer :=
        if uvs_used
        then Some (flat_map (fun '(a, b, c) => [a; b; c])
                     (take tri_face_count (uv_list acc)))
        else None in
      let '(me, s) :=
        meshes_new
          (mkMesh name bmats (verts acc) (loops_vert_idx acc)
             (loop_starts tri_face_count) (replicate tri_face_count 3)
             (mat_index acc) (smooth acc) uv_layer) s in
      Ok ((Some me, alpha),
          set_component_meshes (<[mesh_key := (me, alpha)]>
                                  (component_meshes s)) s)
  end.

(** ** [write_entities] *)

(** [0.01 < alpha < 1.0] on the boolean [alpha] that [write_mesh_data]
    returns: [False] is 0 and [True] is 1, so the test reads
    [1 <= alpha < 1] over the integers. *)
Definition alpha_is_partial (alpha : bool) : bool :=
  let a : Z := if alpha then 1%Z else 0%Z in
  ((1 <=? a) && (a <? 1))%Z.

Definition key_skipped (k : Key) (s : State) : bool :=
  bool_decide (is_Some (component_skip s !! k)).

(** The object of the node itself: a mesh object for a leaf or for the
    root, otherwise an empty with the loose geometry as a child object.
    Returns the handle of [ob] and [hide_empty]. *)
Definition write_node (name : string) (parent_transform : Matrix)
    (me : option nat) (alpha : bool) (nested_count : nat) (s : State)
  : nat * bool * State :=
  if bool_decide (nested_count = 0) || bool_decide (name = "_(Loose Entity)")
  then
    let '(ob, s) := objects_new name me s in
    let s := update_object ob (with_matrix_world parent_transform) s in
    let s := if alpha_is_partial alpha
             then update_object ob (with_show_transparent true) s else s in
    (ob, false, s)
  else
    let '(ob, s) := objects_new name None s in
    let s := update_object ob (with_matrix_world parent_transform) s in
    match me with
    | Some _ =>
      let '(ob_mesh, s) :=
        objects_new ("_" +:+ name +:+ " (Loose Mesh)") me s in
      let s := update_object ob_mesh (with_matrix_world parent_transform) s in
      let s := if alpha_is_partial alpha
               then update_object ob_mesh (with_show_transparent true) s
               else s in
      let s := update_object ob_mesh (with_parent ob) s in
      let s := update_object ob_mesh (with_location vzero) s in
      (ob, true, context_link ob_mesh s)
    | None => (ob, true, s)
    end.

(** Parenting, the reset of rotation and scale, linking and hiding. *)
Definition nest_node (ob : nat) (parent_transform : Matrix)
    (parent_name : option string) (parent_location : Vec3)
    (nested_count : nat) (hide_empty : bool) (s : State) : result State :=
  s ← match parent_name with
      | Some pn =>
        if decide (pn = "_(Loose Entity)") then Ok s
        else
          p ← objects_getitem pn s;
          let s := update_object ob (with_parent p) s in
          Ok (update_object ob
                (with_location
                   (vsub (translation_of parent_transform) parent_location))
                s)
      | None => Ok s
      end;
  let s := if bool_decide (0 < nested_count)
           then update_object ob (with_scale vone)
                  (update_object ob (with_rotation_quaternion quat_identity)
                     s)
           else s in
  let s := context_link ob s in
  Ok (update_object ob (with_hide hide_empty) s).

(** [cname] of an instance. *)
Definition instance_cname (instance : Instance) (cdef : ComponentDefinition)
  : string :=
  if decide (i_name instance = "") then "C-" +:+ cd_name cdef
  else i_name instance +:+ " (C-" +:+ cd_name cdef +:+ ")".

(** The body of [for group in entities.groups]; [rec] is the recursive
    call, [ob] the object of the enclosing node. *)
Definition write_group_child
    (rec : Entities → string → Matrix → string → option EntityType →
           option string → Vec3 → State → result State)
    (cfg : Config) (parent_transform : Matrix) (default_material : string)
    (ob : nat) (nested_location : Vec3) (group : Group) (s : State)
  : result State :=
  if g_hidden group then Ok s
  else if layer_skipped cfg (g_layer group) then Ok s
  else
    let '(temp_ob, s) := objects_new (g_name group) None s in
    let gname := "G-" +:+ group_safe_name (object_name temp_ob s) in
    rec (g_entities group) gname
      (matmul parent_transform (g_transform group))
      (inherent_default_mat (g_material group) default_material)
      (Some ET_group) (Some (object_name ob s)) nested_location s.

(** The body of [for instance in entities.instances]. *)
Definition write_instance_child
    (rec : Entities → string → Matrix → string → option EntityType →
           option string → Vec3 → State → result State)
    (cfg : Config) (parent_transform : Matrix) (default_material : string)
    (ob : nat) (nested_location : Vec3) (instance : Instance) (s : State)
  : result State :=
  if i_hidden instance then Ok s
  else if layer_skipped cfg (i_layer instance) then Ok s
  else
    let mat_name := inherent_default_mat (i_material instance)
                      default_material in
    cdef ← lookup_component cfg (i_definition_name instance);
    rec (cd_entities cdef) (instance_cname instance cdef)
      (matmul parent_transform (i_transform instance))
      mat_name (Some ET_component) (Some (object_name ob s))
      nested_location s.

Fixpoint write_entities (fuel : nat) (cfg : Config) (entities : Entities)
    (name : string) (parent_transform : Matrix) (default_material : string)
    (etype : option EntityType) (parent_name : option string)
    (parent_location : Vec3) (s : State) : result State :=
  match fuel with
  | 0 => OutOfFuel
  | S fuel' =>
    if bool_decide (etype = Some ET_component)
       && key_skipped (name, default_material) s
    then
      Ok (set_component_stats
            (defaultdict_append (name, default_material) parent_transform
               (component_stats s)) s)
    else
      '((me, alpha), s) ← write_mesh_data cfg entities name
                            default_material s;
      let nested_groups := length (e_groups entities) in
      let nested_comps := length (e_instances entities) in
      let nested_count := nested_groups + nested_comps in
      let '(ob, hide_empty, s) :=
        write_node name parent_transform me alpha nested_count s in
      let nested_location := translation_of parent_transform in
      s ← nest_node ob parent_transform parent_name parent_location
            nested_count hide_empty s;
      s ← for_each (write_group_child (write_entities fuel' cfg) cfg
                      parent_transform default_material ob nested_location)
            (e_groups entities) s;
      for_each (write_instance_child (write_entities fuel' cfg) cfg
                  parent_transform default_material ob nested_location)
        (e_instances entities) s
  end.

(** ** [instance_object_or_group] *)

Definition instance_object_or_group (name default_material : string)
    (s : State) : result (nat * State) :=
  match group_written s !! (name, default_material) with
  | Some group =>
    let '(ob, s) := objects_new name None s in
    Ok (ob, update_object ob (with_instance INST_COLLECTION (Some group)) s)
  | None =>
    (* except KeyError *)
    match component_meshes s !! (name, default_material) with
    | Some (me, alpha) =>
      let '(ob, s) := objects_new name (Some me) s in
      Ok (ob, if (alpha : bool)
              then update_object ob (with_show_transparent true) s else s)
    | None => Raise KeyError
    end
  end.

(** ** [component_def_as_group] *)

Fixpoint component_def_as_group (fuel : nat) (cfg : Config)
    (entities : Entities) (name : string) (parent_transform : Matrix)
    (default_material : string) (etype : option EntityType) (group : nat)
    (s : State) : result State :=
  match fuel with
  | 0 => OutOfFuel
  | S fuel' =>
    if bool_decide (etype = Some ET_outer)
       && key_skipped (name, default_material) s
    then Ok s
    else
      let s :=
        if bool_decide (etype = Some ET_outer)
        then set_component_skip
               (<[(name, default_material) := SkipTrue]> (component_skip s)) s
        else s in
      if bool_decide (etype = Some ET_component)
         && key_skipped (name, default_material) s
      then
        r ← instance_object_or_group name default_material s;
        let '(ob, s) := (r : nat * State) in
        let s := update_object ob (with_matrix_world parent_transform) s in
        let s := context_link ob s in
        Ok (group_link group ob s)
      else
        '((me, alpha), s) ← write_mesh_data cfg entities name
                              default_material s;
        let s :=
          match me with
          | Some _ =>
            let '(ob, s) := objects_new name me s in
            let s := update_object ob (with_matrix_world parent_transform)
                       s in
            let s := if (alpha : bool)
                     then update_object ob (with_show_transparent true) s
                     else s in
            let s := context_link ob s in
            group_link group ob s
          | None => s
          end in
        s ← for_each (fun g s =>
              if layer_skipped cfg (g_layer g) then Ok s
              else component_def_as_group fuel' cfg (g_entities g)
                     ("G-" +:+ g_name g)
                     (matmul parent_transform (g_transform g))
                     (inherent_default_mat (g_material g) default_material)
                     (Some ET_group) group s)
            (e_groups entities) s;
        for_each (fun instance s =>
            if layer_skipped cfg (i_layer instance) then Ok s
            else
              cdef ← lookup_component cfg (i_definition_name instance);
              component_def_as_group fuel' cfg (cd_entities cdef)
                (cd_name cdef)
                (matmul parent_transform (i_transform instance))
                (inherent_default_mat (i_material instance)
                   default_material)
                (Some ET_component) group s)
          (e_instances entities) s
  end.

(** ** [write_duplicateable_groups] *)

(** [max(self.component_depth.values(), default=0)] *)
Definition max_component_depth (cfg : Config) : nat :=
  max_list ((map_to_list (component_depth cfg)).*2).

(** The comprehension that drops the pairs below the threshold. *)
Definition filter_stats (instance_when_over : Z) (st : Stats) : Stats :=
  filter (fun kv => (instance_when_over <=? Z.of_nat (length kv.2))%Z) st.

(** The body of the two nested loops, for depth level [i] and one pair.
    A component definition is an object without [__bool__] or [__len__]:
    [comp_def and ...] only tests the comparison. *)
Definition write_group (fuel : nat) (cfg : Config) (i : nat)
    (kv : Key * list Matrix) (s : State) : result State :=
  let '(name, mat) := kv.1 in
  depth ← match component_depth cfg !! name with
          | Some d => Ok d
          | None => Raise KeyError
          end;
  comp_def ← lookup_component cfg name;
  if decide (depth = 1) then Ok s
  else if decide (depth = i) then
    let gname := group_name name mat in
    match (if reuse_group cfg
           then find_name coll_name gname (bpy_collections s)
           else None) with
    | Some existing =>
      let s := set_component_skip
                 (<[(name, mat) := SkipEntities (cd_entities comp_def)]>
                    (component_skip s)) s in
      Ok (set_group_written
            (<[(name, mat) := existing]> (group_written s)) s)
    | None =>
      let '(group, s) := collections_new gname s in
      s ← component_def_as_group fuel cfg (cd_entities comp_def) name
            mat_identity mat (Some ET_outer) group s;
      let s := set_component_skip
                 (<[(name, mat) := SkipEntities (cd_entities comp_def)]>
                    (component_skip s)) s in
      Ok (set_group_written (<[(name, mat) := group]> (group_written s)) s)
    end
  else Ok s.

Definition write_duplicateable_groups (fuel : nat) (cfg : Config)
    (s : State) : result State :=
  component_stats ←
    analyze_entities fuel cfg (model_entities cfg) "Sketchup" mat_identity
      "Material" ET_none [] None;
  let instance_when_over := max_instance cfg in
  let max_depth := max_component_depth cfg in
  let component_stats := filter_stats instance_when_over component_stats in
  for_each (fun i s => for_each (write_group fuel cfg i) component_stats s)
    (seq 0 (max_depth + 1)) s.

(** ** [instance_group_dupli_vert] *)

(** The key and the location [get_orientations] derives from a transform. *)
Definition orientation_key (transform : Matrix) : Vec3 * Quat :=
  let '(loc, rot, scale) := decompose transform in (scale, rot).
Definition orientation_loc (transform : Matrix) : Vec3 :=
  let '(loc, rot, scale) := decompose transform in loc.

(** The clusters in the order the generator yields them. *)
Definition get_orientations (v : list Matrix)
  : list ((Vec3 * Quat) * list Vec3) :=
  foldl (fun o transform =>
           defaultdict_append (orientation_key transform)
             (orientation_loc transform) o) [] v.

(** The body of the loop over the clusters.  [load] calls the method for
    the keys of [component_stats], so reading the dictionary creates no
    entry. *)
Definition write_dupli_vert (name default_material : string)
    (cluster : (Vec3 * Quat) * list Vec3) (s : State) : result State :=
  let '((scale, rot), locs) := cluster in
  main_loc ← getitem IndexError locs 0;
  let verts := (fun c => vsub c main_loc) <$> locs in
  let '(dme, s) :=
    meshes_new (mkMesh ("DUPLI-" +:+ name) [] verts [] [] [] [] [] None) s in
  let '(dob, s) := objects_new ("DUPLI-" +:+ name) (Some dme) s in
  let s := update_object dob (with_location main_loc) s in
  let s := update_object dob (with_instance INST_VERTS None) s in
  r ← instance_object_or_group name default_material s;
  let '(ob, s) := (r : nat * State) in
  let s := update_object ob (with_scale scale) s in
  let s := update_object ob (with_rotation_quaternion rot) s in
  let s := update_object ob (with_parent dob) s in
  let s := context_link ob s in
  Ok (context_link dob s).

Definition instance_group_dupli_vert (name default_material : string)
    (component_stats : Stats) (s : State) : result State :=
  for_each (write_dupli_vert name default_material)
    (get_orientations (defaultdict_get (name, default_material) component_stats))
    s.

(** ** [write_camera] *)

(** What [camera.fov] and [camera.aspect_ratio] report: a float, or [False]
    when the source has none. *)
Inductive PyNum := PyFalse | PyFloat (f : float).

(** [x == False]: a float equals [False] exactly when it equals zero. *)
Definition eq_False (x : PyNum) : bool :=
  match x with
  | PyFalse => true
  | PyFloat f => PrimFloat.eqb f 0%float
  end.

Record SkpCamera := mkSkpCamera {
  sc_orientation : Vec3 * Vec3 * Vec3;   (* GetOrientation(): pos, target, up *)
  sc_aspect_ratio : PyNum;
  sc_fov : PyNum;
}.

(** [math.pi] *)
Definition math_pi : float := 0x1.921fb54442d18p+1%float.

(** [(math.pi * fov / 180) * aspect_ratio] *)
Definition camera_angle (fov aspect_ratio : float) : float :=
  (math_pi * fov / 180 * aspect_ratio)%float.

(** [ren_res_x / ren_res_y] on the two integers of the render settings
    (exact conversions, the integers being far below 2^53). *)
Definition render_aspect_ratio (ren_res_x ren_res_y : Z) : float :=
  (PrimFloat.of_uint63 (Uint63.of_Z ren_res_x)
   / PrimFloat.of_uint63 (Uint63.of_Z ren_res_y))%float.

(** A reported value inside arithmetic: [False] counts as zero. *)
Definition py_float (x : PyNum) : float :=
  match x with
  | PyFalse => 0%float
  | PyFloat f => f
  end.

(** The aspect ratio after [if aspect_ratio == False]. *)
Definition camera_aspect_ratio (cfg : Config) (camera : SkpCamera) : float :=
  if eq_False (sc_aspect_ratio camera) then aspect_ratio cfg
  else py_float (sc_aspect_ratio camera).

Definition write_camera (cfg : Config) (camera : SkpCamera) (name : string)
    (s : State) : string * State :=
  let '(pos, target, up) := sc_orientation camera in
  (* bpy.ops.object.add(type='CAMERA', location=pos) *)
  let '(ob, s) := objects_new "Camera" None s in
  let s := update_object ob (with_location pos) s in
  let s := update_object ob
             (with_name (unique_name
                           (ob_name <$> take ob (bpy_objects s))
                           ("Cam: " +:+ name))) s in
  let z := vsub pos target in
  let x := vcross up z in
  let y := vcross z x in
  let basis := (vnormalized x, vnormalized y, vnormalized z) in
  let aspect_ratio := camera_aspect_ratio cfg camera in
  let fov := sc_fov camera in
  let '(type, angle) :=
    if eq_False fov then (ORTHO, None)
    else (PERSP, Some (camera_angle (py_float fov) aspect_ratio)) in
  let cam_name := unique_name (cam_name <$> bpy_cameras s)
                    ("Cam: " +:+ name) in
  let cam := mkCamera cam_name ob basis type angle (camera_far_plane cfg) in
  (cam_name, set_bpy_cameras (bpy_cameras s ++ [cam]) s).

(** ** Invariants of the builders

    [acc_inv]: what the lists of [write_mesh_data] satisfy between two
    faces.  The vertex list is the table of seen positions, every loop
    indexes a vertex, and the per-triangle lists run in step. *)
Definition acc_inv (acc : MeshAcc) : Prop :=
  verts acc = seen acc
  ∧ NoDup (seen acc)
  ∧ Forall (fun i => i < length (verts acc)) (loops_vert_idx acc)
  ∧ length (loops_vert_idx acc) = 3 * length (mat_index acc)
  ∧ length (smooth acc) = length (mat_index acc)
  ∧ length (uv_list acc) = length (mat_index acc)
  ∧ Forall (fun m => m < length (mats acc)) (mat_index acc).

(** The names [write_entities] gives to the nodes it makes for component
    instances: ["C-" + cdef.name], or
    [instance.name + " (C-" + cdef.name + ")"]. *)
Definition is_cname (n : string) : Prop :=
  (∃ x, n = "C-" +:+ x) ∨ (∃ y x, n = y +:+ " (C-" +:+ x +:+ ")").

(** What [write_entities] leaves alone whatever it is called on: the
    dictionaries of the deduplication, the collections and the cameras. *)
Definition entities_frame (s s' : State) : Prop :=
  component_skip s' = component_skip s
  ∧ group_written s' = group_written s
  ∧ bpy_collections s' = bpy_collections s
  ∧ bpy_cameras s' = bpy_cameras s.

(** ** The mesh objects phase of [load]

    The statements of [load] that follow the making of the collection
    ['SKP Mesh Objects']: the write pass from the root of the model, then
    one instancing call for every key that the write pass left in
    [component_stats].  [instance_group_dupli_face] is a method of the
    importer that is not embedded here; the loop takes it as it is. *)
Variable instance_group_dupli_face :
  string → string → Stats → State → result State.

Definition load_mesh_objects (fuel : nat) (cfg : Config)
    (dedub_type : string) (s : State) : result State :=
  s ← write_entities fuel cfg (model_entities cfg) "_(Loose Entity)"
        mat_identity "Material" None None vzero s;
  for_each (fun kv s =>
      let '(name, mat) := kv.1 in
      if decide (dedub_type = "VERTEX")
      then instance_group_dupli_vert name mat (component_stats s) s
      else instance_group_dupli_face name mat (component_stats s) s)
    (component_stats s) s.

(** The number of vertices of a tessellation that get an entry in the
    [mapping] of [write_mesh_data]: all of them, or none when the
    tessellation comes without any uv ([zip] then yields nothing). *)
Definition mapped_vertices (t : Tess) : nat :=
  match tess_uvs t with
  | [] => 0
  | _ => length (tess_vs t)
  end.

Definition triangle_in_range (n : nat) (face : nat * nat * nat) : Prop :=
  face.1.1 < n ∧ face.1.2 < n ∧ face.2 < n.

#[local] Instance triangle_in_range_dec n face :
  Decision (triangle_in_range n face).
Proof. unfold triangle_in_range. apply _. Defined.

(** ** Referential integrity of the scene

    Handles are positions in the lists of [bpy.data].  An object is well
    formed when its mesh, its parent and the collection it instances
    exist. *)
Definition object_ok (nm no nc : nat) (o : Object) : Prop :=
  (∀ m, ob_data o = Some m → m < nm)
  ∧ (∀ p, ob_parent o = Some p → p < no)
  ∧ (∀ c, ob_instance_collection o = Some c → c < nc).

(** The objects linked into a collection exist, and none is linked
    twice. *)
Definition links_ok (no : nat) (l : list nat) : Prop :=
  NoDup l ∧ Forall (fun h => h < no) l.

Definition scene_ok (s : State) : Prop :=
  Forall (object_ok (length (bpy_meshes s)) (length (bpy_objects s))
            (length (bpy_collections s))) (bpy_objects s)
  ∧ links_ok (length (bpy_objects s)) (context_collection s)
  ∧ Forall (fun c => links_ok (length (bpy_objects s)) (coll_objects c))
      (bpy_collections s)
  ∧ map_Forall (fun _ v => v.1 < length (bpy_meshes s)) (component_meshes s)
  ∧ map_Forall (fun _ g => g < length (bpy_collections s)) (group_written s)
  ∧ Forall (fun cam => cam_object cam < length (bpy_objects s))
      (bpy_cameras s).

(** ** Reference notions of the specification *)

(** The entities with the groups and instances on a hidden layer removed. *)
Definition prune_layers (cfg : Config) (e : Entities) : Entities :=
  mkEntities
    (filter (fun g => layer_skipped cfg (g_layer g) = false) (e_groups e))
    (filter (fun i => layer_skipped cfg (i_layer i) = false) (e_instances e))
    (e_faces e).

(** The component occurrences below [e], as the specification describes
    the analysis: skip any node on a hidden layer; for a component
    instance, one occurrence of (component name, effective material) at the
    composed transform; descend into nested groups and into the definition
    of nested instances. There is no set of skipped components here. The
    occurrences come in the order of the traversal, [n] bounding the
    nesting. *)
Fixpoint occurrences (n : nat) (cfg : Config) (e : Entities)
    (transform : Matrix) (default_material : string)
  : list (Key * Matrix) :=
  match n with
  | 0 => []
  | S n' =>
    flat_map (fun g =>
        if layer_skipped cfg (g_layer g) then []
        else occurrences n' cfg (g_entities g)
               (matmul transform (g_transform g))
               (inherent_default_mat (g_material g) default_material))
      (e_groups e)
    ++ flat_map (fun i =>
        if layer_skipped cfg (i_layer i) then []
        else
          match skp_components cfg !! i_definition_name i with
          | Some cdef =>
            let mat := inherent_default_mat (i_material i)
                         default_material in
            let t := matmul transform (i_transform i) in
            ((cd_name cdef, mat), t)
            :: occurrences n' cfg (cd_entities cdef) t mat
          | None => []
          end)
      (e_instances e)
  end.

(** The same, declaratively: [occurs cfg e t dm k t'] when some component
    instance below [e], reached through groups and instances that are not
    on a hidden layer, has key [k] and composed transform [t'], [t] and
    [dm] being the transform and the effective material at [e]. *)
Inductive occurs (cfg : Config)
  : Entities → Matrix → string → Key → Matrix → Prop :=
| occurs_instance e t dm i cdef :
    i ∈ e_instances e →
    layer_skipped cfg (i_layer i) = false →
    skp_components cfg !! i_definition_name i = Some cdef →
    occurs cfg e t dm
      (cd_name cdef, inherent_default_mat (i_material i) dm)
      (matmul t (i_transform i))
| occurs_below_instance e t dm i cdef k t' :
    i ∈ e_instances e →
    layer_skipped cfg (i_layer i) = false →
    skp_components cfg !! i_definition_name i = Some cdef →
    occurs cfg (cd_entities cdef) (matmul t (i_transform i))
      (inherent_default_mat (i_material i) dm) k t' →
    occurs cfg e t dm k t'
| occurs_below_group e t dm g k t' :
    g ∈ e_groups e →
    layer_skipped cfg (g_layer g) = false →
    occurs cfg (g_entities g) (matmul t (g_transform g))
      (inherent_default_mat (g_material g) dm) k t' →
    occurs cfg e t dm k t'.

(** The entities with everything beneath a hidden-layer group or instance
    taken away: the group is emptied, the instance refers to no definition.
    The groups and instances themselves stay, so the counts are as before. *)
Definition blank_group (cfg : Config) (g : Group) : Group :=
  if layer_skipped cfg (g_layer g)
  then mkGroup (g_name g) (g_transform g) (mkEntities [] [] [])
         (g_material g) (g_hidden g) (g_layer g)
  else g.
Definition blank_instance (cfg : Config) (i : Instance) : Instance :=
  if layer_skipped cfg (i_layer i)
  then mkInstance (i_name i) "" (i_transform i) (i_material i) (i_hidden i)
         (i_layer i)
  else i.
Definition blank_layers (cfg : Config) (e : Entities) : Entities :=
  mkEntities (blank_group cfg <$> e_groups e)
    (blank_instance cfg <$> e_instances e) (e_faces e).

(** The same group or instance with another hidden flag. *)
Definition set_g_hidden (b : bool) (g : Group) : Group :=
  mkGroup (g_name g) (g_transform g) (g_entities g) (g_material g) b
    (g_layer g).
Definition set_i_hidden (b : bool) (i : Instance) : Instance :=
  mkInstance (i_name i) (i_definition_name i) (i_transform i)
    (i_material i) b (i_layer i).

(** Recording a list of occurrences in a [component_stats]. *)
Definition record_occurrences (st : Stats) (os : list (Key * Matrix))
  : Stats :=
  foldl (fun st o => defaultdict_append o.1 o.2 st) st os.

(** A tessellation as the reader delivers it: one uv per vertex, and
    triangles that index the vertices. *)
Definition tess_ok (t : Tess) : Prop :=
  length (tess_uvs t) = length (tess_vs t)
  ∧ Forall (fun '(f0, f1, f2) =>
              f0 < length (tess_vs t) ∧ f1 < length (tess_vs t)
              ∧ f2 < length (tess_vs t))
      (tess_tri t).

Definition face_ok (f : Face) : Prop := ∀ scale, tess_ok (f_tessfaces f scale).

(** [tree_ok cfg avoid n e]: below [e] every face is well formed, every
    instance names a definition of [skp_components] other than [avoid],
    and the nesting of groups and definitions is less than [n] deep, so
    that the definitions reached from [e] do not refer to each other in a
    cycle. *)
Fixpoint tree_ok (cfg : Config) (avoid : option string) (n : nat)
    (e : Entities) : Prop :=
  match n with
  | 0 => False
  | S n' =>
    Forall face_ok (e_faces e)
    ∧ Forall (fun g => tree_ok cfg avoid n' (g_entities g)) (e_groups e)
    ∧ Forall (fun i =>
                ∃ cdef,
                  skp_components cfg !! i_definition_name i = Some cdef
                  ∧ Some (cd_name cdef) ≠ avoid
                  ∧ tree_ok cfg avoid n' (cd_entities cdef))
        (e_instances e)
  end.

(** The model the deduplication is run on: the default material exists,
    [skp_components] maps the name of every definition to it, a depth was
    computed for every definition, no definition contains an instance of
    itself, and definitions and model nest less than [fuel] deep. *)
Definition model_ok (cfg : Config) (fuel : nat) : Prop :=
  is_Some (materials cfg !! "Material")
  ∧ map_Forall (fun nm cdef =>
                  cd_name cdef = nm
                  ∧ is_Some (component_depth cfg !! nm)
                  ∧ tree_ok cfg (Some nm) fuel (cd_entities cdef))
      (skp_components cfg)
  ∧ tree_ok cfg None fuel (model_entities cfg).

(** A pair whose component has depth [i], other than 1. *)
Definition at_depth (cfg : Config) (i : nat) (kv : Key * list Matrix)
  : Prop :=
  component_depth cfg !! kv.1.1 = Some i ∧ i ≠ 1.

#[local] Instance at_depth_dec cfg i kv : Decision (at_depth cfg i kv).
Proof. unfold at_depth. apply _. Defined.

(** The pairs that get a group, in ascending order of depth and, within a
    depth, in the order of [component_stats]. *)
Definition schedule (cfg : Config) (candidates : Stats) : Stats :=
  flat_map (fun i => filter (at_depth cfg i) candidates)
    (seq 0 (max_component_depth cfg + 1)).

Definition depth_le (cfg : Config) (kv1 kv2 : Key * list Matrix) : Prop :=
  ∃ d1 d2, component_depth cfg !! kv1.1.1 = Some d1
           ∧ component_depth cfg !! kv2.1.1 = Some d2 ∧ d1 ≤ d2.

(** A pair is promoted when it is entered in both dictionaries. *)
Definition promoted (s : State) (k : Key) : Prop :=
  is_Some (component_skip s !! k) ∧ is_Some (group_written s !! k).

(** The threshold boundary as the specification states it, for one run of
    the deduplication: of the pairs the analysis records, one occurring
    exactly [max_instance] times is promoted, one occurring once less is
    not. *)
Definition stated_threshold_claim (fuel : nat) (cfg : Config)
    (s : State) : Prop :=
  ∀ stats s' k,
    analyze_entities fuel cfg (model_entities cfg) "Sketchup" mat_identity
      "Material" ET_none [] None = Ok stats →
    write_duplicateable_groups fuel cfg s = Ok s' →
    k ∈ stats.*1 →
    (Z.of_nat (length (defaultdict_get k stats)) = max_instance cfg →
     promoted s' k)
    ∧ (Z.of_nat (length (defaultdict_get k stats)) = (max_instance cfg - 1)%Z →
       ¬ promoted s' k).

(** The loop body at the depth of the pair itself. *)
Definition write_group_own (fuel : nat) (cfg : Config)
    (kv : Key * list Matrix) (s : State) : result State :=
  match component_depth cfg !! kv.1.1 with
  | Some depth => write_group fuel cfg depth kv s
  | None => Raise KeyError
  end.

(** ** The import session

    [extends s s']: what [s'] may differ from [s] in after any number of
    passes. The mesh cache only gains entries and objects keep their
    handle, their name and their data. *)
Definition ob_ident (o : Object) : string * option nat :=
  (ob_name o, ob_data o).

Definition extends (s s' : State) : Prop :=
  component_meshes s ⊆ component_meshes s'
  ∧ (ob_ident <$> bpy_objects s) `prefix_of` (ob_ident <$> bpy_objects s').

(** [group_frame s s']: what [component_def_as_group] leaves alone below
    its outermost call: the dictionaries of the deduplication and the names
    of the collections. *)
Definition group_frame (s s' : State) : Prop :=
  extends s s'
  ∧ component_skip s' = component_skip s
  ∧ group_written s' = group_written s
  ∧ component_stats s' = component_stats s
  ∧ coll_name <$> bpy_collections s' = coll_name <$> bpy_collections s.

(** One returning call of a method of the importer. *)
Inductive session_step (cfg : Config) : State → State → Prop :=
| step_write_mesh_data entities name default_material r s s' :
    write_mesh_data cfg entities name default_material s = Ok (r, s') →
    session_step cfg s s'
| step_write_entities fuel entities name parent_transform default_material
    etype parent_name parent_location s s' :
    write_entities fuel cfg entities name parent_transform default_material
      etype parent_name parent_location s = Ok s' →
    session_step cfg s s'
| step_component_def_as_group fuel entities name parent_transform
    default_material etype group s s' :
    component_def_as_group fuel cfg entities name parent_transform
      default_material etype group s = Ok s' →
    session_step cfg s s'
| step_write_duplicateable_groups fuel s s' :
    write_duplicateable_groups fuel cfg s = Ok s' →
    session_step cfg s s'
| step_instance_group_dupli_vert name default_material stats s s' :
    instance_group_dupli_vert name default_material stats s = Ok s' →
    session_step cfg s s'
| step_write_camera camera name s :
    session_step cfg s (write_camera cfg camera name s).2.

(** ** Notions used in the proofs *)

(** The stats the body of [analyze_entities] starts its loops from. *)
Definition record_own (etype : EntityType) (name default_material : string)
    (transform : Matrix) (st : Stats) : Stats :=
  if decide (etype = ET_component)
  then defaultdict_append (name, default_material) transform st
  else st.

(** Attribute assignments that leave the name and the data alone. *)
Definition keeps_ident (f : Object → Object) : Prop :=
  ∀ o, ob_ident (f o) = ob_ident o.

(** The state a call starts from: an outermost call first marks its key. *)
Definition mark_outer (etype : option EntityType) (k : Key) (s : State)
  : State :=
  if bool_decide (etype = Some ET_outer)
  then set_component_skip (<[k := SkipTrue]> (component_skip s)) s
  else s.

(** While the group of definition [a] is written, every skipped key has
    its group, apart from the keys of [a] itself. *)
Definition groups_known (a : string) (s : State) : Prop :=
  ∀ k, is_Some (component_skip s !! k) →
       is_Some (group_written s !! k) ∨ k.1 = a.

(** Between two rounds of the loops every skipped key has its group, and
    every recorded group is a collection of [bpy.data]. *)
Definition groups_inv (s : State) : Prop :=
  (∀ k, is_Some (component_skip s !! k) → is_Some (group_written s !! k))
  ∧ (∀ k g, group_written s !! k = Some g → g < length (bpy_collections s)).

(** The vertices of a cluster's point mesh, as the specification words
    them: every member's location as an offset from the first member's. *)
Definition cluster_offsets (locs : list Vec3) : list Vec3 :=
  match locs with
  | [] => []
  | main_loc :: _ => (fun c => vsub c main_loc) <$> locs
  end.

(** * Properties *)

(** ** Loops and dictionaries *)

Lemma bind_Ok {A B} (a : A) (k : A → result B) : (Ok a ≫= k) = k a.
Proof. done. Qed.

Lemma for_each_app {A S} (body : A → S → result S) l1 l2 s :
  for_each body (l1 ++ l2) s = s' ← for_each body l1 s; for_each body l2 s'.
Proof.
  revert s. induction l1 as [|a l1 IH]; intros s; simpl; [done|].
  destruct (body a s); simpl; auto.
Qed.

(** A round that does nothing can be dropped from the loop. *)
Lemma for_each_filter {A S} (body : A → S → result S) (P : A → Prop)
    `{!∀ a, Decision (P a)} l s :
  (∀ a s, a ∈ l → ¬ P a → body a s = Ok s) →
  for_each body l s = for_each body (filter P l) s.
Proof.
  revert s. induction l as [|a l IH]; intros s Hskip; [done|].
  assert (∀ s, for_each body l s = for_each body (filter P l) s) as IH'.
  { intros s'. apply IH. intros. apply Hskip; [by right|done]. }
  rewrite filter_cons. destruct (decide (P a)) as [Ha|Ha]; simpl.
  - destruct (body a s); simpl; auto.
  - rewrite (Hskip a s) by (done || by left). simpl. apply IH'.
Qed.

Lemma for_each_fmap {A B S} (body : B → S → result S) (f : A → B) l s :
  for_each body (f <$> l) s = for_each (fun a => body (f a)) l s.
Proof.
  revert s. induction l as [|a l IH]; intros s; [done|]. csimpl.
  destruct (body (f a) s); cbn; auto.
Qed.

Lemma for_each_flat_map {A B S} (body : B → S → result S) (f : A → list B)
    l s :
  for_each (fun a s => for_each body (f a) s) l s
  = for_each body (flat_map f l) s.
Proof.
  revert s. induction l as [|a l IH]; intros s; [done|]. cbn.
  rewrite for_each_app. destruct (for_each body (f a) s); cbn; auto.
Qed.

Lemma for_each_ext {A S} (body1 body2 : A → S → result S) l s :
  (∀ a s, a ∈ l → body1 a s = body2 a s) →
  for_each body1 l s = for_each body2 l s.
Proof.
  revert s. induction l as [|a l IH]; intros s Hext; [done|]. simpl.
  rewrite (Hext a s) by left.
  destruct (body2 a s); simpl; auto.
  apply IH. intros. apply Hext. by right.
Qed.

(** A loop invariant carried through a loop that returns. *)
Lemma for_each_inv {A S} (body : A → S → result S) (I : S → Prop) l s s' :
  (∀ a s s', a ∈ l → I s → body a s = Ok s' → I s') →
  I s → for_each body l s = Ok s' → I s'.
Proof.
  revert s. induction l as [|a l IH]; intros s Hstep Hs Hrun; simpl in Hrun.
  - by simplify_eq.
  - destruct (body a s) as [s1| |] eqn:Hb; simpl in Hrun; try done.
    eapply IH; [| |done].
    + intros. eapply Hstep; [by right|done..].
    + eapply Hstep; [by left|done..].
Qed.

(** A loop all of whose rounds return, returns. *)
Lemma for_each_total {A S} (body : A → S → result S) (I : S → Prop) l s :
  (∀ a s, a ∈ l → I s → ∃ s', body a s = Ok s' ∧ I s') →
  I s → ∃ s', for_each body l s = Ok s' ∧ I s'.
Proof.
  revert s. induction l as [|a l IH]; intros s Hstep Hs; simpl.
  - eauto.
  - destruct (Hstep a s) as (s1 & -> & Hs1); [by left|done|]. simpl.
    apply IH; [|done]. intros. apply Hstep; [by right|done].
Qed.

Section defaultdict.
Context {K A : Type} `{!EqDecision K}.
Implicit Types (d : list (K * list A)) (k : K) (a : A).

Lemma defaultdict_get_append d k k' a :
  defaultdict_get k' (defaultdict_append k a d)
  = if decide (k = k') then defaultdict_get k' d ++ [a]
    else defaultdict_get k' d.
Proof.
  induction d as [|[k0 v] d IH]; simpl.
  - repeat case_decide; congruence.
  - repeat (case_decide; simpl); congruence.
Qed.

Lemma defaultdict_get_append_eq d k a :
  defaultdict_get k (defaultdict_append k a d) = defaultdict_get k d ++ [a].
Proof. rewrite defaultdict_get_append. by case_decide. Qed.

Lemma defaultdict_get_append_ne d k k' a :
  k ≠ k' →
  defaultdict_get k' (defaultdict_append k a d) = defaultdict_get k' d.
Proof. intros. rewrite defaultdict_get_append. by case_decide. Qed.

Lemma defaultdict_append_keys d k a :
  (defaultdict_append k a d).*1
  = if decide (k ∈ d.*1) then d.*1 else d.*1 ++ [k].
Proof.
  induction d as [|[k0 v] d IH]; csimpl.
  - done.
  - destruct (decide (k0 = k)) as [->|Hne]; csimpl.
    + rewrite decide_True; [done|by left].
    + rewrite IH. destruct (decide (k ∈ d.*1)) as [Hin|Hin].
      * rewrite decide_True; [done|by right].
      * rewrite decide_False; [done|].
        intros [?|?]%elem_of_cons; congruence.
Qed.

Lemma defaultdict_append_NoDup d k a :
  NoDup d.*1 → NoDup (defaultdict_append k a d).*1.
Proof.
  intros Hnd. rewrite defaultdict_append_keys. case_decide; [done|].
  apply NoDup_app. split_and!; [done| |apply NoDup_singleton].
  intros x Hx ->%list_elem_of_singleton. done.
Qed.

(** The entry of a key holds what [defaultdict_get] returns. *)
Lemma defaultdict_get_elem_of d k v :
  NoDup d.*1 → (k, v) ∈ d → defaultdict_get k d = v.
Proof.
  induction d as [|[k0 v0] d IH]; simpl; intros Hnd Hin.
  - by apply elem_of_nil in Hin.
  - apply NoDup_cons in Hnd as [Hk0 Hnd].
    apply elem_of_cons in Hin as [Heq|Hin].
    + simplify_eq. by rewrite decide_True.
    + case_decide as Hk; [|by apply IH]. subst k0.
      destruct Hk0. apply list_elem_of_fmap. by exists (k, v).
Qed.

Lemma defaultdict_elem_of_get d k v :
  (k, v) ∈ d → k ∈ d.*1.
Proof. intros. apply list_elem_of_fmap. by exists (k, v). Qed.
End defaultdict.

(** ** The write pass on a component that is already a group *)


(** ** Cameras *)

(** C9. [write_camera] makes the camera orthographic when the reported
    field of view compares equal to [False] (the reader's value for "no
    field of view"); otherwise the angle is [(pi * fov / 180) * aspect],
    where [aspect] is the reported aspect ratio, or the render aspect ratio
    [self.aspect_ratio] when the reported one compares equal to [False]
    (dynamic or unset). *)
Theorem write_camera_field_of_view cfg camera name s :
  ∃ cam,
    bpy_cameras (write_camera cfg camera name s).2 = bpy_cameras s ++ [cam]
    ∧ (eq_False (sc_fov camera) = true →
         cam_type cam = ORTHO ∧ cam_angle cam = None)
    ∧ (eq_False (sc_fov camera) = false →
         cam_type cam = PERSP
         ∧ cam_angle cam
           = Some (math_pi * py_float (sc_fov camera) / 180
                   * (if eq_False (sc_aspect_ratio camera)
                      then aspect_ratio cfg
                      else py_float (sc_aspect_ratio camera)))%float).
Proof.
  unfold write_camera, objects_new.
  destruct (sc_orientation camera) as [[pos target] up].
  destruct (eq_False (sc_fov camera)) eqn:Hfov.
  - eexists. split; [reflexivity|]. by split.
  - eexists. split; [reflexivity|]. split; [done|].
    intros _. split; reflexivity.
Qed.

(** ** Point instancing: clusters of equal orientation *)

Lemma index_of_Some {K} `{!EqDecision K} (k : K) l :
  k ∈ l → ∃ i, index_of k l = Some i ∧ l !! i = Some k.
Proof.
  induction l as [|k0 l IH]; intros Hin; [by apply elem_of_nil in Hin|].
  simpl. case_decide as Hk; [subst; by exists 0|].
  apply elem_of_cons in Hin as [->|Hin]; [done|].
  destruct (IH Hin) as (i & -> & Hi). by exists (S i).
Qed.

Lemma index_of_lookup {K} `{!EqDecision K} (k : K) l i :
  index_of k l = Some i → l !! i = Some k.
Proof.
  revert i. induction l as [|k0 l IH]; intros i; simpl; [done|].
  case_decide as Hk; [intros; by simplify_eq|].
  destruct (index_of k l) as [j|]; simpl; intros; simplify_eq.
  by apply IH.
Qed.

Lemma get_orientations_snoc v t :
  get_orientations (v ++ [t])
  = defaultdict_append (orientation_key t) (orientation_loc t)
      (get_orientations v).
Proof. unfold get_orientations. by rewrite foldl_snoc. Qed.

(** The cluster of a key holds the locations of the occurrences with that
    key, in the order they were recorded. *)
Lemma get_orientations_get key v :
  defaultdict_get key (get_orientations v)
  = orientation_loc <$> filter (fun t => orientation_key t = key) v.
Proof.
  induction v as [|t v IH] using rev_ind; [done|].
  rewrite get_orientations_snoc, defaultdict_get_append, filter_app, fmap_app.
  rewrite IH, filter_cons, filter_nil.
  case_decide; simpl; [done|by rewrite app_nil_r].
Qed.

Lemma get_orientations_NoDup v : NoDup (get_orientations v).*1.
Proof.
  induction v as [|t v IH] using rev_ind; [constructor|].
  rewrite get_orientations_snoc. by apply defaultdict_append_NoDup.
Qed.

Lemma get_orientations_keys v key :
  key ∈ (get_orientations v).*1 ↔ ∃ t, t ∈ v ∧ orientation_key t = key.
Proof.
  induction v as [|t v IH] using rev_ind.
  - split; [intros []%elem_of_nil|intros (? & []%elem_of_nil & _)].
  - rewrite get_orientations_snoc, defaultdict_append_keys.
    setoid_rewrite elem_of_app. setoid_rewrite list_elem_of_singleton.
    case_decide as Hin.
    + rewrite IH. split.
      * intros (t' & Ht' & Hk). exists t'. by split; [left|].
      * intros (t' & [Ht'| ->] & <-); [eauto|by apply IH].
    + rewrite elem_of_app, list_elem_of_singleton, IH. split.
      * intros [(t' & Ht' & Hk)| ->]; [exists t'; by split; [left|]|].
        exists t. by split; [right|].
      * intros (t' & [Ht'| ->] & <-); [left; eauto|by right].
Qed.

(** Every cluster is the list [defaultdict_get] returns for its key, and
    has a first member. *)
Lemma get_orientations_entry v key locs :
  (key, locs) ∈ get_orientations v →
  locs = orientation_loc <$> filter (fun t => orientation_key t = key) v
  ∧ locs ≠ [].
Proof.
  intros Hin.
  assert (locs = orientation_loc <$>
                   filter (fun t => orientation_key t = key) v) as ->.
  { rewrite <-get_orientations_get. symmetry.
    apply defaultdict_get_elem_of; [apply get_orientations_NoDup|done]. }
  split; [done|].
  apply defaultdict_elem_of_get, get_orientations_keys in Hin
    as (t & Ht & Hkey).
  intros Hnil%fmap_nil_inv.
  assert (t ∈ filter (fun t => orientation_key t = key) v) as Hf
    by by apply list_elem_of_filter.
  rewrite Hnil in Hf. by apply elem_of_nil in Hf.
Qed.

(** One round of the loop over the clusters, when the component was
    written as a group. *)
Lemma write_dupli_vert_mesh name default_material key locs s :
  is_Some (group_written s !! (name, default_material)) →
  locs ≠ [] →
  ∃ s' dme,
    write_dupli_vert name default_material (key, locs) s = Ok s'
    ∧ group_written s' = group_written s
    ∧ bpy_meshes s' = bpy_meshes s ++ [dme]
    ∧ me_vertices dme = cluster_offsets locs.
Proof.
  intros [g Hg] Hlocs. destruct key as [scale rot].
  destruct locs as [|main_loc locs]; [done|].
  unfold write_dupli_vert, instance_object_or_group. simpl.
  rewrite Hg. simpl. eexists _, _. split_and!; reflexivity.
Qed.

Lemma write_dupli_vert_meshes name default_material clusters s :
  is_Some (group_written s !! (name, default_material)) →
  Forall (fun cl => cl.2 ≠ []) clusters →
  ∃ s' dmes,
    for_each (write_dupli_vert name default_material) clusters s = Ok s'
    ∧ group_written s' = group_written s
    ∧ bpy_meshes s' = bpy_meshes s ++ dmes
    ∧ me_vertices <$> dmes = (fun cl => cluster_offsets cl.2) <$> clusters.
Proof.
  intros Hg Hne. revert s Hg.
  induction Hne as [|[key locs] clusters Hlocs _ IH]; intros s Hg;
    cbn [for_each].
  - exists s, []. by rewrite app_nil_r.
  - destruct (write_dupli_vert_mesh name default_material key locs s Hg Hlocs)
      as (s1 & dme & -> & Hg1 & Hme & Hverts). cbn.
    destruct (IH s1) as (s' & dmes & -> & Hg' & Hmes & Hdmes);
      [by rewrite Hg1|].
    exists s', (dme :: dmes). split_and!; [done|congruence| |].
    + by rewrite Hmes, Hme, <-app_assoc.
    + csimpl. by rewrite Hverts, Hdmes.
Qed.

(** C8. In [instance_group_dupli_vert], the recorded occurrences of a
    (component, material) key are clustered by the pair of decomposed scale
    and rotation: every occurrence lies in the cluster of its own pair,
    which holds the locations of exactly the occurrences with that pair;
    two occurrences are in the same cluster if and only if their scale and
    rotation are both equal, whatever their locations. For a component
    written as a group the pass returns and writes one point mesh per
    cluster whose vertices are the members' locations as offsets from the
    first member's location. *)
Theorem orientation_clustering name default_material (stats : Stats) s :
  let v := defaultdict_get (name, default_material) stats in
  let clusters := get_orientations v in
  (∀ t, t ∈ v →
     ∃ i, index_of (orientation_key t) clusters.*1 = Some i
          ∧ clusters !! i
            = Some (orientation_key t,
                    orientation_loc <$>
                      filter (fun t' => orientation_key t' = orientation_key t)
                        v))
  ∧ (∀ t1 t2, t1 ∈ v → t2 ∈ v →
       index_of (orientation_key t1) clusters.*1
       = index_of (orientation_key t2) clusters.*1
       ↔ orientation_key t1 = orientation_key t2)
  ∧ (is_Some (group_written s !! (name, default_material)) →
     ∃ s' dmes,
       instance_group_dupli_vert name default_material stats s = Ok s'
       ∧ bpy_meshes s' = bpy_meshes s ++ dmes
       ∧ me_vertices <$> dmes = (fun cl => cluster_offsets cl.2) <$> clusters).
Proof.
  intros v clusters.
  assert (∀ t, t ∈ v →
            ∃ i, index_of (orientation_key t) clusters.*1 = Some i
                 ∧ clusters.*1 !! i = Some (orientation_key t)) as Hidx.
  { intros t Ht. apply index_of_Some, get_orientations_keys. eauto. }
  split_and!.
  - intros t Ht. destruct (Hidx t Ht) as (i & Hi & Hk). exists i.
    split; [done|].
    rewrite list_lookup_fmap in Hk.
    destruct (clusters !! i) as [[key locs]|] eqn:Hcl; [|done].
    simpl in Hk. simplify_eq. f_equal. f_equal.
    apply list_elem_of_lookup_2 in Hcl.
    by apply get_orientations_entry in Hcl as [-> _].
  - intros t1 t2 Ht1 Ht2. split; [|by intros ->].
    destruct (Hidx t1 Ht1) as (i & Hi & Hk1). rewrite Hi. intros Heq.
    symmetry in Heq. apply index_of_lookup in Heq. congruence.
  - intros Hg.
    destruct (write_dupli_vert_meshes name default_material clusters s Hg)
      as (s' & dmes & Hrun & _ & Hmes & Hverts).
    + apply Forall_forall. intros [key locs] Hin.
      by apply get_orientations_entry in Hin as [_ ?].
    + by exists s', dmes.
Qed.

(** ** What every pass preserves *)

#[local] Instance extends_refl : Reflexive extends.
Proof. intros s. by split. Qed.

#[local] Instance extends_trans : Transitive extends.
Proof. intros s1 s2 s3 [? ?] [? ?]. split; by etrans. Qed.

Lemma ident_alter (f : Object → Object) h (l : list Object) :
  keeps_ident f → ob_ident <$> alter f h l = ob_ident <$> l.
Proof.
  intros Hf. revert h.
  induction l as [|o l IH]; intros h; destruct h; csimpl; [done..| |].
  - by rewrite Hf.
  - f_equal. apply IH.
Qed.

(** Settles [extends] between a state and the same state after updates
    that were unfolded down to the record. *)
Ltac extends_tac :=
  split; cbn;
  [ first [reflexivity | done]
  | repeat first [ rewrite ident_alter by (intros ?; reflexivity)
                 | rewrite fmap_app ];
    rewrite <-?app_assoc;
    first [reflexivity | apply prefix_app_r; reflexivity] ].

Lemma for_each_extends {A} (body : A → State → result State) l s s' :
  (∀ a s s', a ∈ l → body a s = Ok s' → extends s s') →
  for_each body l s = Ok s' → extends s s'.
Proof.
  intros Hbody. apply (for_each_inv body (extends s)); [|done].
  intros a s1 s2 Ha Hs1 Hb. etrans; [done|]. by eapply Hbody.
Qed.

(** *** The mesh cache *)

Lemma write_mesh_data_cached cfg entities name default_material s me alpha :
  component_meshes s !! (name, default_material) = Some (me, alpha) →
  write_mesh_data cfg entities name default_material s
  = Ok ((Some me, alpha), s).
Proof. intros H. unfold write_mesh_data. by rewrite H. Qed.

(** A call that returns a mesh leaves it in the cache under its key; a call
    that returns none leaves the state alone. *)
Lemma write_mesh_data_result cfg entities name default_material s r s' :
  write_mesh_data cfg entities name default_material s = Ok (r, s') →
  extends s s'
  ∧ match r.1 with
    | Some me =>
        component_meshes s' !! (name, default_material) = Some (me, r.2)
    | None => s' = s
    end.
Proof.
  unfold write_mesh_data.
  destruct (component_meshes s !! (name, default_material))
    as [[me alpha]|] eqn:Hc.
  { intros; simplify_eq. by split. }
  destruct (for_each _ _ _) as [acc| |]; cbn; try done.
  case_decide; [intros; simplify_eq; by split|].
  destruct (for_each _ _ _) as [slots| |]; cbn; try done.
  intros; simplify_eq. cbn. split.
  - split; [|done]. cbn. by apply insert_subseteq.
  - apply lookup_insert_eq.
Qed.

Lemma write_mesh_data_extends cfg entities name default_material s r s' :
  write_mesh_data cfg entities name default_material s = Ok (r, s') →
  extends s s'.
Proof. intros H. by apply write_mesh_data_result in H as [? _]. Qed.

Lemma write_node_extends name parent_transform me alpha nested_count s :
  extends s (write_node name parent_transform me alpha nested_count s).2.
Proof.
  unfold write_node. case_match.
  - destruct (alpha_is_partial alpha); extends_tac.
  - destruct me, (alpha_is_partial alpha); extends_tac.
Qed.

Lemma nest_node_extends ob parent_transform parent_name parent_location
    nested_count hide_empty s s' :
  nest_node ob parent_transform parent_name parent_location nested_count
    hide_empty s = Ok s' →
  extends s s'.
Proof.
  unfold nest_node. destruct parent_name as [pn|]; cbn.
  - case_decide; cbn.
    + intros; simplify_eq. case_bool_decide; extends_tac.
    + destruct (objects_getitem pn s) as [p| |]; cbn; try done.
      intros; simplify_eq. case_bool_decide; extends_tac.
  - intros; simplify_eq. case_bool_decide; extends_tac.
Qed.

Lemma write_entities_extends fuel cfg entities name parent_transform
    default_material etype parent_name parent_location s s' :
  write_entities fuel cfg entities name parent_transform default_material
    etype parent_name parent_location s = Ok s' →
  extends s s'.
Proof.
  revert entities name parent_transform default_material etype parent_name
    parent_location s s'.
  induction fuel as [|fuel IH]; intros entities name parent_transform
    default_material etype parent_name parent_location s s'; [done|].
  cbn [write_entities]. case_match.
  { intros; simplify_eq. by split. }
  destruct (write_mesh_data _ _ _ _ _) as [[[me alpha] s1]| |] eqn:Hmesh;
    cbn; try done.
  apply write_mesh_data_extends in Hmesh.
  pose proof (write_node_extends name parent_transform me alpha
                (length (e_groups entities) + length (e_instances entities))
                s1) as Hnode.
  destruct (write_node _ _ _ _ _ _) as [[ob hide_empty] s2]. cbn in Hnode.
  destruct (nest_node _ _ _ _ _ _ _) as [s3| |] eqn:Hnest; cbn; try done.
  apply nest_node_extends in Hnest.
  destruct (for_each _ (e_groups entities) _) as [s4| |] eqn:Hgroups;
    cbn; try done.
  intros Hinstances.
  etrans; [done|]. etrans; [done|]. etrans; [done|]. etrans.
  - eapply for_each_extends; [|done].
    intros group sa sb _. unfold write_group_child.
    destruct (g_hidden group); [intros; simplify_eq; reflexivity|].
    destruct (layer_skipped _ _); [intros; simplify_eq; reflexivity|].
    cbn. intros Hrec%IH. etrans; [|done]. extends_tac.
  - eapply for_each_extends; [|done].
    intros instance sa sb _. unfold write_instance_child.
    destruct (i_hidden instance); [intros; simplify_eq; reflexivity|].
    destruct (layer_skipped _ _); [intros; simplify_eq; reflexivity|].
    destruct (lookup_component _ _) as [cdef| |]; cbn; try done.
    apply IH.
Qed.

(** *** Writing a definition as a group *)

#[local] Instance group_frame_refl : Reflexive group_frame.
Proof. intros s. by split. Qed.

#[local] Instance group_frame_trans : Transitive group_frame.
Proof.
  intros s1 s2 s3 (? & ? & ? & ? & ?) (? & ? & ? & ? & ?).
  split; [by etrans|]. split_and!; congruence.
Qed.

Lemma coll_names_link g h (l : list Collection) :
  coll_name <$>
    alter (fun c => mkCollection (coll_name c) (coll_objects c ++ [h])) g l
  = coll_name <$> l.
Proof.
  revert g. induction l as [|c l IH]; intros g; destruct g; csimpl;
    [done..|]. f_equal. apply IH.
Qed.

Ltac group_frame_tac :=
  split; [extends_tac|]; cbn; rewrite ?coll_names_link; done.

Lemma for_each_group_frame {A} (body : A → State → result State) l s s' :
  (∀ a s s', a ∈ l → body a s = Ok s' → group_frame s s') →
  for_each body l s = Ok s' → group_frame s s'.
Proof.
  intros Hbody. apply (for_each_inv body (group_frame s)); [|done].
  intros a s1 s2 Ha Hs1 Hb. etrans; [done|]. by eapply Hbody.
Qed.

Lemma write_mesh_data_group_frame cfg entities name default_material s r s' :
  write_mesh_data cfg entities name default_material s = Ok (r, s') →
  group_frame s s'.
Proof.
  intros H. split; [by eapply write_mesh_data_extends|]. revert H.
  unfold write_mesh_data.
  destruct (component_meshes s !! (name, default_material))
    as [[me alpha]|] eqn:Hc.
  { intros; by simplify_eq. }
  destruct (for_each _ _ _) as [acc| |]; cbn; try done.
  case_decide; [intros; by simplify_eq|].
  destruct (for_each _ _ _) as [slots| |]; cbn; try done.
  intros; by simplify_eq.
Qed.

Lemma instance_object_or_group_frame name default_material s ob s' :
  instance_object_or_group name default_material s = Ok (ob, s') →
  group_frame s s'.
Proof.
  unfold instance_object_or_group.
  destruct (group_written s !! _) as [g|].
  - cbn. intros; simplify_eq. group_frame_tac.
  - destruct (component_meshes s !! _) as [[me alpha]|]; [|done].
    destruct alpha; cbn; intros; simplify_eq; group_frame_tac.
Qed.

Lemma component_def_as_group_frame fuel cfg entities name parent_transform
    default_material etype group s s' :
  component_def_as_group fuel cfg entities name parent_transform
    default_material etype group s = Ok s' →
  (etype = Some ET_outer
   ∧ is_Some (component_skip s !! (name, default_material)) ∧ s' = s)
  ∨ group_frame (mark_outer etype (name, default_material) s) s'.
Proof.
  revert entities name parent_transform default_material etype s s'.
  induction fuel as [|fuel IH]; intros entities name parent_transform
    default_material etype s s'; [done|].
  cbn [component_def_as_group]. fold (mark_outer etype (name, default_material) s).
  destruct (bool_decide (etype = Some ET_outer) && key_skipped _ s) eqn:Hout.
  { intros; simplify_eq. left.
    apply andb_true_iff in Hout as [?%bool_decide_eq_true ?%bool_decide_eq_true].
    done. }
  intros Hrun. right. revert Hrun. set (s0 := mark_outer _ _ s) in *.
  destruct (bool_decide (etype = Some ET_component) && key_skipped _ s0).
  { destruct (instance_object_or_group _ _ _) as [[ob s1]| |] eqn:Hob;
      cbn; try done.
    apply instance_object_or_group_frame in Hob.
    intros; simplify_eq. etrans; [done|]. group_frame_tac. }
  destruct (write_mesh_data _ _ _ _ _) as [[[me alpha] s1]| |] eqn:Hmesh;
    cbn; try done.
  apply write_mesh_data_group_frame in Hmesh.
  match goal with
  | |- context [for_each _ (e_groups entities) ?st] =>
      assert (group_frame s1 st) as Hob
  end.
  { destruct me, alpha; group_frame_tac. }
  destruct (for_each _ (e_groups entities) _) as [s3| |] eqn:Hgroups;
    cbn; try done.
  intros Hinstances.
  assert (∀ e n pt dm et sa sb,
            et ≠ Some ET_outer →
            component_def_as_group fuel cfg e n pt dm et group sa = Ok sb →
            group_frame sa sb) as IH'.
  { intros e n pt dm et sa sb Het Hrun.
    apply IH in Hrun as [(? & _)|Hrun]; [done|].
    unfold mark_outer in Hrun. by rewrite bool_decide_eq_false_2 in Hrun. }
  etrans; [done|]. etrans; [done|]. etrans.
  - eapply for_each_group_frame; [|done].
    intros g sa sb _. cbv beta. destruct (layer_skipped _ _).
    + intros; simplify_eq. reflexivity.
    + by apply IH'.
  - eapply for_each_group_frame; [|done].
    intros instance sa sb _. cbv beta. destruct (layer_skipped _ _).
    + intros; simplify_eq. reflexivity.
    + destruct (lookup_component _ _) as [cdef| |]; cbn; try done.
      by apply IH'.
Qed.

Lemma component_def_as_group_extends fuel cfg entities name parent_transform
    default_material etype group s s' :
  component_def_as_group fuel cfg entities name parent_transform
    default_material etype group s = Ok s' →
  extends s s'.
Proof.
  intros [(_ & _ & ->)|[Hext _]]%component_def_as_group_frame; [done|].
  etrans; [|done]. unfold mark_outer. case_bool_decide; by split.
Qed.

Lemma write_group_extends fuel cfg i kv s s' :
  write_group fuel cfg i kv s = Ok s' → extends s s'.
Proof.
  unfold write_group. destruct kv as [[name mat] v]; cbn.
  destruct (component_depth cfg !! name) as [depth|]; cbn; [|done].
  destruct (lookup_component cfg name) as [comp_def| |]; cbn; try done.
  case_decide; [intros; by simplify_eq|].
  case_decide; [|intros; by simplify_eq].
  destruct (if reuse_group cfg then _ else _) as [existing|].
  { intros; simplify_eq. by split. }
  destruct (component_def_as_group _ _ _ _ _ _ _ _ _) as [s1| |] eqn:Hrun;
    cbn; try done.
  apply component_def_as_group_extends in Hrun.
  intros; simplify_eq. etrans; [|etrans; [done|]]; by split.
Qed.

Lemma write_duplicateable_groups_extends fuel cfg s s' :
  write_duplicateable_groups fuel cfg s = Ok s' → extends s s'.
Proof.
  unfold write_duplicateable_groups.
  destruct (analyze_entities _ _ _ _ _ _ _ _ _) as [stats| |]; cbn; try done.
  apply for_each_extends. intros i sa sb _.
  apply for_each_extends. intros kv sc sd _. apply write_group_extends.
Qed.

Lemma instance_group_dupli_vert_extends name default_material
    (stats : Stats) s s' :
  instance_group_dupli_vert name default_material stats s = Ok s' →
  extends s s'.
Proof.
  apply for_each_extends. intros [[scale rot] locs] sa sb _.
  unfold write_dupli_vert. destruct locs as [|main_loc locs]; [done|]. cbn.
  destruct (instance_object_or_group _ _ _) as [[ob s1]| |] eqn:Hob;
    cbn; try done.
  apply instance_object_or_group_frame in Hob as [Hob _].
  intros; simplify_eq. etrans; [|etrans; [done|]]; extends_tac.
Qed.

Lemma write_camera_extends cfg camera name s :
  extends s (write_camera cfg camera name s).2.
Proof.
  unfold write_camera. destruct (sc_orientation camera) as [[pos target] up].
  destruct (eq_False (sc_fov camera)); (split; cbn; [done|]).
  all: rewrite !alter_app_r_alt by done; rewrite fmap_app;
    by apply prefix_app_r.
Qed.

Lemma session_step_extends cfg s s' : session_step cfg s s' → extends s s'.
Proof.
  destruct 1; eauto using write_mesh_data_extends, write_entities_extends,
    component_def_as_group_extends, write_duplicateable_groups_extends,
    instance_group_dupli_vert_extends, write_camera_extends.
Qed.

Lemma session_extends cfg s s' : rtc (session_step cfg) s s' → extends s s'.
Proof.
  induction 1 as [|s1 s2 s3 Hstep _ IH]; [done|].
  etrans; [|done]. by eapply session_step_extends.
Qed.

(** C4. Once [write_mesh_data] has returned a mesh for a key (name,
    default material), every later call of the session with that key,
    whatever entities it is given and whatever the importer did in
    between, returns the same mesh handle and alpha from the cache and
    leaves the state untouched: no mesh is built again. *)
Theorem write_mesh_data_idempotent cfg entities name default_material
    s0 me alpha s1 s2 entities' :
  write_mesh_data cfg entities name default_material s0
  = Ok ((Some me, alpha), s1) →
  rtc (session_step cfg) s1 s2 →
  write_mesh_data cfg entities' name default_material s2
  = Ok ((Some me, alpha), s2).
Proof.
  intros [_ Hcached]%write_mesh_data_result [Hcache _]%session_extends.
  apply write_mesh_data_cached. cbn in Hcached.
  by eapply lookup_weaken.
Qed.

(** ** The analysis pass records every occurrence *)

Lemma analyze_group_layer_skipped rec cfg transform default_material group
    (st : Stats) :
  layer_skipped cfg (g_layer group) = true →
  analyze_group rec cfg transform default_material group st = Ok st.
Proof. intros H. unfold analyze_group. by rewrite H. Qed.

Lemma analyze_instance_layer_skipped rec cfg transform default_material
    component_skip instance (st : Stats) :
  layer_skipped cfg (i_layer instance) = true →
  analyze_instance rec cfg transform default_material component_skip
    instance st = Ok st.
Proof. intros H. unfold analyze_instance. by rewrite H. Qed.

Lemma analyze_group_visible rec cfg transform default_material group
    (st : Stats) :
  layer_skipped cfg (g_layer group) = false →
  analyze_group rec cfg transform default_material group st
  = rec (g_entities group) ("G-" +:+ g_name group)
      (matmul transform (g_transform group))
      (inherent_default_mat (g_material group) default_material)
      ET_group st None.
Proof. intros H. unfold analyze_group. by rewrite H. Qed.

Lemma analyze_instance_visible rec cfg transform default_material instance
    cdef (st : Stats) :
  layer_skipped cfg (i_layer instance) = false →
  skp_components cfg !! i_definition_name instance = Some cdef →
  analyze_instance rec cfg transform default_material [] instance st
  = rec (cd_entities cdef) (cd_name cdef)
      (matmul transform (i_transform instance))
      (inherent_default_mat (i_material instance) default_material)
      ET_component st None.
Proof.
  intros H Hcdef. unfold analyze_instance, lookup_component.
  rewrite H, Hcdef, bind_Ok.
  by rewrite bool_decide_eq_false_2 by apply not_elem_of_nil.
Qed.


Lemma record_occurrences_app (st : Stats) os1 os2 :
  record_occurrences st (os1 ++ os2)
  = record_occurrences (record_occurrences st os1) os2.
Proof. apply foldl_app. Qed.

Lemma record_occurrences_get k (st : Stats) os :
  defaultdict_get k (record_occurrences st os)
  = defaultdict_get k st ++ (filter (fun o => o.1 = k) os).*2.
Proof.
  revert st. induction os as [|[k' t] os IH]; intros st.
  - cbn. by rewrite app_nil_r.
  - change (record_occurrences st ((k', t) :: os))
      with (record_occurrences (defaultdict_append k' t st) os).
    rewrite IH, defaultdict_get_append, filter_cons. cbn [fst].
    case_decide; [|done]. csimpl. by rewrite <-app_assoc.
Qed.

Lemma record_occurrences_NoDup (st : Stats) os :
  NoDup st.*1 → NoDup (record_occurrences st os).*1.
Proof.
  revert st. induction os as [|o os IH]; intros st Hst; cbn; [done|].
  by apply IH, defaultdict_append_NoDup.
Qed.

Lemma record_occurrences_keys k (st : Stats) os :
  k ∈ (record_occurrences st os).*1 ↔ k ∈ st.*1 ∨ k ∈ os.*1.
Proof.
  revert st. induction os as [|[k' t] os IH]; intros st.
  - cbn. split; [by left|]. by intros [?|?%elem_of_nil].
  - change (record_occurrences st ((k', t) :: os))
      with (record_occurrences (defaultdict_append k' t st) os).
    rewrite IH, defaultdict_append_keys, fmap_cons, elem_of_cons. cbn [fst].
    case_decide as Hin.
    + split; [intros [?|?]; auto|].
      intros [?|[->|?]]; auto.
    + rewrite elem_of_app, list_elem_of_singleton.
      split; [intros [[?|?]|?]; auto|]. intros [?|[?|?]]; auto.
Qed.

Lemma analyze_entities_occurrences cfg avoid fuel entities name transform
    default_material etype (st : Stats) :
  tree_ok cfg avoid fuel entities →
  analyze_entities fuel cfg entities name transform default_material etype
    st None
  = Ok (record_occurrences
          (record_own etype name default_material transform st)
          (occurrences fuel cfg entities transform default_material)).
Proof.
  revert entities name transform default_material etype st.
  induction fuel as [|fuel IH];
    intros entities name transform default_material etype st; [done|].
  intros (_ & Hgroups & Hinstances).
  cbn [analyze_entities occurrences]. fold (record_own etype name
    default_material transform st).
  generalize (record_own etype name default_material transform st) as st0.
  intros st0. rewrite record_occurrences_app.
  assert (for_each (analyze_group (analyze_entities fuel cfg) cfg transform
                      default_material) (e_groups entities) st0
          = Ok (record_occurrences st0
                  (flat_map (fun g =>
                      if layer_skipped cfg (g_layer g) then []
                      else occurrences fuel cfg (g_entities g)
                             (matmul transform (g_transform g))
                             (inherent_default_mat (g_material g)
                                default_material))
                     (e_groups entities)))) as ->.
  { revert st0. induction Hgroups as [|g gs Hg _ IHgs]; intros st0; [done|].
    cbn [for_each flat_map]. rewrite record_occurrences_app.
    destruct (layer_skipped cfg (g_layer g)) eqn:Hl.
    - rewrite analyze_group_layer_skipped, bind_Ok by done. apply IHgs.
    - rewrite analyze_group_visible, (IH _ _ _ _ _ _ Hg), bind_Ok by done.
      apply IHgs. }
  rewrite bind_Ok. generalize (record_occurrences st0
    (flat_map (fun g =>
        if layer_skipped cfg (g_layer g) then []
        else occurrences fuel cfg (g_entities g)
               (matmul transform (g_transform g))
               (inherent_default_mat (g_material g) default_material))
       (e_groups entities))) as st1.
  induction Hinstances as [|i ins (cdef & Hcdef & _ & Hi) _ IHins];
    intros st1; [done|].
  cbn [for_each flat_map]. rewrite record_occurrences_app.
  destruct (layer_skipped cfg (i_layer i)) eqn:Hl.
  - rewrite analyze_instance_layer_skipped, bind_Ok by done. apply IHins.
  - rewrite (analyze_instance_visible _ _ _ _ _ cdef) by done.
    rewrite Hcdef, (IH _ _ _ _ _ _ Hi), bind_Ok. unfold record_own.
    rewrite decide_True by done. apply IHins.
Qed.

Lemma elem_of_flat_map {A B} (f : A → list B) (l : list A) (b : B) :
  b ∈ flat_map f l ↔ ∃ a, a ∈ l ∧ b ∈ f a.
Proof.
  induction l as [|a l IH]; cbn.
  - split; [intros []%elem_of_nil|intros (? & []%elem_of_nil & _)].
  - rewrite elem_of_app, IH. setoid_rewrite elem_of_cons. split.
    + intros [?|(a' & ? & ?)]; eauto.
    + intros (a' & [->|?] & ?); eauto.
Qed.

(** A recorded occurrence is in the list of its key. *)
Lemma record_occurrences_elem_of (st : Stats) os k t :
  (k, t) ∈ os → t ∈ defaultdict_get k (record_occurrences st os).
Proof.
  intros Hin. rewrite record_occurrences_get. apply elem_of_app. right.
  apply list_elem_of_fmap. exists (k, t). split; [done|].
  by apply list_elem_of_filter.
Qed.

(** The list of occurrences holds exactly what occurs. *)
Lemma occurrences_occurs n cfg entities transform default_material k t :
  (k, t) ∈ occurrences n cfg entities transform default_material →
  occurs cfg entities transform default_material k t.
Proof.
  revert entities transform default_material.
  induction n as [|n IH]; intros entities transform default_material;
    cbn [occurrences]; [by intros ?%elem_of_nil|].
  intros [Ho|Ho]%elem_of_app; apply elem_of_flat_map in Ho as (x & Hx & Ho).
  - destruct (layer_skipped cfg (g_layer x)) eqn:Hlayer;
      [by apply elem_of_nil in Ho|].
    eapply occurs_below_group; [done..|]. by apply IH.
  - destruct (layer_skipped cfg (i_layer x)) eqn:Hlayer;
      [by apply elem_of_nil in Ho|].
    destruct (skp_components cfg !! i_definition_name x) as [cdef|] eqn:Hcdef;
      [|by apply elem_of_nil in Ho].
    apply elem_of_cons in Ho as [Ho|Ho].
    + simplify_eq. by apply occurs_instance.
    + eapply occurs_below_instance; [done..|]. by apply IH.
Qed.

Lemma occurs_occurrences n cfg avoid entities transform default_material k t :
  tree_ok cfg avoid n entities →
  occurs cfg entities transform default_material k t →
  (k, t) ∈ occurrences n cfg entities transform default_material.
Proof.
  intros Hok Hoccurs. revert n Hok.
  induction Hoccurs as [e t dm i cdef Hi Hlayer Hcdef
                       |e t dm i cdef k t' Hi Hlayer Hcdef _ IH
                       |e t dm g k t' Hg Hlayer _ IH];
    intros [|n]; [done| |done| |done|]; intros (_ & Hgroups & Hinstances);
    cbn [occurrences]; apply elem_of_app.
  - right. apply elem_of_flat_map. exists i. split; [done|].
    rewrite Hlayer, Hcdef. by left.
  - right. apply elem_of_flat_map. exists i. split; [done|].
    rewrite Hlayer, Hcdef. right. apply IH.
    rewrite Forall_forall in Hinstances.
    destruct (Hinstances i Hi) as (cdef' & Hcdef' & _ & Hok). congruence.
  - left. apply elem_of_flat_map. exists g. split; [done|].
    rewrite Hlayer. apply IH. rewrite Forall_forall in Hgroups.
    by apply Hgroups.
Qed.

(** C7. The analysis never stops at a component that is already skipped.
    A call of [analyze_entities] without a [component_skip] argument, which
    is how [write_duplicateable_groups] calls it and how it calls itself,
    compares every instance against the empty list: its round for an
    instance only tests the layer. On a model whose definitions are all
    present and do not nest in a cycle, the analysis that
    [write_duplicateable_groups] starts returns, and the list it holds for
    a key is the list of all occurrences of that key outside hidden layers,
    in traversal order, one entry per occurrence: a transform is in the
    list of a key exactly when a component instance with that key occurs at
    that transform. The same holds for every nested call. *)
Theorem analysis_counts_every_occurrence fuel cfg :
  tree_ok cfg None fuel (model_entities cfg) →
  (∀ rec transform default_material instance (st : Stats),
     analyze_instance rec cfg transform default_material (default [] None)
       instance st
     = if layer_skipped cfg (i_layer instance) then Ok st
       else cdef ← lookup_component cfg (i_definition_name instance);
            rec (cd_entities cdef) (cd_name cdef)
              (matmul transform (i_transform instance))
              (inherent_default_mat (i_material instance) default_material)
              ET_component st None)
  ∧ (∃ stats,
       analyze_entities fuel cfg (model_entities cfg) "Sketchup" mat_identity
         "Material" ET_none [] None = Ok stats
       ∧ (∀ k, defaultdict_get k stats
               = (filter (fun o => o.1 = k)
                    (occurrences fuel cfg (model_entities cfg) mat_identity
                       "Material")).*2)
       ∧ (∀ k t, t ∈ defaultdict_get k stats
                 ↔ occurs cfg (model_entities cfg) mat_identity "Material"
                     k t))
  ∧ (∀ n entities name transform default_material etype (st : Stats),
       tree_ok cfg None n entities →
       analyze_entities n cfg entities name transform default_material etype
         st None
       = Ok (record_occurrences
               (record_own etype name default_material transform st)
               (occurrences n cfg entities transform default_material))).
Proof.
  intros Hok. split_and!.
  - intros rec transform default_material instance st.
    unfold analyze_instance. destruct (layer_skipped _ _); [done|].
    destruct (lookup_component _ _) as [cdef| |]; [|done..].
    rewrite !bind_Ok. cbn [default].
    by rewrite bool_decide_eq_false_2 by apply not_elem_of_nil.
  - eexists.
    split; [by apply analyze_entities_occurrences with (avoid := None)|].
    split; intros k; [by rewrite record_occurrences_get|].
    intros t. rewrite record_occurrences_get. cbn. split.
    + intros ([k' t'] & -> & [Hk Ho]%list_elem_of_filter)%list_elem_of_fmap.
      cbn in Hk. subst k'. by eapply occurrences_occurs.
    + intros Ho%(occurs_occurrences fuel cfg None); [|done].
      apply (list_elem_of_fmap_2 snd _ (k, t)).
      by apply list_elem_of_filter.
  - intros. by apply analyze_entities_occurrences with (avoid := None).
Qed.

(** ** Hidden layers and hidden flags *)

Lemma write_group_child_layer_skipped rec cfg parent_transform
    default_material ob nested_location group s :
  layer_skipped cfg (g_layer group) = true →
  write_group_child rec cfg parent_transform default_material ob
    nested_location group s = Ok s.
Proof. intros H. unfold write_group_child. rewrite H. by case_match. Qed.

Lemma write_instance_child_layer_skipped rec cfg parent_transform
    default_material ob nested_location instance s :
  layer_skipped cfg (i_layer instance) = true →
  write_instance_child rec cfg parent_transform default_material ob
    nested_location instance s = Ok s.
Proof. intros H. unfold write_instance_child. rewrite H. by case_match. Qed.

(** C6. A group or instance on a hidden layer leaves no trace. The
    analysis of any entities returns exactly what it returns on the
    entities with the hidden-layer groups and instances removed, so neither
    they nor anything beneath them add an entry to [component_stats]. In
    the write pass the round of the loop for such a group or instance
    returns the state it was given: no object is created for it, and the
    pass does not descend into it. Hence the loops of the write pass over
    the groups and the instances do what they do on the visible ones
    alone, and a call of [write_entities] returns what it returns once
    every hidden-layer group is emptied and every hidden-layer instance
    refers to no definition. *)
Theorem hidden_layer_filtering cfg :
  (∀ fuel entities name transform default_material etype (st : Stats)
     component_skip,
     analyze_entities fuel cfg entities name transform default_material
       etype st component_skip
     = analyze_entities fuel cfg (prune_layers cfg entities) name transform
         default_material etype st component_skip)
  ∧ (∀ rec parent_transform default_material ob nested_location s,
       (∀ group, layer_skipped cfg (g_layer group) = true →
          write_group_child rec cfg parent_transform default_material ob
            nested_location group s = Ok s)
       ∧ (∀ instance, layer_skipped cfg (i_layer instance) = true →
            write_instance_child rec cfg parent_transform default_material
              ob nested_location instance s = Ok s)
       ∧ (∀ entities,
            for_each (write_group_child rec cfg parent_transform
                        default_material ob nested_location)
              (e_groups entities) s
            = for_each (write_group_child rec cfg parent_transform
                          default_material ob nested_location)
                (e_groups (prune_layers cfg entities)) s)
       ∧ (∀ entities,
            for_each (write_instance_child rec cfg parent_transform
                        default_material ob nested_location)
              (e_instances entities) s
            = for_each (write_instance_child rec cfg parent_transform
                          default_material ob nested_location)
                (e_instances (prune_layers cfg entities)) s))
  ∧ (∀ fuel entities name parent_transform default_material etype
       parent_name parent_location s,
       write_entities fuel cfg entities name parent_transform
         default_material etype parent_name parent_location s
       = write_entities fuel cfg (blank_layers cfg entities) name
           parent_transform default_material etype parent_name
           parent_location s).
Proof.
  split_and!.
  - intros [|fuel] entities name transform default_material etype st
      component_skip; [done|].
    cbn [analyze_entities prune_layers e_groups e_instances].
    rewrite <-for_each_filter.
    2:{ intros g s _ Hg. apply analyze_group_layer_skipped.
        by destruct (layer_skipped cfg (g_layer g)). }
    destruct (for_each _ _ _) as [st1| |]; cbn; try done.
    apply for_each_filter. intros i s _ Hi.
    apply analyze_instance_layer_skipped.
    by destruct (layer_skipped cfg (i_layer i)).
  - intros rec parent_transform default_material ob nested_location s.
    split_and!.
    + intros. by apply write_group_child_layer_skipped.
    + intros. by apply write_instance_child_layer_skipped.
    + intros entities. cbn [prune_layers e_groups].
      apply for_each_filter. intros g s' _ Hg.
      apply write_group_child_layer_skipped.
      by destruct (layer_skipped cfg (g_layer g)).
    + intros entities. cbn [prune_layers e_instances].
      apply for_each_filter. intros i s' _ Hi.
      apply write_instance_child_layer_skipped.
      by destruct (layer_skipped cfg (i_layer i)).
  - intros [|fuel] entities name parent_transform default_material etype
      parent_name parent_location s; [done|].
    cbn [write_entities]. destruct (_ && _); [done|].
    change (write_mesh_data cfg (blank_layers cfg entities))
      with (write_mesh_data cfg entities).
    cbn [blank_layers e_groups e_instances]. rewrite !length_fmap.
    destruct (write_mesh_data _ _ _ _ _) as [[[me alpha] s1]| |]; [|done..].
    rewrite !bind_Ok.
    destruct (write_node _ _ _ _ _ _) as [[ob hide_empty] s2].
    destruct (nest_node _ _ _ _ _ _ _) as [s3| |]; [|done..].
    rewrite !bind_Ok, !for_each_fmap.
    rewrite (for_each_ext
               (fun a => write_group_child (write_entities fuel cfg) cfg
                           parent_transform default_material ob
                           (translation_of parent_transform)
                           (blank_group cfg a))
               (write_group_child (write_entities fuel cfg) cfg
                  parent_transform default_material ob
                  (translation_of parent_transform))).
    2:{ intros g s' _. unfold blank_group.
        destruct (layer_skipped cfg (g_layer g)) eqn:Hg; [|done].
        unfold write_group_child. cbn [g_hidden g_layer]. rewrite Hg.
        by destruct (g_hidden g). }
    destruct (for_each _ (e_groups entities) s3) as [s4| |]; [|done..].
    rewrite !bind_Ok, for_each_fmap. apply for_each_ext.
    intros i s' _. unfold blank_instance.
    destruct (layer_skipped cfg (i_layer i)) eqn:Hi; [|done].
    unfold write_instance_child. cbn [i_hidden i_layer]. rewrite Hi.
    by destruct (i_hidden i).
Qed.

(** C10. The hidden flag of a group or instance is read by the write
    pass only. The rounds of the analysis do not depend on it. On
    well-formed entities the analysis returns, and for every instance that
    is flagged hidden but is not on a hidden layer the returned statistics
    hold its composed transform under (definition name, effective
    material); for every such group they hold every component occurrence
    beneath it.
    In the write pass the round for a hidden group or instance returns the
    state unchanged, so no object is made for it. *)
Theorem hidden_flag_asymmetry fuel cfg avoid entities name transform
    default_material etype (st : Stats) :
  tree_ok cfg avoid fuel entities →
  (∀ rec t dm sk b g i (st0 : Stats),
     analyze_group rec cfg t dm (set_g_hidden b g) st0
     = analyze_group rec cfg t dm g st0
     ∧ analyze_instance rec cfg t dm sk (set_i_hidden b i) st0
       = analyze_instance rec cfg t dm sk i st0)
  ∧ (∃ st',
       analyze_entities fuel cfg entities name transform default_material
         etype st None = Ok st'
       ∧ (∀ i, i ∈ e_instances entities → i_hidden i = true →
            layer_skipped cfg (i_layer i) = false →
            ∃ cdef,
              skp_components cfg !! i_definition_name i = Some cdef
              ∧ matmul transform (i_transform i)
                ∈ defaultdict_get
                    (cd_name cdef,
                     inherent_default_mat (i_material i) default_material)
                    st')
       ∧ (∀ g k t, g ∈ e_groups entities → g_hidden g = true →
            layer_skipped cfg (g_layer g) = false →
            occurs cfg (g_entities g) (matmul transform (g_transform g))
              (inherent_default_mat (g_material g) default_material) k t →
            t ∈ defaultdict_get k st'))
  ∧ (∀ rec parent_transform dm ob nested_location s,
       (∀ g, g_hidden g = true →
          write_group_child rec cfg parent_transform dm ob nested_location
            g s = Ok s)
       ∧ (∀ i, i_hidden i = true →
            write_instance_child rec cfg parent_transform dm ob
              nested_location i s = Ok s)).
Proof.
  intros Hok. split_and!.
  - intros. by split.
  - eexists. split; [by eapply analyze_entities_occurrences|].
    destruct fuel as [|fuel]; [done|]. destruct Hok as (_ & Hgroups & Hins).
    split.
    + intros i Hi _ Hlayer.
      rewrite Forall_forall in Hins.
      destruct (Hins i Hi) as (cdef & Hcdef & _). exists cdef.
      split; [done|]. apply record_occurrences_elem_of.
      cbn [occurrences]. apply elem_of_app. right.
      apply elem_of_flat_map. exists i. split; [done|].
      rewrite Hlayer, Hcdef. by left.
    + intros g k t Hg _ Hlayer Ho. apply record_occurrences_elem_of.
      cbn [occurrences]. apply elem_of_app. left.
      apply elem_of_flat_map. exists g. split; [done|]. rewrite Hlayer.
      rewrite Forall_forall in Hgroups.
      by eapply occurs_occurrences; [apply Hgroups|].
  - intros. split.
    + intros g Hg. unfold write_group_child. by rewrite Hg.
    + intros i Hi. unfold write_instance_child. by rewrite Hi.
Qed.

(** ** Building a mesh never raises on well-formed faces *)

Lemma getitem_lt {A} e (l : list A) i :
  i < length l → ∃ a, getitem e l i = Ok a.
Proof.
  intros [a Ha]%lookup_lt_is_Some. exists a. unfold getitem. by rewrite Ha.
Qed.

Lemma enumerate_zip_length vs i uvs seen verts mapping :
  vs = [] ∨ i < length uvs →
  ∃ uvs' seen' verts' mapping',
    enumerate_zip vs i uvs seen verts mapping
    = (uvs', seen', verts', mapping')
    ∧ length mapping' = length mapping + length vs
    ∧ length uvs' = length uvs + length vs.
Proof.
  revert i uvs seen verts mapping.
  induction vs as [|v vs IH]; intros i uvs seen verts mapping Hi.
  - eexists _, _, _, _. split; [done|]. cbn. lia.
  - destruct Hi as [?|Hi]; [done|]. cbn [enumerate_zip].
    destruct (lookup_lt_is_Some_2 uvs i Hi) as [uv ->].
    destruct (keep_offset_getitem v seen) as [idx seen'].
    edestruct (IH (S i) (uvs ++ [uv])) as (u & sn & vt & mp & -> & Hm & Hu).
    { right. rewrite length_app. cbn. lia. }
    eexists _, _, _, _. split; [done|].
    rewrite length_app in Hm, Hu. cbn in *. lia.
Qed.

Lemma write_triangle_total mapping uvs smooth_edge mat_number f0 f1 f2 acc :
  f0 < length mapping → f1 < length mapping → f2 < length mapping →
  length mapping ≤ length uvs →
  ∃ acc',
    write_triangle mapping uvs smooth_edge mat_number (f0, f1, f2) acc
    = Ok acc'
    ∧ verts acc' = verts acc.
Proof.
  intros H0 H1 H2 Hlen. unfold write_triangle.
  destruct (getitem_lt KeyError mapping f0 H0) as [m0 Hm0].
  destruct (getitem_lt KeyError mapping f1 H1) as [m1 Hm1].
  destruct (getitem_lt KeyError mapping f2 H2) as [m2 Hm2].
  destruct (getitem_lt IndexError uvs f0 ltac:(lia)) as [u0 Hu0].
  destruct (getitem_lt IndexError uvs f1 ltac:(lia)) as [u1 Hu1].
  destruct (getitem_lt IndexError uvs f2 ltac:(lia)) as [u2 Hu2].
  rewrite Hm2, bind_Ok. case_decide.
  - rewrite Hm2, Hm0, Hm1, Hu2, Hu0, Hu1, !bind_Ok. by eexists.
  - rewrite Hm0, Hm1, Hm2, Hu0, Hu1, Hu2, !bind_Ok. by eexists.
Qed.

Lemma write_face_total cfg default_material f acc :
  face_ok f →
  ∃ acc',
    write_face cfg default_material f acc = Ok acc'
    ∧ (tess_vs (f_tessfaces f (face_st_scale cfg default_material f)) = [] →
       verts acc' = verts acc).
Proof.
  intros Hok. unfold write_face.
  destruct (keep_offset_getitem _ (mats acc)) as [mat_number mats'].
  specialize (Hok (face_st_scale cfg default_material f)).
  destruct Hok as [Huv Htri].
  set (t := f_tessfaces f (face_st_scale cfg default_material f)) in *.
  destruct (enumerate_zip_length (tess_vs t) 0 (tess_uvs t) (seen acc)
              (verts acc) [])
    as (uvs & seen' & verts' & mapping & Hzip & Hm & Hu).
  { destruct (tess_vs t); [by left|right]. rewrite Huv. cbn. lia. }
  rewrite Hzip. cbn in Hm.
  match goal with
  | |- context [for_each ?body (tess_tri t) ?a0] =>
      destruct (for_each_total body (fun a => verts a = verts') (tess_tri t)
                  a0) as (acc' & Hrun & Hverts); [|done|]
  end.
  - intros [[f0 f1] f2] a Hin Ha.
    rewrite Forall_forall in Htri. destruct (Htri _ Hin) as (? & ? & ?).
    destruct (write_triangle_total mapping uvs
                (existsb id (f_edges_smooth f)) mat_number f0 f1 f2 a)
      as (a' & -> & Ha'); [lia..|].
    exists a'. split; [done|congruence].
  - exists acc'. split; [done|]. intros Hnil. rewrite Hverts.
    rewrite Hnil in Hzip. cbn in Hzip. by simplify_eq.
Qed.

Lemma mesh_materials_total cfg (ks : list string) acc :
  is_Some (materials cfg !! "Material") →
  ∃ slots, for_each (mesh_material cfg) ks acc = Ok slots.
Proof.
  intros [bmat0 Hm].
  destruct (for_each_total (mesh_material cfg) (fun _ => True) ks acc)
    as (slots & ? & _); [|done|by exists slots].
  intros k a _ _. unfold mesh_material. rewrite Hm.
  destruct (materials cfg !! k); rewrite bind_Ok; by eexists.
Qed.

Lemma write_mesh_data_total cfg entities name default_material s :
  Forall face_ok (e_faces entities) →
  is_Some (materials cfg !! "Material") →
  ∃ r s', write_mesh_data cfg entities name default_material s = Ok (r, s').
Proof.
  intros Hfaces Hmat. unfold write_mesh_data.
  destruct (component_meshes s !! _) as [[me alpha]|]; [by eexists _, _|].
  edestruct (for_each_total (write_face cfg default_material)
               (fun _ => True) (e_faces entities)) as (acc & -> & _);
    [|done|].
  { intros f a Hf _. rewrite Forall_forall in Hfaces.
    destruct (write_face_total cfg default_material f a (Hfaces f Hf))
      as (a' & -> & _). by exists a'. }
  rewrite bind_Ok. case_decide; [by eexists _, _|].
  destruct (mesh_materials_total cfg (mats acc) ([], false) Hmat)
    as [slots ->].
  rewrite bind_Ok. by eexists _, _.
Qed.

(** Faces without vertices: the builder returns no mesh and changes
    nothing. *)
Lemma write_mesh_data_empty cfg entities name default_material s :
  Forall face_ok (e_faces entities) →
  Forall (fun f => ∀ scale, tess_vs (f_tessfaces f scale) = [])
    (e_faces entities) →
  component_meshes s !! (name, default_material) = None →
  write_mesh_data cfg entities name default_material s = Ok ((None, false), s).
Proof.
  intros Hfaces Hempty Hmiss. unfold write_mesh_data. rewrite Hmiss.
  edestruct (for_each_total (write_face cfg default_material)
               (fun a => verts a = []) (e_faces entities))
    as (acc & -> & Hverts); [|done|].
  { intros f a Hf Ha. rewrite Forall_forall in Hfaces, Hempty.
    destruct (write_face_total cfg default_material f a (Hfaces f Hf))
      as (a' & -> & Ha').
    exists a'. split; [done|]. rewrite Ha' by apply (Hempty f Hf). done. }
  rewrite bind_Ok, Hverts. by rewrite decide_True.
Qed.

(** ** The write pass returns on well-formed entities *)

Lemma find_name_elem_of {A} (nm : A → string) name (l : list A) :
  name ∈ nm <$> l → is_Some (find_name nm name l).
Proof.
  induction l as [|a l IH]; csimpl; [by intros ?%elem_of_nil|].
  intros Hin. case_decide as Ha; [by eexists|].
  apply elem_of_cons in Hin as [?|Hin]; [done|].
  destruct (IH Hin) as [h ->]. by eexists.
Qed.

Lemma find_name_lookup {A} (nm : A → string) name (l : list A) h :
  find_name nm name l = Some h → ∃ a, l !! h = Some a ∧ nm a = name.
Proof.
  revert h. induction l as [|a l IH]; intros h; cbn; [done|].
  case_decide as Ha; [intros; simplify_eq; by exists a|].
  destruct (find_name nm name l) as [h'|]; cbn; [|done].
  intros; simplify_eq. by apply IH.
Qed.

Lemma extends_length s s' :
  extends s s' → length (bpy_objects s) ≤ length (bpy_objects s').
Proof.
  intros [_ Hpre%prefix_length]. by rewrite !length_fmap in Hpre.
Qed.

Lemma extends_names s s' :
  extends s s' →
  (ob_name <$> bpy_objects s) `prefix_of` (ob_name <$> bpy_objects s').
Proof.
  intros [_ [k Hk]]. exists (k.*1).
  apply (f_equal (fmap fst)) in Hk.
  by rewrite fmap_app, <-!list_fmap_compose in Hk.
Qed.

Lemma extends_lookup s s' h o :
  extends s s' → bpy_objects s !! h = Some o →
  ∃ o', bpy_objects s' !! h = Some o' ∧ ob_ident o' = ob_ident o.
Proof.
  intros [_ Hpre] Ho.
  assert ((ob_ident <$> bpy_objects s') !! h = Some (ob_ident o)) as Ho'.
  { eapply prefix_lookup_Some; [|done]. by rewrite list_lookup_fmap, Ho. }
  rewrite list_lookup_fmap in Ho'.
  destruct (bpy_objects s' !! h) as [o'|]; [|done].
  exists o'. split; [done|]. cbn in Ho'. congruence.
Qed.

Lemma object_name_elem_of h s :
  h < length (bpy_objects s) → object_name h s ∈ ob_name <$> bpy_objects s.
Proof.
  intros [o Ho]%lookup_lt_is_Some. unfold object_name. rewrite Ho. cbn.
  apply list_elem_of_fmap. exists o. split; [done|].
  by eapply list_elem_of_lookup_2.
Qed.

(** The object [write_node] makes for the node, with no data when the mesh
    is none. *)
Lemma write_node_object name parent_transform me alpha nested_count s :
  ∃ hide_empty s1 o,
    write_node name parent_transform me alpha nested_count s
    = (length (bpy_objects s), hide_empty, s1)
    ∧ extends s s1
    ∧ bpy_objects s1 !! length (bpy_objects s) = Some o
    ∧ ob_name o = unique_name (ob_name <$> bpy_objects s) name
    ∧ (me = None → ob_data o = None).
Proof.
  pose proof (write_node_extends name parent_transform me alpha nested_count
                s) as Hext. revert Hext.
  unfold write_node. case_match.
  - destruct (alpha_is_partial alpha); cbn; intros Hext;
      eexists _, _, _; (split; [reflexivity|]); (split; [done|]); cbn.
    all: rewrite ?list_lookup_alter_eq, lookup_app_r, Nat.sub_diag by done.
    all: cbn; by split_and!.
  - destruct me as [me|], (alpha_is_partial alpha); cbn; intros Hext;
      eexists _, _, _; (split; [reflexivity|]); (split; [done|]); cbn.
    all: rewrite ?list_lookup_alter_ne by (rewrite ?length_alter, ?length_app; cbn; lia).
    all: rewrite ?list_lookup_alter_eq.
    all: rewrite ?lookup_app_l by (rewrite ?length_alter, ?length_app; cbn; lia).
    all: rewrite ?list_lookup_alter_eq, lookup_app_r, Nat.sub_diag by done.
    all: cbn; by split_and!.
Qed.

Lemma nest_node_total ob parent_transform parent_name parent_location
    nested_count hide_empty s :
  (∀ p, parent_name = Some p → p ≠ "_(Loose Entity)" →
        p ∈ ob_name <$> bpy_objects s) →
  ∃ s', nest_node ob parent_transform parent_name parent_location
          nested_count hide_empty s = Ok s'.
Proof.
  intros Hp. unfold nest_node. destruct parent_name as [pn|].
  - case_decide as Hpn; [rewrite bind_Ok; by eexists|].
    destruct (find_name_elem_of ob_name pn (bpy_objects s)) as [p Hfind];
      [by apply Hp|].
    unfold objects_getitem. rewrite Hfind, !bind_Ok. by eexists.
  - rewrite bind_Ok. by eexists.
Qed.

Lemma write_group_child_extends fuel cfg parent_transform default_material
    ob nested_location group s s' :
  write_group_child (write_entities fuel cfg) cfg parent_transform
    default_material ob nested_location group s = Ok s' →
  extends s s'.
Proof.
  unfold write_group_child.
  destruct (g_hidden group); [intros; simplify_eq; reflexivity|].
  destruct (layer_skipped _ _); [intros; simplify_eq; reflexivity|].
  cbn. intros Hrec%write_entities_extends. etrans; [|done]. extends_tac.
Qed.

Lemma write_instance_child_extends fuel cfg parent_transform default_material
    ob nested_location instance s s' :
  write_instance_child (write_entities fuel cfg) cfg parent_transform
    default_material ob nested_location instance s = Ok s' →
  extends s s'.
Proof.
  unfold write_instance_child.
  destruct (i_hidden instance); [intros; simplify_eq; reflexivity|].
  destruct (layer_skipped _ _); [intros; simplify_eq; reflexivity|].
  destruct (lookup_component _ _) as [cdef| |]; cbn; try done.
  apply write_entities_extends.
Qed.

Lemma write_entities_total fuel cfg avoid entities name parent_transform
    default_material etype parent_name parent_location s :
  is_Some (materials cfg !! "Material") →
  tree_ok cfg avoid fuel entities →
  (∀ p, parent_name = Some p → p ≠ "_(Loose Entity)" →
        p ∈ ob_name <$> bpy_objects s) →
  ∃ s', write_entities fuel cfg entities name parent_transform
          default_material etype parent_name parent_location s = Ok s'.
Proof.
  intros Hmat. revert entities name parent_transform default_material etype
    parent_name parent_location s.
  induction fuel as [|fuel IH]; intros entities name parent_transform
    default_material etype parent_name parent_location s; [done|].
  intros (Hfaces & Hgroups & Hinstances) Hparent.
  cbn [write_entities]. case_match; [by eexists|].
  destruct (write_mesh_data_total cfg entities name default_material s
              Hfaces Hmat) as ([me alpha] & s1 & Hmesh).
  rewrite Hmesh, bind_Ok.
  apply write_mesh_data_extends in Hmesh.
  destruct (write_node_object name parent_transform me alpha
              (length (e_groups entities) + length (e_instances entities)) s1)
    as (hide_empty & s2 & o & -> & Hnode & Ho & _).
  set (ob := length (bpy_objects s1)) in *.
  edestruct (nest_node_total ob parent_transform parent_name parent_location)
    as [s3 Hnest].
  { intros p Hp Hne. specialize (Hparent p Hp Hne).
    assert (extends s s2) as Hpre%extends_names by by etrans.
    by eapply elem_of_prefix. }
  rewrite Hnest, bind_Ok. apply nest_node_extends in Hnest.
  assert (ob < length (bpy_objects s3)) as Hob.
  { apply lookup_lt_Some in Ho. apply extends_length in Hnest. lia. }
  edestruct (for_each_total
               (write_group_child (write_entities fuel cfg) cfg
                  parent_transform default_material ob
                  (translation_of parent_transform))
               (fun sc => ob < length (bpy_objects sc)) (e_groups entities))
    as (s4 & -> & Hob4); [|exact Hob|].
  { intros g sa Hg Hsa. rewrite Forall_forall in Hgroups.
    assert (∃ sb, write_group_child (write_entities fuel cfg) cfg
                    parent_transform default_material ob
                    (translation_of parent_transform) g sa = Ok sb)
      as [sb Hsb].
    { unfold write_group_child.
      destruct (g_hidden g); [by eexists|].
      destruct (layer_skipped _ _); [by eexists|]. cbn.
      apply IH; [by apply Hgroups|].
      intros p ? _. simplify_eq. apply object_name_elem_of. cbn.
      rewrite length_app. lia. }
    exists sb. split; [done|].
    apply write_group_child_extends, extends_length in Hsb. lia. }
  rewrite bind_Ok.
  edestruct (for_each_total
               (write_instance_child (write_entities fuel cfg) cfg
                  parent_transform default_material ob
                  (translation_of parent_transform))
               (fun sc => ob < length (bpy_objects sc))
               (e_instances entities))
    as (s5 & -> & _); [|exact Hob4|by eexists].
  intros i sa Hi Hsa. rewrite Forall_forall in Hinstances.
  destruct (Hinstances i Hi) as (cdef & Hcdef & _ & Hok).
  assert (∃ sb, write_instance_child (write_entities fuel cfg) cfg
                  parent_transform default_material ob
                  (translation_of parent_transform) i sa = Ok sb)
    as [sb Hsb].
  { unfold write_instance_child, lookup_component.
    destruct (i_hidden i); [by eexists|].
    destruct (layer_skipped _ _); [by eexists|].
    rewrite Hcdef, bind_Ok.
    apply IH; [done|].
    intros p ? _. simplify_eq. by apply object_name_elem_of. }
  exists sb. split; [done|].
  apply write_instance_child_extends, extends_length in Hsb. lia.
Qed.


(** ** Writing the groups returns on a well-formed model *)

Lemma groups_known_frame a s s' :
  group_frame s s' → groups_known a s → groups_known a s'.
Proof.
  intros (_ & Hskip & Hgw & _) Hknown k. rewrite Hskip, Hgw. apply Hknown.
Qed.

Lemma component_def_as_group_total fuel cfg a entities name parent_transform
    default_material etype group s :
  is_Some (materials cfg !! "Material") →
  tree_ok cfg (Some a) fuel entities →
  groups_known a s →
  (etype = Some ET_component → name ≠ a) →
  (etype = Some ET_outer → name = a) →
  ∃ s', component_def_as_group fuel cfg entities name parent_transform
          default_material etype group s = Ok s'.
Proof.
  intros Hmat. revert entities name parent_transform default_material etype s.
  induction fuel as [|fuel IH]; intros entities name parent_transform
    default_material etype s; [done|].
  intros (Hfaces & Hgroups & Hinstances) Hknown Hcomp Houter.
  cbn [component_def_as_group].
  fold (mark_outer etype (name, default_material) s).
  case_match; [by eexists|].
  set (s0 := mark_outer _ _ s).
  assert (groups_known a s0) as Hknown0.
  { unfold s0, mark_outer. case_bool_decide as Het; [|done].
    intros k. cbn. destruct (decide (k = (name, default_material))) as [->|].
    - intros _. right. by apply Houter.
    - rewrite lookup_insert_ne by done. apply Hknown. }
  destruct (bool_decide (etype = Some ET_component) && key_skipped _ s0)
    eqn:Hskipped.
  { apply andb_true_iff in Hskipped
      as [Het%bool_decide_eq_true Hk%bool_decide_eq_true].
    destruct (Hknown0 _ Hk) as [[g Hg]|Hname]; [|by destruct (Hcomp Het)].
    unfold instance_object_or_group. rewrite Hg. cbn. by eexists. }
  destruct (write_mesh_data_total cfg entities name default_material s0
              Hfaces Hmat) as ([me alpha] & s1 & Hmesh).
  rewrite Hmesh, bind_Ok. apply write_mesh_data_group_frame in Hmesh.
  match goal with
  | |- context [for_each _ (e_groups entities) ?st] =>
      assert (group_frame s1 st) as Hob; [|generalize dependent st]
  end.
  { destruct me, alpha; group_frame_tac. }
  intros s2 Hs2.
  assert (groups_known a s2) as Hknown2.
  { eapply groups_known_frame; [|done]. by etrans. }
  assert (∀ e n pt dm et sa,
            tree_ok cfg (Some a) fuel e → groups_known a sa →
            et ≠ Some ET_outer → (et = Some ET_component → n ≠ a) →
            ∃ sb, component_def_as_group fuel cfg e n pt dm et group sa
                  = Ok sb ∧ groups_known a sb) as IH'.
  { intros e n pt dm et sa He Hsa Het Hn.
    destruct (IH e n pt dm et sa He Hsa Hn) as [sb Hsb]; [done|].
    exists sb. split; [done|].
    apply component_def_as_group_frame in Hsb as [(? & _)|Hsb]; [done|].
    unfold mark_outer in Hsb. rewrite bool_decide_eq_false_2 in Hsb by done.
    by eapply groups_known_frame. }
  edestruct (for_each_total
               (fun g s =>
                  if layer_skipped cfg (g_layer g) then Ok s
                  else component_def_as_group fuel cfg (g_entities g)
                         ("G-" +:+ g_name g)
                         (matmul parent_transform (g_transform g))
                         (inherent_default_mat (g_material g)
                            default_material)
                         (Some ET_group) group s)
               (groups_known a) (e_groups entities))
    as (s3 & -> & Hknown3); [|exact Hknown2|].
  { intros g sa Hg Hsa. cbv beta.
    destruct (layer_skipped _ _); [by exists sa|].
    rewrite Forall_forall in Hgroups. by apply IH'; [apply Hgroups|..]. }
  rewrite bind_Ok.
  edestruct (for_each_total
               (fun instance s =>
                  if layer_skipped cfg (i_layer instance) then Ok s
                  else
                    cdef ← lookup_component cfg (i_definition_name instance);
                    component_def_as_group fuel cfg (cd_entities cdef)
                      (cd_name cdef)
                      (matmul parent_transform (i_transform instance))
                      (inherent_default_mat (i_material instance)
                         default_material)
                      (Some ET_component) group s)
               (groups_known a) (e_instances entities))
    as (s4 & -> & _); [|exact Hknown3|by eexists].
  intros i sa Hi Hsa. cbv beta.
  destruct (layer_skipped _ _); [by exists sa|].
  rewrite Forall_forall in Hinstances.
  destruct (Hinstances i Hi) as (cdef & Hcdef & Hne & Hok).
  unfold lookup_component. rewrite Hcdef, bind_Ok.
  apply IH'; [done..|]. intros _ Heq. apply Hne. by rewrite Heq.
Qed.

(** One pair at its own depth, other than 1: the pair is entered in
    [component_skip] and [group_written]; the group is a collection that
    was just made, or, with the reuse option, an existing collection of
    that name. *)
Lemma write_group_promotes fuel cfg name mat v d cdef s :
  is_Some (materials cfg !! "Material") →
  component_depth cfg !! name = Some d → d ≠ 1 →
  skp_components cfg !! name = Some cdef →
  tree_ok cfg (Some name) fuel (cd_entities cdef) →
  groups_inv s →
  ∃ s' g,
    write_group fuel cfg d ((name, mat), v) s = Ok s'
    ∧ component_skip s'
      = <[(name, mat) := SkipEntities (cd_entities cdef)]> (component_skip s)
    ∧ group_written s' = <[(name, mat) := g]> (group_written s)
    ∧ g < length (bpy_collections s')
    ∧ length (bpy_collections s) ≤ length (bpy_collections s')
    ∧ (reuse_group cfg = false → g = length (bpy_collections s))
    ∧ (g < length (bpy_collections s) →
       ∃ c, bpy_collections s !! g = Some c
            ∧ coll_name c = group_name name mat)
    ∧ component_stats s' = component_stats s.
Proof.
  intros Hmat Hd Hd1 Hcdef Hok [Hknown Hvalid].
  unfold write_group, lookup_component. cbn [fst].
  rewrite Hd, Hcdef, !bind_Ok, decide_False, decide_True by done.
  destruct (if reuse_group cfg then _ else _) as [existing|] eqn:Hreuse.
  { destruct (reuse_group cfg) eqn:Hopt; [|done].
    apply find_name_lookup in Hreuse as (c & Hc & Hname).
    eexists _, existing. split; [reflexivity|]. cbn.
    apply lookup_lt_Some in Hc as Hlt.
    split_and!; try done. by exists c. }
  destruct (collections_new (group_name name mat) s) as [group s1] eqn:Hnew.
  unfold collections_new in Hnew. simplify_eq.
  set (s1 := set_bpy_collections _ s).
  destruct (component_def_as_group_total fuel cfg name (cd_entities cdef) name
              mat_identity mat (Some ET_outer) (length (bpy_collections s))
              s1 Hmat Hok) as [s2 Hrun]; [|done..|].
  { intros k Hk. left. by apply Hknown. }
  rewrite Hrun, bind_Ok. eexists _, _. split; [reflexivity|]. cbn.
  apply component_def_as_group_frame in Hrun
    as [(_ & _ & ->)|(_ & Hskip & Hgw & Hstats & Hnames)]; cbn.
  - rewrite length_app. cbn. split_and!; [done..|lia|lia|done|lia|done].
  - apply (f_equal length) in Hnames. rewrite !length_fmap in Hnames.
    unfold mark_outer in *.
    rewrite bool_decide_eq_true_2 in Hskip, Hgw, Hstats, Hnames by done.
    subst s1. cbn in *. rewrite length_app in Hnames.
    cbn in Hnames. rewrite Hskip, Hgw, Hstats, insert_insert_eq.
    split_and!; [done..|lia|lia|done|lia|done].
Qed.

Lemma write_group_own_depth fuel cfg kv d s :
  component_depth cfg !! kv.1.1 = Some d →
  write_group_own fuel cfg kv s = write_group fuel cfg d kv s.
Proof. intros Hd. unfold write_group_own. by rewrite Hd. Qed.

Lemma write_groups_schedule fuel cfg (sched : Stats) s :
  is_Some (materials cfg !! "Material") →
  Forall (fun kv =>
            ∃ d cdef,
              component_depth cfg !! kv.1.1 = Some d ∧ d ≠ 1
              ∧ skp_components cfg !! kv.1.1 = Some cdef
              ∧ tree_ok cfg (Some kv.1.1) fuel (cd_entities cdef)) sched →
  groups_inv s →
  ∃ s',
    for_each (write_group_own fuel cfg) sched s = Ok s'
    ∧ groups_inv s'
    ∧ (∀ k, is_Some (component_skip s' !! k)
            ↔ is_Some (component_skip s !! k) ∨ k ∈ sched.*1)
    ∧ (∀ k g, group_written s' !! k = Some g →
              group_written s !! k = Some g
              ∨ k ∈ sched.*1
                ∧ (reuse_group cfg = false → length (bpy_collections s) ≤ g))
    ∧ length (bpy_collections s) ≤ length (bpy_collections s')
    ∧ component_stats s' = component_stats s.
Proof.
  intros Hmat Hsched. revert s.
  induction Hsched as [|[[name mat] v] sched Hkv _ IH]; intros s Hinv.
  { exists s. split_and!; try done.
    - intros k. split; [by left|]. by intros [?|?%elem_of_nil].
    - intros k g ?. by left. }
  destruct Hkv as (d & cdef & Hd & Hd1 & Hcdef & Hok). cbn in Hd, Hcdef, Hok.
  destruct (write_group_promotes fuel cfg name mat v d cdef s)
    as (s1 & g & Hrun & Hskip & Hgw & Hg & Hlen & Hnew & _ & Hstats);
    [done..|].
  assert (groups_inv s1) as Hinv1.
  { destruct Hinv as [Hknown Hvalid]. split.
    - intros k. rewrite Hskip, Hgw.
      destruct (decide (k = (name, mat))) as [->|].
      + rewrite !lookup_insert_eq. eauto.
      + rewrite !lookup_insert_ne by done. apply Hknown.
    - intros k g'. rewrite Hgw.
      destruct (decide (k = (name, mat))) as [->|].
      + rewrite lookup_insert_eq. intros; simplify_eq. done.
      + rewrite lookup_insert_ne by done. intros ?%Hvalid. lia. }
  destruct (IH s1 Hinv1)
    as (s' & Hrun' & Hinv' & Hskip' & Hgw' & Hlen' & Hstats').
  exists s'. split_and!.
  - cbn [for_each].
    by rewrite (write_group_own_depth _ _ _ d), Hrun, bind_Ok.
  - done.
  - intros k. rewrite Hskip', Hskip, fmap_cons, elem_of_cons. cbn [fst].
    destruct (decide (k = (name, mat))) as [->|].
    + rewrite lookup_insert_eq. split; [auto|]. intros _. left. by eexists.
    + rewrite lookup_insert_ne by done.
      split; [intros [?|?]; auto|intros [?|[?|?]]; auto; done].
  - intros k g' [Hk|[Hk Hnew']]%Hgw'.
    + rewrite Hgw in Hk. rewrite fmap_cons, elem_of_cons. cbn [fst].
      destruct (decide (k = (name, mat))) as [->|].
      * rewrite lookup_insert_eq in Hk. simplify_eq. right.
        split; [by left|]. intros ->%Hnew. done.
      * rewrite lookup_insert_ne in Hk by done. by left.
    + right. split; [rewrite fmap_cons; by right|].
      intros ?%Hnew'. lia.
  - lia.
  - congruence.
Qed.

Lemma occurrences_names n cfg entities transform default_material o :
  map_Forall (fun nm cdef => cd_name cdef = nm) (skp_components cfg) →
  o ∈ occurrences n cfg entities transform default_material →
  is_Some (skp_components cfg !! o.1.1).
Proof.
  intros Hnames. revert entities transform default_material.
  induction n as [|n IH]; intros entities transform default_material;
    cbn [occurrences]; [by intros ?%elem_of_nil|].
  intros [Ho|Ho]%elem_of_app; apply elem_of_flat_map in Ho as (x & _ & Ho).
  - destruct (layer_skipped _ _); [by apply elem_of_nil in Ho|]. by eapply IH.
  - destruct (layer_skipped _ _); [by apply elem_of_nil in Ho|].
    destruct (skp_components cfg !! i_definition_name x) as [cdef|] eqn:Hcdef;
      [|by apply elem_of_nil in Ho].
    apply elem_of_cons in Ho as [->|Ho]; [|by eapply IH].
    cbn. specialize (Hnames _ _ Hcdef). cbn in Hnames.
    rewrite Hnames. by eexists.
Qed.

Lemma max_component_depth_le cfg name d :
  component_depth cfg !! name = Some d → d ≤ max_component_depth cfg.
Proof.
  intros Hd. apply max_list_elem_of_le. unfold max_component_depth.
  apply (list_elem_of_fmap_2 snd _ (name, d)).
  by apply elem_of_map_to_list.
Qed.

(** A round at a level that is not the depth of the pair, or for a pair of
    depth 1, changes nothing. *)
Lemma write_group_other_level fuel cfg i kv s :
  is_Some (component_depth cfg !! kv.1.1) →
  is_Some (skp_components cfg !! kv.1.1) →
  ¬ at_depth cfg i kv →
  write_group fuel cfg i kv s = Ok s.
Proof.
  intros [d Hd] [cdef Hcdef] Hat. unfold write_group, lookup_component.
  destruct kv as [[name mat] v]. cbn in *.
  rewrite Hd, Hcdef, !bind_Ok.
  case_decide; [done|]. case_decide; [|done]. subst. by destruct Hat.
Qed.

(** The two nested loops process the schedule. *)
Lemma write_groups_nested fuel cfg (candidates : Stats) s :
  Forall (fun kv => is_Some (component_depth cfg !! kv.1.1)
                    ∧ is_Some (skp_components cfg !! kv.1.1)) candidates →
  for_each (fun i s => for_each (write_group fuel cfg i) candidates s)
    (seq 0 (max_component_depth cfg + 1)) s
  = for_each (write_group_own fuel cfg) (schedule cfg candidates) s.
Proof.
  intros Hcand. unfold schedule. rewrite <-for_each_flat_map.
  apply for_each_ext. intros i s' _.
  rewrite (for_each_filter _ (at_depth cfg i)).
  - apply for_each_ext. intros kv s'' [[Hd _] _]%list_elem_of_filter.
    by rewrite (write_group_own_depth _ _ _ i).
  - intros kv s'' Hkv Hat. rewrite Forall_forall in Hcand.
    destruct (Hcand kv Hkv). by apply write_group_other_level.
Qed.

Lemma schedule_elem_of cfg (candidates : Stats) kv :
  kv ∈ schedule cfg candidates
  ↔ kv ∈ candidates
    ∧ ∃ d, component_depth cfg !! kv.1.1 = Some d ∧ d ≠ 1.
Proof.
  unfold schedule. rewrite elem_of_flat_map. split.
  - intros (i & _ & [[Hd Hi] Hkv]%list_elem_of_filter). eauto.
  - intros (Hkv & d & Hd & Hd1). exists d. split.
    + apply elem_of_seq. apply max_component_depth_le in Hd. lia.
    + by apply list_elem_of_filter.
Qed.

Lemma schedule_sorted cfg (candidates : Stats) :
  StronglySorted (depth_le cfg) (schedule cfg candidates).
Proof.
  unfold schedule. generalize (max_component_depth cfg + 1) as n.
  generalize 0 as start. intros start n. revert start.
  induction n as [|n IH]; intros start; cbn [seq flat_map];
    [apply SSorted_nil|].
  apply StronglySorted_app. split_and!.
  - intros kv1 kv2 [[Hd1 _] _]%list_elem_of_filter
      (i & Hi%elem_of_seq & [[Hd2 _] _]%list_elem_of_filter)%elem_of_flat_map.
    exists start, i. split_and!; [done..|lia].
  - clear IH. induction candidates as [|kv c IHc];
      [rewrite filter_nil; apply SSorted_nil|].
    rewrite filter_cons. case_decide as Hkv; [|done].
    apply SSorted_cons; [done|]. apply Forall_forall.
    intros kv' [[Hd' _] _]%list_elem_of_filter. destruct Hkv as [Hd _].
    by exists start, start.
  - apply IH.
Qed.

Lemma defaultdict_get_elem_of_keys {K A} `{!EqDecision K}
    (d : list (K * list A)) k :
  k ∈ d.*1 → (k, defaultdict_get k d) ∈ d.
Proof.
  induction d as [|[k0 v] d IH]; csimpl; [by intros ?%elem_of_nil|].
  intros Hin. case_decide as Hk; [subst; by left|].
  apply elem_of_cons in Hin as [?|Hin]; [done|]. right. by apply IH.
Qed.

(** The candidates: the recorded keys that reach the threshold. *)
Lemma filter_stats_keys instance_when_over (stats : Stats) k :
  NoDup stats.*1 →
  k ∈ (filter_stats instance_when_over stats).*1
  ↔ k ∈ stats.*1
    ∧ (instance_when_over ≤ Z.of_nat (length (defaultdict_get k stats)))%Z.
Proof.
  intros Hnd. unfold filter_stats. rewrite list_elem_of_fmap. split.
  - intros ([k' v] & -> & [Hlen Hin]%list_elem_of_filter). cbn in *.
    rewrite (defaultdict_get_elem_of stats k' v) by done.
    split; [by eapply defaultdict_elem_of_get|].
    by apply Is_true_true, Z.leb_le in Hlen.
  - intros [Hin Hlen]. exists (k, defaultdict_get k stats). split; [done|].
    apply list_elem_of_filter. split; [|by apply defaultdict_get_elem_of_keys].
    cbn. by apply Is_true_true, Z.leb_le.
Qed.

Lemma schedule_keys cfg (candidates : Stats) k :
  k ∈ (schedule cfg candidates).*1
  ↔ k ∈ candidates.*1 ∧ ∃ d, component_depth cfg !! k.1 = Some d ∧ d ≠ 1.
Proof.
  rewrite !list_elem_of_fmap. setoid_rewrite schedule_elem_of. split.
  - intros (kv & -> & Hkv & Hd). split; [by exists kv|done].
  - intros [(kv & -> & Hkv) Hd]. by exists kv.
Qed.

(** What one run of [write_duplicateable_groups] does on a well-formed
    model, from a state without groups. *)
Lemma write_duplicateable_groups_spec fuel cfg s :
  model_ok cfg fuel →
  component_skip s = ∅ → group_written s = ∅ →
  ∃ stats s',
    analyze_entities fuel cfg (model_entities cfg) "Sketchup" mat_identity
      "Material" ET_none [] None = Ok stats
    ∧ NoDup stats.*1
    ∧ (∀ k, k ∈ stats.*1 → is_Some (component_depth cfg !! k.1))
    ∧ write_duplicateable_groups fuel cfg s
      = for_each (write_group_own fuel cfg)
          (schedule cfg (filter_stats (max_instance cfg) stats)) s
    ∧ write_duplicateable_groups fuel cfg s = Ok s'
    ∧ (∀ k, is_Some (component_skip s' !! k)
            ↔ k ∈ (schedule cfg (filter_stats (max_instance cfg) stats)).*1)
    ∧ (∀ k, is_Some (group_written s' !! k)
            ↔ k ∈ (schedule cfg (filter_stats (max_instance cfg) stats)).*1)
    ∧ (∀ k g, group_written s' !! k = Some g →
              g < length (bpy_collections s')
              ∧ (reuse_group cfg = false → length (bpy_collections s) ≤ g)).
Proof.
  intros (Hmat & Htable & Htree) Hskip0 Hgw0.
  pose proof (analyze_entities_occurrences cfg None fuel (model_entities cfg)
                "Sketchup" mat_identity "Material" ET_none [] Htree)
    as Hanalyze.
  unfold record_own in Hanalyze. rewrite decide_False in Hanalyze by done.
  set (stats := record_occurrences [] _) in Hanalyze.
  assert (∀ k, k ∈ stats.*1 →
            ∃ cdef, skp_components cfg !! k.1 = Some cdef
                    ∧ is_Some (component_depth cfg !! k.1)
                    ∧ tree_ok cfg (Some k.1) fuel (cd_entities cdef))
    as Hkeys.
  { intros k [?%elem_of_nil|Hk]%record_occurrences_keys; [done|].
    apply list_elem_of_fmap in Hk as (o & -> & Ho).
    apply occurrences_names in Ho as [cdef Hcdef].
    - exists cdef. split; [done|]. by destruct (Htable _ _ Hcdef) as (_ & ? & ?).
    - intros nm cdef Hcdef. by destruct (Htable _ _ Hcdef). }
  assert (NoDup stats.*1) as Hnd.
  { apply record_occurrences_NoDup. constructor. }
  set (candidates := filter_stats (max_instance cfg) stats).
  assert (∀ kv, kv ∈ candidates → kv.1 ∈ stats.*1) as Hcand.
  { intros kv [_ Hkv]%list_elem_of_filter. by apply list_elem_of_fmap_2. }
  destruct (write_groups_schedule fuel cfg (schedule cfg candidates) s Hmat)
    as (s' & Hrun & [Hknown Hvalid] & Hskip & Hgw & Hlen & _).
  { apply Forall_forall. intros kv (Hkv & d & Hd & Hd1)%schedule_elem_of.
    destruct (Hkeys _ (Hcand _ Hkv)) as (cdef & Hcdef & _ & Hok).
    by exists d, cdef. }
  { split; intros k; [rewrite Hskip0|rewrite Hgw0]; rewrite lookup_empty.
    - by intros [].
    - done. }
  assert (write_duplicateable_groups fuel cfg s
          = for_each (write_group_own fuel cfg) (schedule cfg candidates) s)
    as Hnested.
  { unfold write_duplicateable_groups. rewrite Hanalyze, bind_Ok.
    apply write_groups_nested, Forall_forall. intros kv Hkv.
    destruct (Hkeys _ (Hcand _ Hkv)) as (cdef & Hcdef & ? & _).
    split; [done|by exists cdef]. }
  assert (∀ k, is_Some (component_skip s' !! k)
               ↔ k ∈ (schedule cfg candidates).*1) as Hskip'.
  { intros k. rewrite Hskip, Hskip0, lookup_empty. split; [|by right].
    by intros [[]|]. }
  exists stats, s'. fold candidates. split_and!.
  - done.
  - done.
  - intros k Hk. by destruct (Hkeys k Hk) as (_ & _ & ? & _).
  - done.
  - congruence.
  - done.
  - intros k. rewrite <-Hskip'. split; [|apply Hknown].
    intros [g [Hg|[Hk _]]%Hgw]; [by rewrite Hgw0 in Hg|]. by apply Hskip'.
  - intros k g Hg. split; [by eapply Hvalid|].
    apply Hgw in Hg as [Hg|[_ ?]]; [by rewrite Hgw0 in Hg|done].
Qed.

(** ** Deduplication: threshold and depth *)


(** C1, as amended. On a well-formed model and from a state without
    groups, [write_duplicateable_groups] returns, and a pair recorded by
    the analysis is promoted to a shared group exactly when its occurrence
    list has at least [max_instance] entries and the depth of its component
    is not 1. So a pair occurring exactly [max_instance] times is promoted
    when its depth is not 1, and a pair occurring [max_instance - 1] times
    is not promoted. *)
Theorem threshold_boundary fuel cfg s :
  model_ok cfg fuel →
  component_skip s = ∅ → group_written s = ∅ →
  ∃ stats s',
    analyze_entities fuel cfg (model_entities cfg) "Sketchup" mat_identity
      "Material" ET_none [] None = Ok stats
    ∧ write_duplicateable_groups fuel cfg s = Ok s'
    ∧ ∀ k, k ∈ stats.*1 →
        (promoted s' k
         ↔ (max_instance cfg
            ≤ Z.of_nat (length (defaultdict_get k stats)))%Z
           ∧ component_depth cfg !! k.1 ≠ Some 1)
        ∧ (Z.of_nat (length (defaultdict_get k stats)) = max_instance cfg →
           component_depth cfg !! k.1 ≠ Some 1 → promoted s' k)
        ∧ (Z.of_nat (length (defaultdict_get k stats))
           = (max_instance cfg - 1)%Z →
           ¬ promoted s' k).
Proof.
  intros Hok Hskip0 Hgw0.
  destruct (write_duplicateable_groups_spec fuel cfg s Hok Hskip0 Hgw0)
    as (stats & s' & Hanalyze & Hnd & Hdepth & _ & Hrun & Hskip & Hgw & _).
  exists stats, s'. split_and!; [done..|]. intros k Hk.
  assert (promoted s' k
          ↔ (max_instance cfg
             ≤ Z.of_nat (length (defaultdict_get k stats)))%Z
            ∧ component_depth cfg !! k.1 ≠ Some 1) as Hiff.
  { unfold promoted. rewrite Hskip, Hgw, schedule_keys, filter_stats_keys
      by done.
    destruct (Hdepth _ Hk) as [d Hd]. rewrite Hd. split.
    - intros [[[_ ?] (d' & ? & ?)] _]. split; [done|congruence].
    - intros [? Hd1].
      assert (d ≠ 1) by congruence. split; (split; [done|by exists d]). }
  split_and!; [done| |].
  - intros Hlen Hd1. apply Hiff. split; [lia|done].
  - intros Hlen [? _]%Hiff. lia.
Qed.

(** * Further properties of the passes *)

(** ** The mesh that [write_mesh_data] builds *)

Lemma index_of_lt {K} `{!EqDecision K} (k : K) ko i :
  index_of k ko = Some i → ko !! i = Some k.
Proof.
  revert i. induction ko as [|k' ko IH]; intros i; cbn; [done|].
  case_decide as Hk; [intros; by simplify_eq|].
  destruct (index_of k ko) as [j|]; cbn; [|done].
  intros; simplify_eq. cbn. by apply IH.
Qed.

Lemma index_of_None {K} `{!EqDecision K} (k : K) ko :
  index_of k ko = None → k ∉ ko.
Proof.
  induction ko as [|k' ko IH]; cbn; [intros _ ?%elem_of_nil; done|].
  case_decide as Hk; [done|].
  destruct (index_of k ko) as [j|] eqn:Hj; cbn; [done|].
  intros _ [?|?]%elem_of_cons; [done|]. by apply IH.
Qed.

(** A slot of a [keep_offset] table: the table only grows, at most by the
    key asked for, and the slot holds the key. *)
Lemma keep_offset_getitem_spec {K} `{!EqDecision K} (k : K) ko i ko' :
  keep_offset_getitem k ko = (i, ko') →
  ko' !! i = Some k
  ∧ (ko' = ko ∨ ko' = ko ++ [k] ∧ k ∉ ko).
Proof.
  unfold keep_offset_getitem.
  destruct (index_of k ko) as [j|] eqn:Hj; intros; simplify_eq.
  - split; [by apply index_of_lt|by left].
  - split; [|right; split; [done|by apply index_of_None]].
    rewrite lookup_app_r by done. by rewrite Nat.sub_diag.
Qed.

Lemma enumerate_zip_inv vs i uvs sn vt mapping uvs' sn' vt' mapping' :
  enumerate_zip vs i uvs sn vt mapping = (uvs', sn', vt', mapping') →
  vt = sn → NoDup sn → Forall (fun m => m < length sn) mapping →
  vt' = sn' ∧ NoDup sn' ∧ sn `prefix_of` sn'
  ∧ Forall (fun m => m < length sn') mapping'.
Proof.
  revert i uvs sn vt mapping.
  induction vs as [|v vs IH]; intros i uvs sn vt mapping; cbn [enumerate_zip].
  { intros; by simplify_eq. }
  destruct (uvs !! i) as [uv|]; [|intros; by simplify_eq].
  destruct (keep_offset_getitem v sn) as [idx sn1] eqn:Hk.
  apply keep_offset_getitem_spec in Hk as [Hidx Hsn1].
  intros Hrun -> Hnd Hmap.
  apply lookup_lt_Some in Hidx as Hlt.
  apply IH in Hrun as (? & ? & Hpre & ?).
  - split_and!; [done..| |done].
    etrans; [|done]. destruct Hsn1 as [->|[-> _]]; [done|].
    by apply prefix_app_r.
  - destruct Hsn1 as [->|[-> _]].
    + by rewrite decide_False by lia.
    + rewrite decide_True; [done|]. rewrite length_app. cbn. lia.
  - destruct Hsn1 as [->|[-> Hnew]]; [done|].
    apply NoDup_app. split_and!; [done| |apply NoDup_singleton].
    intros x Hx ->%list_elem_of_singleton. done.
  - apply Forall_app. split; [|by constructor].
    eapply Forall_impl; [done|]. cbn. intros m Hm.
    destruct Hsn1 as [->|[-> _]]; [done|]. rewrite length_app. cbn. lia.
Qed.

Lemma getitem_Ok {A} e (l : list A) i a :
  getitem e l i = Ok a → l !! i = Some a.
Proof. unfold getitem. destruct (l !! i); intros; by simplify_eq. Qed.

Lemma write_triangle_inv mapping uvs smooth_edge mat_number face acc acc' :
  write_triangle mapping uvs smooth_edge mat_number face acc = Ok acc' →
  Forall (fun m => m < length (verts acc)) mapping →
  mat_number < length (mats acc) →
  acc_inv acc → acc_inv acc'.
Proof.
  destruct face as [[f0 f1] f2]. unfold write_triangle.
  destruct (getitem KeyError mapping f2) as [m2| |] eqn:H2; cbn; [|done..].
  intros Hrun Hmap Hmat (Hvs & Hnd & Hloops & Hlen & Hsm & Huv & Hmi).
  assert (∀ f m, getitem KeyError mapping f = Ok m → m < length (verts acc))
    as Hval.
  { intros f m Hf%getitem_Ok. rewrite Forall_forall in Hmap.
    apply Hmap. by eapply list_elem_of_lookup_2. }
  assert (∃ ma mb mc ua ub uc,
            acc' = mkMeshAcc (verts acc) (loops_vert_idx acc ++ [ma; mb; mc])
                     (mat_index acc ++ [mat_number])
                     (smooth acc ++ [smooth_edge]) (mats acc) (seen acc)
                     (uv_list acc ++ [(ua, ub, uc)])
            ∧ ma < length (verts acc) ∧ mb < length (verts acc)
            ∧ mc < length (verts acc))
    as (ma & mb & mc & ua & ub & uc & -> & Ha & Hb & Hc).
  { pose proof (Hval _ _ H2) as Hm2. cbn in Hrun.
    case_decide;
      repeat match type of Hrun with
             | context [getitem KeyError ?l ?i] =>
                 let E := fresh "E" in
                 destruct (getitem KeyError l i) eqn:E; cbn in Hrun;
                 [apply Hval in E|done..]
             | context [getitem IndexError ?l ?i] =>
                 destruct (getitem IndexError l i); cbn in Hrun; [|done..]
             end;
      simplify_eq; eexists _, _, _, _, _, _; (split; [done|]); eauto. }
  unfold acc_inv. cbn. rewrite !length_app. cbn. split_and!; try done.
  - apply Forall_app. split; [done|]. by repeat constructor.
  - lia.
  - lia.
  - lia.
  - apply Forall_app. split; [done|]. by constructor.
Qed.

Lemma write_face_inv cfg default_material f acc acc' :
  write_face cfg default_material f acc = Ok acc' →
  acc_inv acc →
  acc_inv acc' ∧ length (verts acc) ≤ length (verts acc').
Proof.
  unfold write_face.
  destruct (keep_offset_getitem _ (mats acc)) as [mat_number mats'] eqn:Hk.
  apply keep_offset_getitem_spec in Hk as [Hslot Hmats].
  apply lookup_lt_Some in Hslot.
  destruct (enumerate_zip _ _ _ _ _ _) as [[[uvs sn'] vt'] mapping] eqn:Hzip.
  intros Hrun (Hvs & Hnd & Hloops & Hlen & Hsm & Huv & Hmi).
  apply enumerate_zip_inv in Hzip as (-> & Hnd' & Hpre & Hmap);
    [|done..|constructor].
  apply prefix_length in Hpre. rewrite <-Hvs in Hpre.
  revert Hrun.
  match goal with
  | |- for_each ?body ?l ?a0 = _ → _ =>
      intros Hrun;
      apply (for_each_inv body
               (fun a => acc_inv a ∧ verts a = sn' ∧ mats a = mats')
               l a0 acc') in Hrun
  end.
  - destruct Hrun as (? & -> & _). by split.
  - intros tri a a' _ (Ha & Hva & Hma) Hstep.
    split.
    + eapply write_triangle_inv; [done|by rewrite Hva|by rewrite Hma|done].
    + unfold write_triangle in Hstep. destruct tri as [[f0 f1] f2].
      destruct (getitem KeyError mapping f2); cbn in Hstep; [|done..].
      case_decide;
        repeat match type of Hstep with
               | context [getitem ?e ?l ?i] =>
                   destruct (getitem e l i); cbn in Hstep; [|done..]
               end; by simplify_eq.
  - split; [|done]. unfold acc_inv. cbn. split_and!; try done.
    + eapply Forall_impl; [done|]. cbn. lia.
    + eapply Forall_impl; [done|]. cbn. intros m Hm.
      destruct Hmats as [->|[-> _]]; [done|]. rewrite length_app. cbn. lia.
Qed.

Lemma mesh_material_length cfg ks acc slots :
  for_each (mesh_material cfg) ks acc = Ok slots →
  length slots.1 = length acc.1 + length ks.
Proof.
  revert acc. induction ks as [|k ks IH]; intros acc; cbn.
  { intros; simplify_eq. lia. }
  destruct (mesh_material cfg k acc) as [acc1| |] eqn:Hk; cbn; [|done..].
  intros Hrun%IH. rewrite Hrun. unfold mesh_material in Hk.
  destruct (match materials cfg !! k with Some _ => _ | None => _ end);
    cbn in Hk; [|done..].
  simplify_eq. cbn. rewrite length_app. cbn. lia.
Qed.

Lemma flat_map_length_const {A B} (f : A → list B) n (l : list A) :
  (∀ a, length (f a) = n) → length (flat_map f l) = n * length l.
Proof.
  intros Hf. induction l as [|a l IH]; cbn; [lia|].
  rewrite length_app, Hf, IH. lia.
Qed.

(** What a call that built a mesh returns, with the facts about the lists
    the mesh was filled from. *)
Lemma write_mesh_data_built cfg entities name default_material s h alpha s' :
  component_meshes s !! (name, default_material) = None →
  write_mesh_data cfg entities name default_material s
  = Ok ((Some h, alpha), s') →
  ∃ acc slots me,
    for_each (write_face cfg default_material) (e_faces entities)
      (mkMeshAcc [] [] [] [] [] [] []) = Ok acc
    ∧ for_each (mesh_material cfg) (mats acc) ([], false) = Ok slots
    ∧ acc_inv acc ∧ verts acc ≠ []
    ∧ h = length (bpy_meshes s) ∧ alpha = false
    ∧ bpy_meshes s' = bpy_meshes s ++ [me]
    ∧ me_materials me = slots.1
    ∧ me_vertices me = verts acc
    ∧ me_loops me = loops_vert_idx acc
    ∧ me_loop_start me = loop_starts (length (mat_index acc))
    ∧ me_loop_total me = replicate (length (mat_index acc)) 3
    ∧ me_material_index me = mat_index acc
    ∧ me_use_smooth me = smooth acc
    ∧ (∀ uv, me_uv me = Some uv → length uv = length (loops_vert_idx acc)).
Proof.
  intros Hmiss. unfold write_mesh_data. rewrite Hmiss.
  destruct (for_each _ _ _) as [acc| |] eqn:Hfaces; cbn; [|done..].
  case_decide as Hverts; [done|].
  destruct (for_each _ (mats acc) _) as [slots| |] eqn:Hslots; cbn; [|done..].
  intros Hrun. simplify_eq.
  assert (acc_inv acc) as Hinv.
  { apply (for_each_inv _ acc_inv) in Hfaces; [done| |].
    - intros f a a' _ Ha Hf. by apply write_face_inv in Hf as [? _].
    - unfold acc_inv. cbn. by split_and!; try constructor. }
  pose proof Hinv as (_ & _ & _ & Hlen & _ & Huv & _).
  assert (length (loops_vert_idx acc) `div` 3 = length (mat_index acc)) as Hdiv.
  { rewrite Hlen, Nat.mul_comm. by apply Nat.div_mul. }
  change (length (loops_vert_idx acc) `div` 3)
    with (Nat.divmod (length (loops_vert_idx acc)) 2 0 2).1 in Hdiv.
  eexists acc, slots, _. split_and!; try done; cbn.
  - intros Hnil. by rewrite Hnil in Hverts.
  - by rewrite Hdiv.
  - by rewrite Hdiv.
  - rewrite Hdiv. destruct slots.2; [|done]. intros uv [= <-].
    rewrite (flat_map_length_const _ 3).
    + rewrite length_take. lia.
    + by intros [[??]?].
Qed.



(** ** What the write pass leaves alone *)

#[local] Instance entities_frame_refl : Reflexive entities_frame.
Proof. intros s. by split_and!. Qed.

#[local] Instance entities_frame_trans : Transitive entities_frame.
Proof.
  intros s1 s2 s3 (? & ? & ? & ?) (? & ? & ? & ?). split_and!; congruence.
Qed.

Lemma instance_cname_is_cname instance cdef :
  is_cname (instance_cname instance cdef).
Proof.
  unfold instance_cname, is_cname. case_decide; [left|right]; eauto.
Qed.

Lemma write_mesh_data_stats cfg entities name default_material s r s' :
  write_mesh_data cfg entities name default_material s = Ok (r, s') →
  entities_frame s s' ∧ component_stats s' = component_stats s
  ∧ context_collection s' = context_collection s
  ∧ bpy_objects s' = bpy_objects s.
Proof.
  unfold write_mesh_data.
  destruct (component_meshes s !! (name, default_material))
    as [[me alpha]|] eqn:Hc.
  { intros; by simplify_eq. }
  destruct (for_each _ _ _) as [acc| |]; cbn; try done.
  case_decide; [intros; by simplify_eq|].
  destruct (for_each _ _ _) as [slots| |]; cbn; try done.
  intros; by simplify_eq.
Qed.

Lemma write_node_stats name parent_transform me alpha nested_count s :
  let s' := (write_node name parent_transform me alpha nested_count s).2 in
  entities_frame s s' ∧ component_stats s' = component_stats s.
Proof.
  unfold write_node. case_match.
  - by destruct (alpha_is_partial alpha).
  - by destruct me, (alpha_is_partial alpha).
Qed.

Lemma nest_node_stats ob parent_transform parent_name parent_location
    nested_count hide_empty s s' :
  nest_node ob parent_transform parent_name parent_location nested_count
    hide_empty s = Ok s' →
  entities_frame s s' ∧ component_stats s' = component_stats s.
Proof.
  unfold nest_node. destruct parent_name as [pn|]; cbn.
  - case_decide; cbn.
    + intros; simplify_eq. by case_bool_decide.
    + destruct (objects_getitem pn s) as [p| |]; cbn; try done.
      intros; simplify_eq. by case_bool_decide.
  - intros; simplify_eq. by case_bool_decide.
Qed.

Lemma write_entities_frame_stats fuel cfg entities name parent_transform
    default_material etype parent_name parent_location s s' :
  write_entities fuel cfg entities name parent_transform default_material
    etype parent_name parent_location s = Ok s' →
  entities_frame s s'
  ∧ ((∀ k, is_Some (component_skip s !! k) → ¬ is_cname k.1) →
     (etype = Some ET_component → is_cname name) →
     component_stats s' = component_stats s).
Proof.
  revert entities name parent_transform default_material etype parent_name
    parent_location s s'.
  induction fuel as [|fuel IH]; intros entities name parent_transform
    default_material etype parent_name parent_location s s'; [done|].
  cbn [write_entities].
  destruct (bool_decide (etype = Some ET_component) && key_skipped _ s)
    eqn:Hshort.
  { intros; simplify_eq. split; [done|]. intros Hnames Hname.
    apply andb_true_iff in Hshort
      as [Het%bool_decide_eq_true Hk%bool_decide_eq_true].
    destruct (Hnames _ Hk). by apply Hname. }
  destruct (write_mesh_data _ _ _ _ _) as [[[me alpha] s1]| |] eqn:Hmesh;
    cbn; try done.
  apply write_mesh_data_stats in Hmesh as (Hf1 & Hst1 & _).
  pose proof (write_node_stats name parent_transform me alpha
                (length (e_groups entities) + length (e_instances entities))
                s1) as [Hf2 Hst2].
  destruct (write_node _ _ _ _ _ _) as [[ob hide_empty] s2].
  cbn in Hf2, Hst2.
  destruct (nest_node _ _ _ _ _ _ _) as [s3| |] eqn:Hnest; cbn; try done.
  apply nest_node_stats in Hnest as [Hf3 Hst3].
  assert (entities_frame s s3) as Hf by (etrans; [done|]; by etrans).
  assert (component_stats s3 = component_stats s) as Hst by congruence.
  clear Hf1 Hf2 Hf3 Hst1 Hst2 Hst3.
  set (I := fun sa : State =>
              entities_frame s sa
              ∧ ((∀ k, is_Some (component_skip s !! k) → ¬ is_cname k.1) →
                 component_stats sa = component_stats s)).
  assert (I s3) as HI3 by done.
  assert (∀ e n pt dm et pn pl sa sb,
            (et = Some ET_component → is_cname n) → I sa →
            write_entities fuel cfg e n pt dm et pn pl sa = Ok sb → I sb)
    as Hrec.
  { intros e n pt dm et pn pl sa sb Hn [Hfa Hsa] [Hfb Hsb]%IH. split.
    - by etrans.
    - intros Hnames. rewrite Hsb; [by apply Hsa| |done].
      destruct Hfa as [-> _]. done. }
  destruct (for_each _ (e_groups entities) _) as [s4| |] eqn:Hgroups;
    cbn; try done.
  intros Hinstances.
  apply (for_each_inv _ I) in Hgroups; [|clear Hgroups Hinstances|done].
  2:{ intros group sa sb _ Hsa. unfold write_group_child.
      destruct (g_hidden group); [intros; by simplify_eq|].
      destruct (layer_skipped _ _); [intros; by simplify_eq|].
      cbn. apply Hrec; [done|]. destruct Hsa as [Hfa Hsa]. by split. }
  apply (for_each_inv _ I) in Hinstances; [|clear Hinstances|done].
  - destruct Hinstances as [? Hs']. split; [done|]. intros ? _. by apply Hs'.
  - intros instance sa sb _ Hsa. unfold write_instance_child.
    destruct (i_hidden instance); [intros; by simplify_eq|].
    destruct (layer_skipped _ _); [intros; by simplify_eq|].
    destruct (lookup_component _ _) as [cdef| |]; cbn; try done.
    apply Hrec; [|done]. intros _. apply instance_cname_is_cname.
Qed.


(** ** Instancing by vertices: outcome and what it creates *)

Lemma write_dupli_vert_outcome name default_material key locs s :
  locs ≠ [] →
  (group_written s !! (name, default_material) = None →
   component_meshes s !! (name, default_material) = None →
   write_dupli_vert name default_material (key, locs) s = Raise KeyError)
  ∧ (is_Some (group_written s !! (name, default_material))
     ∨ is_Some (component_meshes s !! (name, default_material)) →
     ∃ s',
       write_dupli_vert name default_material (key, locs) s = Ok s'
       ∧ group_written s' = group_written s
       ∧ component_meshes s' = component_meshes s
       ∧ length (bpy_objects s') = length (bpy_objects s) + 2
       ∧ length (bpy_meshes s') = length (bpy_meshes s) + 1
       ∧ length (context_collection s') = length (context_collection s) + 2).
Proof.
  intros Hlocs. destruct key as [scale rot].
  destruct locs as [|main_loc locs]; [done|].
  unfold write_dupli_vert, instance_object_or_group. cbn.
  destruct (group_written s !! (name, default_material)) as [g|] eqn:Hg.
  { split; [done|]. intros _. eexists. split; [reflexivity|]. cbn.
    repeat first [rewrite length_alter|rewrite length_app]. cbn.
    split_and!; [done|done|lia..]. }
  destruct (component_meshes s !! (name, default_material))
    as [[me alpha]|] eqn:Hme.
  - split; [done|]. intros _. destruct alpha; cbn.
    + eexists. split; [reflexivity|]. cbn.
      repeat first [rewrite length_alter|rewrite length_app]. cbn.
    split_and!; [done|done|lia..].
    + eexists. split; [reflexivity|]. cbn.
      repeat first [rewrite length_alter|rewrite length_app]. cbn.
    split_and!; [done|done|lia..].
  - split; [done|]. by intros [[]|[]].
Qed.


(** ** The deduplication followed by the write pass *)

Lemma write_group_keys fuel cfg i kv s s' :
  write_group fuel cfg i kv s = Ok s' →
  component_stats s' = component_stats s
  ∧ ∀ k, is_Some (component_skip s' !! k) →
         is_Some (component_skip s !! k)
         ∨ is_Some (skp_components cfg !! k.1).
Proof.
  unfold write_group, lookup_component. destruct kv as [[name mat] v]. cbn.
  destruct (component_depth cfg !! name) as [d|]; cbn; [|done].
  destruct (skp_components cfg !! name) as [cdef|] eqn:Hcdef; cbn; [|done].
  case_decide; [intros; simplify_eq; by split; [|left]|].
  case_decide; [|intros; simplify_eq; by split; [|left]].
  assert (∀ (m : gmap Key SkipVal) x k,
            is_Some (<[(name, mat) := x]> m !! k) →
            is_Some (m !! k) ∨ is_Some (skp_components cfg !! k.1)) as Hins.
  { intros m x k. destruct (decide (k = (name, mat))) as [->|].
    - intros _. right. cbn. by rewrite Hcdef.
    - rewrite lookup_insert_ne by done. by left. }
  destruct (if reuse_group cfg then _ else _) as [existing|].
  { intros; simplify_eq. cbn. split; [done|]. apply Hins. }
  destruct (component_def_as_group _ _ _ _ _ _ _ _ _) as [s2| |] eqn:Hrun;
    cbn; [|done..].
  intros; simplify_eq. cbn.
  apply component_def_as_group_frame in Hrun
    as [(_ & _ & ->)|(_ & Hskip & _ & Hstats & _)]; cbn.
  - split; [done|]. apply Hins.
  - unfold mark_outer in *.
    rewrite bool_decide_eq_true_2 in Hskip, Hstats by done. cbn in *.
    rewrite Hskip. split; [done|]. intros k Hk.
    apply Hins in Hk as [Hk|Hk]; [|by right]. by apply Hins in Hk.
Qed.

Lemma write_duplicateable_groups_keys fuel cfg s s' :
  write_duplicateable_groups fuel cfg s = Ok s' →
  component_stats s' = component_stats s
  ∧ ∀ k, is_Some (component_skip s' !! k) →
         is_Some (component_skip s !! k)
         ∨ is_Some (skp_components cfg !! k.1).
Proof.
  unfold write_duplicateable_groups.
  destruct (analyze_entities _ _ _ _ _ _ _ _ _) as [stats| |]; cbn;
    [|done..].
  set (I := fun sa : State =>
              component_stats sa = component_stats s
              ∧ ∀ k, is_Some (component_skip sa !! k) →
                     is_Some (component_skip s !! k)
                     ∨ is_Some (skp_components cfg !! k.1)).
  apply (for_each_inv _ I); [|by split; [|left]].
  intros i sa sb _ Hsa. apply (for_each_inv _ I); [|done].
  intros kv sc sd _ [Hst Hsk] [Hst' Hsk']%write_group_keys. split.
  - congruence.
  - intros k [Hk|Hk]%Hsk'; [by apply Hsk|by right].
Qed.

(** In [load], when no component definition carries a name of the form
    the write pass gives to its nodes (["C-..."] or ["... (C-...)"]), the
    groups that [write_duplicateable_groups] wrote are never instanced:
    whatever is done to the collections in between, the write pass that
    follows records no occurrence in [component_stats], which stays empty,
    so the loop over its keys runs no round and the mesh objects phase is
    the write pass alone. *)
Theorem load_mesh_objects_no_instancing fuel fuel' cfg dedub_type s s1 s1' :
  component_skip s = ∅ →
  component_stats s = [] →
  (∀ nm, is_Some (skp_components cfg !! nm) → ¬ is_cname nm) →
  write_duplicateable_groups fuel cfg s = Ok s1 →
  component_skip s1' = component_skip s1 →
  component_stats s1' = component_stats s1 →
  load_mesh_objects fuel' cfg dedub_type s1'
  = write_entities fuel' cfg (model_entities cfg) "_(Loose Entity)"
      mat_identity "Material" None None vzero s1'
  ∧ ∀ s2, load_mesh_objects fuel' cfg dedub_type s1' = Ok s2 →
          component_stats s2 = [].
Proof.
  intros Hskip0 Hstats0 Hnames [Hst1 Hsk1]%write_duplicateable_groups_keys
    Hskip1 Hstats1.
  assert (∀ s2,
            write_entities fuel' cfg (model_entities cfg) "_(Loose Entity)"
              mat_identity "Material" None None vzero s1' = Ok s2 →
            component_stats s2 = []) as Hempty.
  { intros s2 [_ Hst2]%write_entities_frame_stats.
    rewrite Hst2; [congruence| |done].
    intros k. rewrite Hskip1. intros [Hk|Hk]%Hsk1; [|by apply Hnames].
    rewrite Hskip0, lookup_empty in Hk. by destruct Hk. }
  assert (load_mesh_objects fuel' cfg dedub_type s1'
          = write_entities fuel' cfg (model_entities cfg) "_(Loose Entity)"
              mat_identity "Material" None None vzero s1') as Heq.
  { unfold load_mesh_objects.
    destruct (write_entities _ _ _ _ _ _ _ _ _ _) as [s2| |] eqn:Hrun;
      [|done..].
    rewrite bind_Ok, (Hempty s2) by done. done. }
  split; [done|]. intros s2. rewrite Heq. apply Hempty.
Qed.

(** ** Malformed tessellations *)

Lemma getitem_ge {A} e (l : list A) i :
  length l ≤ i → getitem e l i = Raise e.
Proof.
  intros Hi. unfold getitem. by rewrite lookup_ge_None_2.
Qed.

Lemma write_triangle_out_of_range mapping uvs smooth_edge mat_number face
    acc :
  ¬ triangle_in_range (length mapping) face →
  write_triangle mapping uvs smooth_edge mat_number face acc
  = Raise KeyError.
Proof.
  destruct face as [[f0 f1] f2]. unfold triangle_in_range. cbn.
  intros Hout. unfold write_triangle.
  destruct (decide (f2 < length mapping)) as [H2|H2];
    [|by rewrite getitem_ge by lia].
  destruct (getitem_lt KeyError mapping f2 H2) as [m2 Hm2].
  rewrite Hm2, bind_Ok.
  destruct (decide (f0 < length mapping)) as [H0|H0].
  - assert (length mapping ≤ f1) as H1 by lia.
    destruct (getitem_lt KeyError mapping f0 H0) as [m0 Hm0].
    case_decide; rewrite ?Hm2, ?Hm0, ?bind_Ok;
      by rewrite (getitem_ge KeyError mapping f1) by lia.
  - case_decide; rewrite ?Hm2, ?bind_Ok;
      by rewrite (getitem_ge KeyError mapping f0) by lia.
Qed.

Lemma enumerate_zip_mapped t sn vt :
  ∃ uvs sn' vt' mapping,
    enumerate_zip (tess_vs t) 0 (tess_uvs t) sn vt [] = (uvs, sn', vt', mapping)
    ∧ length mapping = mapped_vertices t
    ∧ length mapping ≤ length uvs.
Proof.
  unfold mapped_vertices. destruct (tess_uvs t) as [|uv uvs0] eqn:Huvs.
  - destruct (tess_vs t); cbn; eexists _, _, _, _; by split_and!.
  - destruct (enumerate_zip_length (tess_vs t) 0 (uv :: uvs0) sn vt [])
      as (uvs & sn' & vt' & mapping & Hzip & Hm & Hu).
    { right. cbn. lia. }
    eexists _, _, _, _. split; [done|]. cbn in *. lia.
Qed.

(** One face of [write_mesh_data] never raises [IndexError]: it returns
    when every triangle of the tessellation refers to vertices that got an
    entry in [mapping] (all the vertices, or none if the tessellation has
    no uv), and raises [KeyError] otherwise. *)
Theorem write_face_outcome cfg default_material f acc :
  let t := f_tessfaces f (face_st_scale cfg default_material f) in
  (Forall (triangle_in_range (mapped_vertices t)) (tess_tri t) →
   ∃ acc', write_face cfg default_material f acc = Ok acc')
  ∧ (Exists (fun face => ¬ triangle_in_range (mapped_vertices t) face)
       (tess_tri t) →
     write_face cfg default_material f acc = Raise KeyError).
Proof.
  intros t. unfold write_face. fold t.
  destruct (keep_offset_getitem _ (mats acc)) as [mat_number mats'].
  destruct (enumerate_zip_mapped t (seen acc) (verts acc))
    as (uvs & sn' & vt' & mapping & -> & <- & Hu).
  match goal with
  | |- context [for_each _ (tess_tri t) ?a0] => generalize a0
  end.
  induction (tess_tri t) as [|face tris IH]; intros a0.
  { split; [by eexists|by intros ?%Exists_nil]. }
  cbn [for_each].
  destruct (decide (triangle_in_range (length mapping) face)) as [Hin|Hout].
  - destruct face as [[f0 f1] f2]. destruct Hin as (H0 & H1 & H2).
    cbn in H0, H1, H2.
    destruct (write_triangle_total mapping uvs
                (existsb id (f_edges_smooth f)) mat_number f0 f1 f2 a0)
      as (a1 & Hrun & _); [done..|].
    rewrite Hrun, !bind_Ok. split.
    + intros [_ ?]%Forall_cons. by apply IH.
    + intros [Hbad|?]%Exists_cons; [|by apply IH].
      destruct Hbad. by split_and!.
  - rewrite write_triangle_out_of_range by done.
    split; [by intros [? _]%Forall_cons|done].
Qed.

(** ** Instancing by vertices keeps the count of occurrences *)

Lemma defaultdict_append_size {K A} `{!EqDecision K} (k : K) (a : A) d :
  length (concat (defaultdict_append k a d).*2) = S (length (concat d.*2)).
Proof.
  induction d as [|[k' v] d IH]; cbn; [done|].
  case_decide; cbn; rewrite ?length_app; cbn; rewrite ?IH; lia.
Qed.

Lemma get_orientations_size v :
  length (concat (get_orientations v).*2) = length v.
Proof.
  induction v as [|t v IH] using rev_ind; [done|].
  rewrite get_orientations_snoc, defaultdict_append_size, IH, length_app.
  cbn. lia.
Qed.

Lemma cluster_offsets_length locs :
  length (cluster_offsets locs) = length locs.
Proof. destruct locs; [done|]. cbn. by rewrite length_fmap. Qed.

(** For a component written as a group, [instance_group_dupli_vert]
    instances every recorded occurrence exactly once: the point meshes it
    adds to [bpy.data.meshes] have, taken together, one vertex per
    occurrence of the key, and no cluster is empty. *)
Theorem instance_group_dupli_vert_count name default_material
    (stats : Stats) s :
  is_Some (group_written s !! (name, default_material)) →
  ∃ s' dmes,
    instance_group_dupli_vert name default_material stats s = Ok s'
    ∧ bpy_meshes s' = bpy_meshes s ++ dmes
    ∧ Forall (fun dme => me_vertices dme ≠ []) dmes
    ∧ length (concat (me_vertices <$> dmes))
      = length (defaultdict_get (name, default_material) stats).
Proof.
  intros Hg. unfold instance_group_dupli_vert.
  set (v := defaultdict_get (name, default_material) stats).
  assert (Forall (fun cl => cl.2 ≠ []) (get_orientations v)) as Hne.
  { apply Forall_forall. intros [key locs] Hin.
    by apply get_orientations_entry in Hin as [_ ?]. }
  destruct (write_dupli_vert_meshes name default_material
              (get_orientations v) s Hg Hne)
    as (s' & dmes & Hrun & _ & Hmes & Hverts).
  exists s', dmes. split_and!; [done..| |].
  - apply Forall_forall. intros dme Hdme.
    apply (list_elem_of_fmap_2 me_vertices) in Hdme.
    rewrite Hverts in Hdme.
    apply list_elem_of_fmap in Hdme as ([key locs] & -> & Hin).
    rewrite Forall_forall in Hne. specialize (Hne _ Hin). cbn in *.
    intros Hnil. apply Hne. apply (f_equal length) in Hnil.
    rewrite cluster_offsets_length in Hnil. by destruct locs.
  - rewrite Hverts, <-(get_orientations_size v).
    clear. induction (get_orientations v) as [|[key locs] cl IH]; [done|].
    cbn. rewrite !length_app, IH, cluster_offsets_length. done.
Qed.

(** ** Referential integrity is kept by every pass *)

Lemma object_ok_mono nm no nc nm' no' nc' o :
  nm ≤ nm' → no ≤ no' → nc ≤ nc' →
  object_ok nm no nc o → object_ok nm' no' nc' o.
Proof.
  intros ??? (Hd & Hp & Hc). split_and!.
  - intros m ?%Hd. lia.
  - intros p ?%Hp. lia.
  - intros c ?%Hc. lia.
Qed.

Lemma Forall_alter_preserve {A} (P : A → Prop) (f : A → A) h l :
  (∀ x, P x → P (f x)) → Forall P l → Forall P (alter f h l).
Proof.
  intros Hf Hl. revert h.
  induction Hl as [|x l Hx Hl IH]; intros [|h]; csimpl;
    [constructor..| |]; constructor; auto.
Qed.

Lemma links_ok_mono no no' l : no ≤ no' → links_ok no l → links_ok no' l.
Proof.
  intros ? [? Hl]. split; [done|]. eapply Forall_impl; [done|]. cbn. lia.
Qed.

(** Linking objects that were just made. *)
Lemma links_ok_app no no' l news :
  no ≤ no' →
  links_ok no l → NoDup news → Forall (fun h => no ≤ h < no') news →
  links_ok no' (l ++ news).
Proof.
  intros Hle [Hnd Hl] Hnews Hfresh. rewrite Forall_forall in Hl, Hfresh.
  split.
  - apply NoDup_app. split_and!; [done| |done].
    intros h ?%Hl ?%Hfresh. lia.
  - apply Forall_app. split; apply Forall_forall.
    + intros h ?%Hl. lia.
    + intros h ?%Hfresh. lia.
Qed.

Lemma Forall_alter_impl {A} (P Q : A → Prop) (f : A → A) h l :
  (∀ x, P x → Q x) → (∀ x, P x → Q (f x)) →
  Forall P l → Forall Q (alter f h l).
Proof.
  intros HPQ Hf Hl. revert h.
  induction Hl as [|x l Hx Hl IH]; intros [|h]; csimpl;
    [constructor..| |]; constructor; auto.
  eapply Forall_impl; [done|]. auto.
Qed.

(** Settles [object_ok] of an object that is given in full or is an
    attribute assignment on a well-formed object. *)
Ltac object_tac :=
  repeat match goal with
         | H : object_ok _ _ _ _ |- _ => destruct H as (? & ? & ?)
         end;
  unfold object_ok; cbn; split_and!; intros; simplify_eq;
  repeat match goal with
         | H : ∀ m, ?x = Some m → _, E : ?x = Some _ |- _ =>
             specialize (H _ E)
         end;
  try done; try lia; eauto.

(** Settles [scene_ok] of a state given as a record over a state [s] with
    [scene_ok s] destructed in the context. *)
Ltac lengths_tac :=
  repeat first [rewrite length_alter | rewrite length_app]; cbn [length].

Ltac objects_tac H :=
  repeat first
    [ apply Forall_alter_preserve; [intros ? ?; solve [object_tac]|]
    | apply Forall_app_2
    | apply Forall_cons_2; [solve [object_tac]|]
    | apply Forall_nil_2
    | solve [eapply Forall_impl; [exact H|];
             intros ? ?; eapply object_ok_mono; [..|eassumption]; lia] ].

Lemma write_mesh_data_scene cfg entities name default_material s me alpha
    s' :
  scene_ok s →
  write_mesh_data cfg entities name default_material s = Ok ((me, alpha), s') →
  scene_ok s'
  ∧ (∀ m, me = Some m → m < length (bpy_meshes s'))
  ∧ bpy_objects s' = bpy_objects s
  ∧ bpy_collections s' = bpy_collections s.
Proof.
  intros (Hobjs & Hctx & Hcolls & Hcache & Hgw & Hcams).
  unfold write_mesh_data.
  destruct (component_meshes s !! (name, default_material))
    as [[me0 alpha0]|] eqn:Hc.
  { intros; simplify_eq. split_and!; [done| |done..].
    intros m [= <-]. by apply (Hcache _ _ Hc). }
  destruct (for_each _ _ _) as [acc| |]; cbn; try done.
  case_decide; [intros; simplify_eq; by split_and!|].
  destruct (for_each _ _ _) as [slots| |]; cbn; try done.
  intros; simplify_eq. cbn. split_and!; [|intros m [= <-]; lengths_tac; lia|done..].
  unfold scene_ok. cbn. lengths_tac. split_and!; try done.
  - objects_tac Hobjs.
  - apply map_Forall_insert_2; [cbn; lia|].
    eapply map_Forall_impl; [done|]. cbn. intros; lia.
Qed.

Lemma links_ok_snoc no l h :
  links_ok no l → h < no → h ∉ l → links_ok no (l ++ [h]).
Proof.
  intros [Hnd Hl] Hh Hnew. split.
  - apply NoDup_app. split_and!; [done| |apply NoDup_singleton].
    intros x Hx ->%list_elem_of_singleton. done.
  - apply Forall_app. split; [done|]. by repeat constructor.
Qed.

Lemma links_fresh no l : links_ok no l → no ∉ l.
Proof.
  intros [_ Hl] Hin. rewrite Forall_forall in Hl. specialize (Hl _ Hin). lia.
Qed.

Ltac colls_tac H :=
  eapply Forall_impl; [exact H|]; cbn; intros ? ?;
  eapply links_ok_mono; [|eassumption]; lia.

Ltac cams_tac H :=
  eapply Forall_impl; [exact H|]; cbn; intros; lia.

Lemma objects_getitem_lt name s p :
  objects_getitem name s = Ok p → p < length (bpy_objects s).
Proof.
  unfold objects_getitem.
  destruct (find_name ob_name name (bpy_objects s)) as [h|] eqn:Hfind;
    [|done].
  intros [= <-]. apply find_name_lookup in Hfind as (o & Ho & _).
  by eapply lookup_lt_Some.
Qed.

(** Settles the parts of [scene_ok] that a pass does not touch, and the
    objects. *)
Ltac scene_tac Hobjs Hctx Hcolls Hcams :=
  unfold scene_ok; cbn; lengths_tac; split_and!; try done;
  try first [ solve [objects_tac Hobjs]
            | solve [eapply links_ok_mono; [|exact Hctx]; lia]
            | solve [colls_tac Hcolls]
            | solve [cams_tac Hcams] ].

(** The object of a node, before it is linked. *)
Lemma write_node_scene name parent_transform me alpha nested_count s :
  scene_ok s →
  (∀ m, me = Some m → m < length (bpy_meshes s)) →
  let r := write_node name parent_transform me alpha nested_count s in
  scene_ok r.2
  ∧ r.1.1 < length (bpy_objects r.2)
  ∧ ¬ (r.1.1 ∈ context_collection r.2)
  ∧ bpy_collections r.2 = bpy_collections s
  ∧ length (bpy_meshes r.2) = length (bpy_meshes s).
Proof.
  intros (Hobjs & Hctx & Hcolls & Hcache & Hgw & Hcams) Hme.
  pose proof (links_fresh _ _ Hctx) as Hfresh.
  unfold write_node. case_match.
  - destruct (alpha_is_partial alpha); cbn; lengths_tac.
    all: split_and!; [|lia|done..].
    all: scene_tac Hobjs Hctx Hcolls Hcams.
  - destruct me as [m|], (alpha_is_partial alpha); cbn; lengths_tac.
    all: split_and!; [|lia| |done..].
    all: try scene_tac Hobjs Hctx Hcolls Hcams.
    all: try done.
    all: try (rewrite elem_of_app, list_elem_of_singleton; intros [?|?];
              [done|lia]).
    all: apply (links_ok_app (length (bpy_objects s)));
      [lia|done|apply NoDup_singleton|repeat constructor; lia].
Qed.

Lemma nest_node_scene ob parent_transform parent_name parent_location
    nested_count hide_empty s s' :
  scene_ok s → ob < length (bpy_objects s) → ob ∉ context_collection s →
  nest_node ob parent_transform parent_name parent_location nested_count
    hide_empty s = Ok s' →
  scene_ok s'
  ∧ length (bpy_objects s') = length (bpy_objects s)
  ∧ length (bpy_meshes s') = length (bpy_meshes s)
  ∧ bpy_collections s' = bpy_collections s.
Proof.
  intros (Hobjs & Hctx & Hcolls & Hcache & Hgw & Hcams) Hob Hnew.
  assert (links_ok (length (bpy_objects s)) (context_collection s ++ [ob]))
    as Hctx' by by apply links_ok_snoc.
  unfold nest_node. destruct parent_name as [pn|]; cbn.
  - case_decide; cbn.
    + intros; simplify_eq. case_bool_decide; cbn; lengths_tac.
      all: split_and!; [|done..].
      all: scene_tac Hobjs Hctx Hcolls Hcams.
    + destruct (objects_getitem pn s) as [p| |] eqn:Hp; cbn; try done.
      apply objects_getitem_lt in Hp.
      intros; simplify_eq. case_bool_decide; cbn; lengths_tac.
      all: split_and!; [|done..].
      all: scene_tac Hobjs Hctx Hcolls Hcams.
  - intros; simplify_eq. case_bool_decide; cbn; lengths_tac.
    all: split_and!; [|done..].
    all: scene_tac Hobjs Hctx Hcolls Hcams.
Qed.

Lemma objects_new_scene name s :
  scene_ok s → scene_ok (objects_new name None s).2.
Proof.
  intros (Hobjs & Hctx & Hcolls & Hcache & Hgw & Hcams).
  unfold objects_new. scene_tac Hobjs Hctx Hcolls Hcams.
Qed.

Lemma write_entities_scene fuel cfg entities name parent_transform
    default_material etype parent_name parent_location s s' :
  scene_ok s →
  write_entities fuel cfg entities name parent_transform default_material
    etype parent_name parent_location s = Ok s' →
  scene_ok s'.
Proof.
  revert entities name parent_transform default_material etype parent_name
    parent_location s s'.
  induction fuel as [|fuel IH]; intros entities name parent_transform
    default_material etype parent_name parent_location s s' Hs; [done|].
  cbn [write_entities]. case_match.
  { intros; simplify_eq. destruct Hs as (? & ? & ? & ? & ? & ?).
    by split_and!. }
  destruct (write_mesh_data _ _ _ _ _) as [[[me alpha] s1]| |] eqn:Hmesh;
    cbn; try done.
  apply write_mesh_data_scene in Hmesh as (Hs1 & Hme & _); [|done].
  pose proof (write_node_scene name parent_transform me alpha
                (length (e_groups entities) + length (e_instances entities))
                s1 Hs1 Hme) as (Hs2 & Hob & Hnew & _).
  destruct (write_node _ _ _ _ _ _) as [[ob hide_empty] s2].
  cbn in Hs2, Hob, Hnew.
  destruct (nest_node _ _ _ _ _ _ _) as [s3| |] eqn:Hnest; cbn; try done.
  apply nest_node_scene in Hnest as (Hs3 & _); [|done..].
  destruct (for_each _ (e_groups entities) _) as [s4| |] eqn:Hgroups;
    cbn; try done.
  intros Hinstances.
  apply (for_each_inv _ scene_ok) in Hgroups; [|clear Hgroups|done].
  2:{ intros group sa sb _ Hsa. unfold write_group_child.
      destruct (g_hidden group); [intros; by simplify_eq|].
      destruct (layer_skipped _ _); [intros; by simplify_eq|].
      cbn. apply IH. by apply objects_new_scene. }
  apply (for_each_inv _ scene_ok) in Hinstances; [done| |done].
  intros instance sa sb _ Hsa. unfold write_instance_child.
  destruct (i_hidden instance); [intros; by simplify_eq|].
  destruct (layer_skipped _ _); [intros; by simplify_eq|].
  destruct (lookup_component _ _) as [cdef| |]; cbn; try done.
  by apply IH.
Qed.

Ltac fresh_tac :=
  let Hin := fresh in
  intros Hin;
  repeat (apply elem_of_cons in Hin as [?|Hin]; [lia|]);
  by apply elem_of_nil in Hin.

Ltac nodup_tac :=
  repeat (apply NoDup_cons_2; [fresh_tac|]); apply NoDup_nil_2.

Ltac links_tac H n :=
  rewrite <-?app_assoc;
  first [ solve [eapply links_ok_mono; [|exact H]; lia]
        | solve [apply (links_ok_app n);
                 [lia|exact H|nodup_tac|repeat constructor; lia]] ].

Ltac collections_tac H n :=
  repeat first
    [ solve [colls_tac H]
    | apply Forall_app_2
    | apply Forall_cons_2; [by split; constructor|]
    | apply Forall_nil_2
    | apply (Forall_alter_impl
               (fun c => links_ok n (coll_objects c)));
      [ intros ? ?; eapply links_ok_mono; [|eassumption]; lia
      | let Hc := fresh in intros ? Hc; cbn; links_tac Hc n
      | exact H ] ].

Ltac map_tac H :=
  repeat first
    [ apply map_Forall_insert_2; [cbn; lia|]
    | solve [eapply map_Forall_impl; [exact H|]; cbn; intros; lia] ].

(** Settles [scene_ok] of a state given as a record over [s], from the
    parts of [scene_ok s]. *)
Ltac scene_full_tac s Hobjs Hctx Hcolls Hcache Hgw Hcams :=
  unfold scene_ok; cbn; lengths_tac; split_and!;
  [ objects_tac Hobjs
  | links_tac Hctx (length (bpy_objects s))
  | collections_tac Hcolls (length (bpy_objects s))
  | map_tac Hcache
  | map_tac Hgw
  | cams_tac Hcams ].

Lemma component_def_as_group_scene fuel cfg entities name parent_transform
    default_material etype group s s' :
  scene_ok s →
  component_def_as_group fuel cfg entities name parent_transform
    default_material etype group s = Ok s' →
  scene_ok s'.
Proof.
  revert entities name parent_transform default_material etype s s'.
  induction fuel as [|fuel IH]; intros entities name parent_transform
    default_material etype s s' Hs; [done|].
  cbn [component_def_as_group].
  destruct (_ && _) eqn:Houter; [intros; by simplify_eq|]. clear Houter.
  match goal with
  | |- context [key_skipped _ ?st] => set (s0 := st)
  end.
  assert (scene_ok s0) as Hs0.
  { destruct Hs as (? & ? & ? & ? & ? & ?). unfold s0.
    case_bool_decide; [by split_and!|by split_and!]. }
  clearbody s0. clear s Hs. rename s0 into s, Hs0 into Hs.
  destruct (_ && _) eqn:Hinst.
  { pose proof Hs as (Hobjs & Hctx & Hcolls & Hcache & Hgw & Hcams).
    unfold instance_object_or_group.
    destruct (group_written s !! _) as [g|] eqn:Hg.
    - apply Hgw in Hg. cbn. intros; simplify_eq.
      scene_full_tac s Hobjs Hctx Hcolls Hcache Hgw Hcams.
    - destruct (component_meshes s !! _) as [[me alpha]|] eqn:Hme; [|done].
      apply Hcache in Hme. cbn in Hme.
      destruct alpha; cbn; intros; simplify_eq;
        scene_full_tac s Hobjs Hctx Hcolls Hcache Hgw Hcams. }
  destruct (write_mesh_data _ _ _ _ _) as [[[me alpha] s1]| |] eqn:Hmesh;
    cbn; try done.
  apply write_mesh_data_scene in Hmesh as (Hs1 & Hme & _); [|done].
  match goal with
  | |- context [for_each _ (e_groups entities) ?st] => set (s2 := st)
  end.
  assert (scene_ok s2) as Hs2.
  { pose proof Hs1 as (Hobjs & Hctx & Hcolls & Hcache & Hgw & Hcams).
    unfold s2. destruct me as [m|]; [|done]. specialize (Hme m eq_refl).
    destruct alpha; cbn;
      scene_full_tac s1 Hobjs Hctx Hcolls Hcache Hgw Hcams. }
  clearbody s2.
  destruct (for_each _ (e_groups entities) _) as [s3| |] eqn:Hgroups;
    cbn; try done.
  intros Hinstances.
  apply (for_each_inv _ scene_ok) in Hgroups; [|clear Hgroups|done].
  2:{ intros g sa sb _ Hsa. cbv beta.
      destruct (layer_skipped _ _); [intros; by simplify_eq|]. by apply IH. }
  apply (for_each_inv _ scene_ok) in Hinstances; [done| |done].
  intros i sa sb _ Hsa. cbv beta.
  destruct (layer_skipped _ _); [intros; by simplify_eq|].
  destruct (lookup_component _ _) as [cdef| |]; cbn; try done.
  by apply IH.
Qed.

Lemma write_group_scene fuel cfg i kv s s' :
  scene_ok s → write_group fuel cfg i kv s = Ok s' → scene_ok s'.
Proof.
  intros Hs. unfold write_group, lookup_component.
  destruct kv as [[name mat] v]. cbn.
  destruct (component_depth cfg !! name) as [d|]; cbn; [|done].
  destruct (skp_components cfg !! name) as [cdef|]; cbn; [|done].
  case_decide; [intros; by simplify_eq|].
  case_decide; [|intros; by simplify_eq].
  destruct (if reuse_group cfg then _ else _) as [existing|] eqn:Hreuse.
  { destruct (reuse_group cfg); [|done].
    apply find_name_lookup in Hreuse as (c & Hc%lookup_lt_Some & _).
    pose proof Hs as (Hobjs & Hctx & Hcolls & Hcache & Hgw & Hcams).
    intros; simplify_eq.
    scene_full_tac s Hobjs Hctx Hcolls Hcache Hgw Hcams. }
  clear Hreuse.
  match goal with
  | |- context [component_def_as_group _ _ _ _ _ _ _ _ ?st] => set (s1 := st)
  end.
  assert (scene_ok s1) as Hs1.
  { pose proof Hs as (Hobjs & Hctx & Hcolls & Hcache & Hgw & Hcams).
    unfold s1. scene_full_tac s Hobjs Hctx Hcolls Hcache Hgw Hcams. }
  assert (length (bpy_collections s) < length (bpy_collections s1))
    as Hgroup.
  { unfold s1. cbn. lengths_tac. lia. }
  assert (mark_outer (Some ET_outer) (name, mat) s1
          = set_component_skip
              (<[(name, mat) := SkipTrue]> (component_skip s1)) s1) as Hmark.
  { unfold mark_outer. by rewrite bool_decide_eq_true_2. }
  clearbody s1.
  destruct (component_def_as_group _ _ _ _ _ _ _ _ _) as [s2| |] eqn:Hrun;
    cbn; [|done..].
  pose proof (component_def_as_group_scene _ _ _ _ _ _ _ _ _ _ Hs1 Hrun)
    as Hs2.
  apply component_def_as_group_frame in Hrun as [(_ & _ & ->)|Hframe].
  - pose proof Hs1 as (Hobjs & Hctx & Hcolls & Hcache & Hgw & Hcams).
    intros; simplify_eq.
    scene_full_tac s1 Hobjs Hctx Hcolls Hcache Hgw Hcams.
  - destruct Hframe as (_ & _ & _ & _ & Hnames).
    apply (f_equal length) in Hnames. rewrite !length_fmap in Hnames.
    rewrite Hmark in Hnames. cbn in Hnames.
    pose proof Hs2 as (Hobjs & Hctx & Hcolls & Hcache & Hgw & Hcams).
    intros; simplify_eq.
    scene_full_tac s2 Hobjs Hctx Hcolls Hcache Hgw Hcams.
Qed.

Lemma write_duplicateable_groups_scene fuel cfg s s' :
  scene_ok s → write_duplicateable_groups fuel cfg s = Ok s' → scene_ok s'.
Proof.
  intros Hs. unfold write_duplicateable_groups.
  destruct (analyze_entities _ _ _ _ _ _ _ _ _) as [stats| |]; cbn;
    [|done..].
  apply (for_each_inv _ scene_ok); [|done].
  intros i sa sb _ Hsa. apply (for_each_inv _ scene_ok); [|done].
  intros kv sc sd _. apply write_group_scene.
Qed.

Lemma write_dupli_vert_scene name default_material cluster s s' :
  scene_ok s →
  write_dupli_vert name default_material cluster s = Ok s' → scene_ok s'.
Proof.
  intros Hs. pose proof Hs as (Hobjs & Hctx & Hcolls & Hcache & Hgw & Hcams).
  destruct cluster as [[scale rot] locs].
  unfold write_dupli_vert, instance_object_or_group.
  destruct (getitem _ _ _) as [main_loc| |]; cbn; [|done..].
  destruct (group_written s !! _) as [g|] eqn:Hg.
  - apply Hgw in Hg. cbn. intros; simplify_eq.
    scene_full_tac s Hobjs Hctx Hcolls Hcache Hgw Hcams.
  - destruct (component_meshes s !! _) as [[me alpha]|] eqn:Hme; [|done].
    apply Hcache in Hme. cbn in Hme.
    destruct alpha; cbn; intros; simplify_eq;
      scene_full_tac s Hobjs Hctx Hcolls Hcache Hgw Hcams.
Qed.

Lemma write_camera_scene cfg camera name s :
  scene_ok s → scene_ok (write_camera cfg camera name s).2.
Proof.
  intros (Hobjs & Hctx & Hcolls & Hcache & Hgw & Hcams).
  unfold write_camera. destruct (sc_orientation camera) as [[pos target] up].
  destruct (eq_False (sc_fov camera)); cbn.
  all: unfold scene_ok; cbn; lengths_tac; split_and!;
    [ objects_tac Hobjs
    | links_tac Hctx (length (bpy_objects s))
    | collections_tac Hcolls (length (bpy_objects s))
    | map_tac Hcache
    | map_tac Hgw
    | apply Forall_app_2; [cams_tac Hcams|repeat constructor; cbn; lia] ].
Qed.

Lemma initial_state_scene : scene_ok initial_state.
Proof.
  unfold scene_ok, initial_state. cbn.
  split_and!;
    [apply Forall_nil_2|split; constructor|apply Forall_nil_2
    |apply map_Forall_empty|apply map_Forall_empty|apply Forall_nil_2].
Qed.

(** The scene keeps its referential integrity through an import: from a
    state in which every handle refers to an existing datablock (as in the
    state [load] starts from), any sequence of returning calls of the
    importer's methods leads to a state in which every object's mesh,
    parent and instanced collection exist, every cached mesh, recorded
    group and camera object exists, and each collection (the context
    collection and every group) holds existing objects, none of them
    twice. *)
Theorem session_keeps_scene_ok cfg s s' :
  scene_ok s → rtc (session_step cfg) s s' → scene_ok s'.
Proof.
  intros Hs Hsteps. induction Hsteps as [s|s1 s2 s3 Hstep _ IH]; [done|].
  apply IH. clear IH. destruct Hstep as
    [entities name dm [me alpha] s1 s2 Hrun
    |fuel entities name pt dm etype pn pl s1 s2 Hrun
    |fuel entities name pt dm etype group s1 s2 Hrun
    |fuel s1 s2 Hrun
    |name dm stats s1 s2 Hrun
    |camera name s1].
  - by apply write_mesh_data_scene in Hrun as [? _].
  - by eapply write_entities_scene.
  - by eapply component_def_as_group_scene.
  - by eapply write_duplicateable_groups_scene.
  - revert Hrun. unfold instance_group_dupli_vert.
    apply (for_each_inv _ scene_ok); [|done].
    intros cluster sa sb _. apply write_dupli_vert_scene.
  - by apply write_camera_scene.
Qed.

End Importer.

(** * Materials: [write_materials]

    The materials of the SketchUp model become materials of [bpy.data];
    [self.materials] and [self.materials_scales] are the two tables the
    mesh builder reads.  A colour is four integers, a texture has a name
    and the four [dimensions] of the reader.  The temporary file a texture
    goes through is not modelled: the image of a texture node is the
    texture it was loaded from.  Nor is the switch of the render engine. *)

Section Materials.

(** The renaming [bpy.data] applies to a new ID, [math.pow], [round(x, 2)],
    the names of the nodes of a material once [use_nodes] is set, and the
    name of a new [ShaderNodeTexImage] node. *)
Variable unique_name : list string → string → string.
Variable math_pow : float → float → float.
Variable round2 : float → float.
Variable default_nodes : list string.
Variable image_node : string.

Record SkpTexture := mkSkpTexture {
  tex_name : string;
  tex_dimensions : float * float * float * float;
}.

Record SkpMaterial := mkSkpMaterial {
  skm_name : string;
  skm_color : Z * Z * Z * Z;
  skm_texture : option SkpTexture;
}.

(** A material of [bpy.data.materials]. *)
Record Material := mkMaterial {
  ma_name : string;
  ma_diffuse_color : float * float * float * float;
  ma_blend_method : option string;      (* [None]: left as it was made *)
  ma_nodes : option (list string);      (* [None]: no node tree *)
  ma_alpha : option float;              (* default value of the shader's alpha *)
  ma_image : option SkpTexture;         (* image of the texture node *)
}.

(** What the mesh builder reads of a material. *)
Definition to_BMat (m : Material) : BMat := mkBMat (ma_name m) (ma_nodes m).

(** [bpy.data.materials[name]] *)
Definition materials_getitem (name : string) (bpy_materials : list Material)
  : result Material :=
  match list_find (fun m => ma_name m = name) bpy_materials with
  | Some (_, m) => Ok m
  | None => Raise KeyError
  end.

(** [x / 255.0] of an integer colour channel. *)
Definition channel (x : Z) : float :=
  (PrimFloat.of_uint63 (Uint63.of_Z x) / 255)%float.

(** [dimensions[2:]] *)
Definition texture_scale (t : SkpTexture) : float * float :=
  let '(_, _, s_scale, t_scale) := tex_dimensions t in (s_scale, t_scale).

(** The state of the loop: [self.materials], [self.materials_scales] and
    [bpy.data.materials]. *)
Record MatState := mkMatState {
  ms_materials : gmap string Material;
  ms_materials_scales : gmap string (float * float);
  ms_bpy_materials : list Material;
}.

(** [2.2] and [.8] as the floats they denote. *)
Definition gamma : float := 0x1.199999999999ap+1%float.
Definition grey : float := 0x1.999999999999ap-1%float.

(** The material made for a SketchUp material that [bpy.data] lacks. *)
Definition new_material (names : list string) (mat : SkpMaterial)
  : Material :=
  let '(r, g, b, a) := skm_color mat in
  let alpha := round2 (channel a) in
  mkMaterial (unique_name names (skm_name mat))
    (math_pow (channel r) gamma, math_pow (channel g) gamma,
     math_pow (channel b) gamma, alpha)
    (if PrimFloat.ltb alpha 1 then Some "BLEND" else None)
    (Some (default_nodes
           ++ match skm_texture mat with
              | Some _ => [image_node]
              | None => []
              end))
    (Some alpha)
    (skm_texture mat).

(** One round of [for mat in materials]. *)
Definition write_material (reuse_material : bool) (mat : SkpMaterial)
    (s : MatState) : result MatState :=
  let name := skm_name mat in
  let scales :=
    <[name := match skm_texture mat with
              | Some t => texture_scale t
              | None => (1, 1)%float
              end]> (ms_materials_scales s) in
  let names := ma_name <$> ms_bpy_materials s in
  if reuse_material && negb (bool_decide (name ∈ names))
  then
    (* [bmat.node_tree.nodes['Principled BSDF']] *)
    if bool_decide ("Principled BSDF" ∈ default_nodes)
    then
      let bmat := new_material names mat in
      Ok (mkMatState (<[name := bmat]> (ms_materials s)) scales
            (ms_bpy_materials s ++ [bmat]))
    else Raise KeyError
  else
    bmat ← materials_getitem name (ms_bpy_materials s);
    Ok (mkMatState (<[name := bmat]> (ms_materials s)) scales
          (ms_bpy_materials s)).

Definition write_materials (reuse_material : bool)
    (materials : list SkpMaterial) (bpy_materials : list Material)
  : result MatState :=
  let names := ma_name <$> bpy_materials in
  s ← (if reuse_material && bool_decide ("Material" ∈ names)
       then
         bmat ← materials_getitem "Material" bpy_materials;
         Ok (mkMatState {["Material" := bmat]} ∅ bpy_materials)
       else
         let bmat :=
           mkMaterial (unique_name names "Material")
             (grey, grey, grey, 1%float) None (Some default_nodes) None
             None in
         Ok (mkMatState {["Material" := bmat]} ∅ (bpy_materials ++ [bmat])));
  for_each (write_material reuse_material) materials s.


(** ** Properties *)

Lemma materials_getitem_Ok name bpy_materials :
  name ∈ ma_name <$> bpy_materials →
  ∃ m, materials_getitem name bpy_materials = Ok m
       ∧ ma_name m = name ∧ m ∈ bpy_materials.
Proof.
  intros (m & Hname & Hin)%list_elem_of_fmap. unfold materials_getitem.
  destruct (list_find _ _) as [[i m']|] eqn:Hfind.
  - apply list_find_Some in Hfind as (Hi & Hm' & _).
    exists m'. split_and!; [done..|]. by eapply list_elem_of_lookup_2.
  - apply list_find_None in Hfind. rewrite Forall_forall in Hfind.
    by destruct (Hfind m Hin).
Qed.

Lemma materials_getitem_Raise name bpy_materials :
  name ∉ ma_name <$> bpy_materials →
  materials_getitem name bpy_materials = Raise KeyError.
Proof.
  intros Hname. unfold materials_getitem.
  destruct (list_find _ _) as [[i m']|] eqn:Hfind; [|done].
  apply list_find_Some in Hfind as (Hi & Hm' & _).
  destruct Hname. apply list_elem_of_fmap. exists m'.
  split; [done|]. by eapply list_elem_of_lookup_2.
Qed.

Lemma write_material_without_reuse mat s :
  (skm_name mat ∈ ma_name <$> ms_bpy_materials s →
   ∃ s', write_material false mat s = Ok s'
         ∧ ms_bpy_materials s' = ms_bpy_materials s)
  ∧ (skm_name mat ∉ ma_name <$> ms_bpy_materials s →
     write_material false mat s = Raise KeyError).
Proof.
  unfold write_material. cbn [andb]. split.
  - intros Hin. destruct (materials_getitem_Ok _ _ Hin) as (m & -> & _).
    rewrite bind_Ok. by eexists.
  - intros Hin. by rewrite materials_getitem_Raise.
Qed.

(** Without the option to reuse materials, [write_materials] can only
    look a SketchUp material up in [bpy.data.materials]: it makes the
    default material and nothing else, and raises [KeyError] as soon as the
    model has a material whose name [bpy.data.materials] does not hold.  It
    returns exactly when every material of the model is already there. *)
Theorem write_materials_without_reuse materials bpy_materials :
  let names := (ma_name <$> bpy_materials)
               ++ [unique_name (ma_name <$> bpy_materials) "Material"] in
  (Forall (fun mat => skm_name mat ∈ names) materials →
   ∃ s, write_materials false materials bpy_materials = Ok s
        ∧ length (ms_bpy_materials s) = S (length bpy_materials))
  ∧ (Exists (fun mat => skm_name mat ∉ names) materials →
     write_materials false materials bpy_materials = Raise KeyError).
Proof.
  intros names. unfold write_materials. cbn [andb]. rewrite bind_Ok.
  match goal with
  | |- context [for_each _ _ ?s0] => set (s := s0)
  end.
  assert (ma_name <$> ms_bpy_materials s = names) as Hnames.
  { unfold s, names. cbn. by rewrite fmap_app. }
  assert (length (ms_bpy_materials s) = S (length bpy_materials)) as Hlen.
  { unfold s. cbn. rewrite length_app. cbn. lia. }
  clearbody s. revert s Hnames Hlen. clear.
  induction materials as [|mat materials IH]; intros s Hnames Hlen.
  { split; [intros _; by exists s|by intros ?%Exists_nil]. }
  cbn [for_each].
  destruct (decide (skm_name mat ∈ names)) as [Hin|Hin].
  - rewrite <-Hnames in Hin.
    destruct (write_material_without_reuse mat s) as [(s1 & -> & Hs1) _];
      [done|].
    rewrite !bind_Ok. rewrite <-Hs1 in Hnames, Hlen. split.
    + intros [_ Hall]%Forall_cons. by apply IH.
    + intros [?|Hex]%Exists_cons; [by rewrite <-Hs1, Hnames in Hin|].
      by apply IH.
  - split; [by intros [? _]%Forall_cons|]. intros _.
    rewrite <-Hnames in Hin.
    by destruct (write_material_without_reuse mat s) as [_ ->].
Qed.

(** One round with the option to reuse materials. *)
Lemma write_material_with_reuse mat s :
  "Principled BSDF" ∈ default_nodes →
  ∃ s' m sc,
    write_material true mat s = Ok s'
    ∧ ms_bpy_materials s `prefix_of` ms_bpy_materials s'
    ∧ ms_materials s' = <[skm_name mat := m]> (ms_materials s)
    ∧ m ∈ ms_bpy_materials s'
    ∧ ms_materials_scales s' = <[skm_name mat := sc]> (ms_materials_scales s).
Proof.
  intros Hshader.
  unfold write_material. cbn [andb]. case_bool_decide as Hin; cbn [negb].
  - destruct (materials_getitem_Ok _ _ Hin) as (m & -> & _ & Hm).
    rewrite bind_Ok. eexists _, _, _. split; [done|]. cbn. by split_and!.
  - rewrite bool_decide_eq_true_2 by done.
    eexists _, _, _. split; [done|]. cbn.
    split_and!; [by apply prefix_app_r|done| |done].
    apply elem_of_app. right. by left.
Qed.

Lemma write_materials_loop materials s done_ :
  "Principled BSDF" ∈ default_nodes →
  (∀ name, is_Some (ms_materials s !! name)
           ↔ name = "Material" ∨ name ∈ skm_name <$> done_) →
  (∀ name, is_Some (ms_materials_scales s !! name)
           ↔ name ∈ skm_name <$> done_) →
  (∀ name m, ms_materials s !! name = Some m → m ∈ ms_bpy_materials s) →
  ∃ s',
    for_each (write_material true) materials s = Ok s'
    ∧ ms_bpy_materials s `prefix_of` ms_bpy_materials s'
    ∧ (∀ name, is_Some (ms_materials s' !! name)
               ↔ name = "Material" ∨ name ∈ skm_name <$> done_ ++ materials)
    ∧ (∀ name, is_Some (ms_materials_scales s' !! name)
               ↔ name ∈ skm_name <$> done_ ++ materials)
    ∧ ∀ name m, ms_materials s' !! name = Some m → m ∈ ms_bpy_materials s'.
Proof.
  intros Hshader. revert s done_.
  induction materials as [|mat materials IH]; intros s done_ Hdom Hsc Hval.
  { exists s. rewrite app_nil_r. by split_and!. }
  cbn [for_each].
  destruct (write_material_with_reuse mat s Hshader)
    as (s1 & m & sc & -> & Hpre1 & Hm1 & Hmin & Hsc1).
  rewrite bind_Ok.
  destruct (IH s1 (done_ ++ [mat])) as (s' & Hrun & Hpre & Hdom' & Hsc' & Hval').
  - intros name. rewrite Hm1, lookup_insert_is_Some, Hdom, fmap_app.
    rewrite elem_of_app, list_fmap_singleton, list_elem_of_singleton.
    destruct (decide (skm_name mat = name)) as [<-|]; [split; eauto|].
    split; [intros [?|[_ [?|?]]]; eauto; done|].
    intros [?|[?|?]]; eauto; done.
  - intros name. rewrite Hsc1, lookup_insert_is_Some, Hsc, fmap_app.
    rewrite elem_of_app, list_fmap_singleton, list_elem_of_singleton.
    destruct (decide (skm_name mat = name)) as [<-|]; [split; eauto|].
    split; [intros [?|[_ ?]]; eauto; done|].
    intros [?|?]; eauto; done.
  - intros name m'. rewrite Hm1.
    destruct (decide (skm_name mat = name)) as [->|].
    + rewrite lookup_insert_eq. by intros [= <-].
    + rewrite lookup_insert_ne by done. intros ?%Hval.
      by eapply elem_of_prefix.
  - exists s'. rewrite <-app_assoc in Hdom', Hsc'.
    split_and!; [done|by etrans|done..].
Qed.

(** With the option to reuse materials, and the shader node under the
    name the code looks it up by, [write_materials] returns: after it,
    [self.materials] holds the default material and a material for
    every material of the model, and nothing else, [self.materials_scales]
    holds a scale for every material of the model, every material of the
    table is a material of [bpy.data], and the materials [bpy.data] had are
    still there, unchanged, before the new ones. *)
Theorem write_materials_with_reuse materials bpy_materials :
  "Principled BSDF" ∈ default_nodes →
  ∃ s,
    write_materials true materials bpy_materials = Ok s
    ∧ bpy_materials `prefix_of` ms_bpy_materials s
    ∧ is_Some ((to_BMat <$> ms_materials s) !! "Material")
    ∧ (∀ name, is_Some (ms_materials s !! name)
               ↔ name = "Material" ∨ name ∈ skm_name <$> materials)
    ∧ (∀ name, is_Some (ms_materials_scales s !! name)
               ↔ name ∈ skm_name <$> materials)
    ∧ ∀ name m, ms_materials s !! name = Some m → m ∈ ms_bpy_materials s.
Proof.
  intros Hshader. unfold write_materials. cbn [andb].
  match goal with
  | |- context [mbind _ ?first] =>
      assert (∃ s0,
                first = Ok s0
                ∧ bpy_materials `prefix_of` ms_bpy_materials s0
                ∧ (∀ name, is_Some (ms_materials s0 !! name)
                           ↔ name = "Material")
                ∧ ms_materials_scales s0 = ∅
                ∧ ∀ name m, ms_materials s0 !! name = Some m →
                            m ∈ ms_bpy_materials s0)
        as (s0 & -> & Hpre & Hdom & Hsc & Hval)
  end.
  { case_bool_decide as Hin.
    - destruct (materials_getitem_Ok _ _ Hin) as (m & -> & _ & Hm).
      eexists. split; [done|]. cbn. split_and!; [done| |done|].
      + intros name. rewrite lookup_singleton_is_Some. split; by intros ->.
      + intros name m' [<- <-]%lookup_singleton_Some. done.
    - eexists. split; [done|]. cbn.
      split_and!; [by apply prefix_app_r| |done|].
      + intros name. rewrite lookup_singleton_is_Some. split; by intros ->.
      + intros name m' [<- <-]%lookup_singleton_Some.
        apply elem_of_app. right. by left. }
  rewrite bind_Ok.
  destruct (write_materials_loop materials s0 [] Hshader)
    as (s & Hrun & Hpre' & Hdom' & Hsc' & Hval').
  - intros name. rewrite Hdom. split; [by left|].
    by intros [?|?%elem_of_nil].
  - intros name. rewrite Hsc, lookup_empty.
    split; [by intros []|by intros ?%elem_of_nil].
  - done.
  - exists s. split_and!; [done|by etrans| |done..].
    rewrite lookup_fmap. apply fmap_is_Some, Hdom'. by left.
Qed.

(** One round with the option to reuse materials when the shader node
    goes by another name. *)
Lemma write_material_no_shader mat s :
  "Principled BSDF" ∉ default_nodes →
  (skm_name mat ∈ ma_name <$> ms_bpy_materials s →
   ∃ s', write_material true mat s = Ok s'
         ∧ ms_bpy_materials s' = ms_bpy_materials s)
  ∧ (skm_name mat ∉ ma_name <$> ms_bpy_materials s →
     write_material true mat s = Raise KeyError).
Proof.
  intros Hshader. unfold write_material. cbn [andb]. split.
  - intros Hin. rewrite bool_decide_eq_true_2 by done. cbn [negb].
    destruct (materials_getitem_Ok _ _ Hin) as (m & -> & _).
    rewrite bind_Ok. by eexists.
  - intros Hin. rewrite bool_decide_eq_false_2 by done. cbn [negb].
    by rewrite bool_decide_eq_false_2.
Qed.

(** The lookup of the shader node by its English name: when the nodes of
    a new material do not include ['Principled BSDF'], [write_materials]
    with the option to reuse materials raises [KeyError] as soon as the
    model has a material that [bpy.data.materials] lacks, and returns
    without making any material but the default one otherwise. *)
Theorem write_materials_shader_lookup materials bpy_materials :
  "Principled BSDF" ∉ default_nodes →
  let names := ma_name <$> bpy_materials in
  let names' := if bool_decide ("Material" ∈ names) then names
                else names ++ [unique_name names "Material"] in
  (Forall (fun mat => skm_name mat ∈ names') materials →
   ∃ s, write_materials true materials bpy_materials = Ok s
        ∧ ma_name <$> ms_bpy_materials s = names')
  ∧ (Exists (fun mat => skm_name mat ∉ names') materials →
     write_materials true materials bpy_materials = Raise KeyError).
Proof.
  intros Hshader names names'. unfold write_materials. cbn [andb].
  fold names.
  match goal with
  | |- context [mbind _ ?first] =>
      assert (∃ s0, first = Ok s0 ∧ ma_name <$> ms_bpy_materials s0 = names')
        as (s & -> & Hnames)
  end.
  { unfold names'. case_bool_decide as Hin.
    - destruct (materials_getitem_Ok _ _ Hin) as (m & -> & _).
      by eexists.
    - eexists. split; [done|]. cbn. by rewrite fmap_app. }
  rewrite bind_Ok. clearbody names'. revert s Hnames. clear -Hshader.
  induction materials as [|mat materials IH]; intros s Hnames.
  { split; [intros _; by exists s|by intros ?%Exists_nil]. }
  cbn [for_each].
  destruct (decide (skm_name mat ∈ names')) as [Hin|Hin].
  - rewrite <-Hnames in Hin.
    destruct (write_material_no_shader mat s Hshader) as [(s1 & -> & Hs1) _];
      [done|].
    rewrite !bind_Ok. rewrite <-Hs1 in Hnames. split.
    + intros [_ Hall]%Forall_cons. by apply IH.
    + intros [?|Hex]%Exists_cons; [by rewrite <-Hs1, Hnames in Hin|].
      by apply IH.
  - split; [by intros [? _]%Forall_cons|]. intros _.
    rewrite <-Hnames in Hin.
    by destruct (write_material_no_shader mat s Hshader) as [_ ->].
Qed.

End Materials.

(** * The 3D Warehouse operators

    The helpers of [ImportSketchupWarehouseGLB] and [SKPWH_OT_Search] that
    compute on strings and on the decoded JSON of the Warehouse: the slug
    of a model name, the model id of a Warehouse URL and the SketchUp
    versions a model is offered in.  Requests, downloads and the user
    interface are not modelled. *)

(** ** Python strings

    A [str] is a sequence of code points. *)
Abbreviation str := (list N).

Definition lit (s : string) : str :=
  Ascii.N_of_ascii <$> String.list_ascii_of_string s.

Definition in_range (lo hi c : N) : bool := ((lo <=? c) && (c <=? hi))%N.

(** The characters [str.strip()] removes: those [str.isspace] holds of. *)
Definition py_isspace (c : N) : bool :=
  in_range 9 13 c || in_range 28 32 c || (c =? 133)%N || (c =? 160)%N
  || (c =? 5760)%N || in_range 8192 8202 c || (c =? 8232)%N
  || (c =? 8233)%N || (c =? 8239)%N || (c =? 8287)%N || (c =? 12288)%N.

Fixpoint lstrip (s : str) : str :=
  match s with
  | c :: s' => if py_isspace c then lstrip s' else s
  | [] => []
  end.

(** [s.strip()] *)
Definition py_strip (s : str) : str := reverse (lstrip (reverse (lstrip s))).

(** [s.replace(a, b)] for one-character [a] and [b]. *)
Definition py_replace (a b : N) (s : str) : str :=
  (fun c => if decide (c = a) then b else c) <$> s.

(** ** [_slugify] *)

(** The set [[a-zA-Z0-9\- _]]. *)
Definition slug_char (c : N) : bool :=
  in_range 97 122 c || in_range 65 90 c || in_range 48 57 c
  || (c =? 45)%N || (c =? 32)%N || (c =? 95)%N.

(** [re.sub(r'[^a-zA-Z0-9\- _]+', '', name or 'Model')
      .strip().replace(' ', '-')], then [slug[:60] if slug else 'Model']:
    deleting every run of characters outside the set keeps the characters
    of the set. *)
Definition _slugify (name : option str) : str :=
  let name := match name with
              | None | Some [] => lit "Model"
              | Some n => n
              end in
  let slug := py_replace 32 45 (py_strip (filter (fun c => slug_char c) name)) in
  match slug with
  | [] => lit "Model"
  | _ => take 60 slug
  end.

(** ** Regular expressions

    The fragment of [re] the operators use: literals, greedy bounded
    repetition of a character set, concatenation and capturing groups.
    [matches r s] lists the ways [r] matches at the start of [s], each with
    the text of its groups and the rest of [s], in the order the
    backtracking matcher of [re] tries them. *)
Inductive regex :=
| RLit (l : str)
| RRep (p : N → bool) (lo hi : nat)
| RCat (r1 r2 : regex)
| RGroup (r : regex).

(** The repetitions of a set at the start of [s], longest first: the
    number of characters taken and the rest. *)
Fixpoint rep_class (p : N → bool) (hi : nat) (s : str) : list (nat * str) :=
  match hi, s with
  | S hi', c :: s' =>
      if p c
      then ((fun nr => (S nr.1, nr.2)) <$> rep_class p hi' s') ++ [(0, s)]
      else [(0, s)]
  | _, _ => [(0, s)]
  end.

Fixpoint matches (r : regex) (s : str) : list (list str * str) :=
  match r with
  | RLit l =>
      if decide (take (length l) s = l) then [([], drop (length l) s)]
      else []
  | RRep p lo hi =>
      (fun nr => ([], nr.2)) <$>
        filter (fun nr => lo ≤ nr.1) (rep_class p hi s)
  | RCat r1 r2 =>
      flat_map (fun m1 =>
          (fun m2 => (m1.1 ++ m2.1, m2.2)) <$> matches r2 m1.2)
        (matches r1 s)
  | RGroup r =>
      (fun m => (take (length s - length m.2) s :: m.1, m.2)) <$> matches r s
  end.

(** [re.match(r, s)] and [re.fullmatch(r, s)]: the first way to match,
    respectively the first that takes all of [s]. *)
Definition re_match (r : regex) (s : str) : option (list str * str) :=
  head (matches r s).
Definition re_fullmatch (r : regex) (s : str) : option (list str * str) :=
  head (filter (fun m => m.2 = []) (matches r s)).

(** [m.group(1)] *)
Definition group1 (m : list str * str) : option str := head m.1.

(** The words of a regular expression, with the text of the groups. *)
Inductive re_lang : regex → str → list str → Prop :=
| re_lit l : re_lang (RLit l) l []
| re_rep (p : N → bool) lo hi w :
    Forall (fun c => p c = true) w → lo ≤ length w ≤ hi →
    re_lang (RRep p lo hi) w []
| re_cat r1 r2 w1 w2 g1 g2 :
    re_lang r1 w1 g1 → re_lang r2 w2 g2 →
    re_lang (RCat r1 r2) (w1 ++ w2) (g1 ++ g2)
| re_group r w g : re_lang r w g → re_lang (RGroup r) w (w :: g).

(** ** [_extract_model_id] *)

(** The set [[0-9a-fA-F\-]]. *)
Definition is_hexdash (c : N) : bool :=
  in_range 48 57 c || in_range 97 102 c || in_range 65 70 c || (c =? 45)%N.

(** [https?://3dwarehouse\.sketchup\.com/model/([0-9a-fA-F\-]{30,36})/] *)
Definition model_id_pattern : regex :=
  RCat (RLit (lit "http"))
    (RCat (RRep (fun c => (c =? 115)%N) 0 1)
       (RCat (RLit (lit "://3dwarehouse.sketchup.com/model/"))
          (RCat (RGroup (RRep is_hexdash 30 36)) (RLit (lit "/"))))).

Definition _extract_model_id (url : str) : option str :=
  m ← re_match model_id_pattern (py_strip url); group1 m.

(** The URL [SKPWH_OT_ImportResult.execute] hands to the import operator:
    [f"https://3dwarehouse.sketchup.com/model/{model_id}/{model_name or
    'Model'}"]. *)
Definition import_result_url (model_id model_name : str) : str :=
  lit "https://3dwarehouse.sketchup.com/model/" ++ model_id ++ lit "/"
  ++ match model_name with
     | [] => lit "Model"
     | _ => model_name
     end.

(** ** Decoded JSON *)

#[local] Unset Elimination Schemes.
Inductive json :=
| JNull
| JBool (b : bool)
| JInt (z : Z)
| JFloat (f : float)
| JStr (s : str)
| JList (l : list json)
| JDict (d : list (str * json)).
#[local] Set Elimination Schemes.

(** [d.get(k)] on a dictionary held as the list of its items. *)
Fixpoint dict_get (k : str) (d : list (str * json)) : option json :=
  match d with
  | [] => None
  | (k', v) :: d' => if decide (k' = k) then Some v else dict_get k d'
  end.

Inductive py_exn := AttributeError | OSError.

Inductive py_result (A : Type) :=
| Returns (a : A)
| Raises (e : py_exn).
Arguments Returns {A} a.
Arguments Raises {A} e.

(** ** [_extract_latest_skp_versions] *)

#[global] Instance ge_dec (a b : nat) : Decision (a ≥ b).
Proof. unfold ge. apply _. Defined.

Section versions.

(** The value of a decimal digit of any script ([\d] of a [str] pattern
    and [int()] agree on them), [None] for any other character. *)
Variable digit_value : N → option nat.

Definition is_decimal (c : N) : bool := bool_decide (is_Some (digit_value c)).

(** [int(d)] on a string of decimal digits. *)
Definition py_int (d : str) : nat :=
  foldl (fun acc c => 10 * acc + default 0 (digit_value c)) 0 d.

(** [s(\d{1,2})] *)
Definition version_pattern : regex :=
  RCat (RLit (lit "s")) (RGroup (RRep is_decimal 1 2)).

(** The version a key of [binaries] stands for, if it is of that form. *)
Definition key_version (key : str) : option nat :=
  m ← re_fullmatch version_pattern key; d ← group1 m; Some (py_int d).

(** [versions.sort(reverse=True)] is the sort into descending order. *)
Definition _extract_latest_skp_versions (data : list (str * json))
  : py_result (list nat) :=
  match default (JDict []) (dict_get (lit "binaries") data) with
  | JDict binaries =>
      Returns (merge_sort ge (omap key_version binaries.*1))
  | _ => Raises AttributeError
  end.

End versions.

(** ** The download attempts of [ImportSketchupWarehouseGLB.execute] *)

(** [str(v)] of a non-negative integer, as an f-string formats it. *)
Definition py_str (v : nat) : str :=
  lit (NilZero.string_of_uint (Nat.to_uint v)).

(** [_build_skp_url] *)
Definition _build_skp_url (model_id : str) (version_num : nat) : str :=
  lit "https://3dwarehouse.sketchup.com/warehouse/v1.0/entities/"
  ++ model_id ++ lit "/binaries/s" ++ py_str version_num
  ++ lit "?download=true".

(** The truth value of a decoded JSON value. *)
Definition truthy (v : json) : bool :=
  match v with
  | JNull => false
  | JBool b => b
  | JInt z => negb (z =? 0)%Z
  | JFloat f => negb (PrimFloat.eqb f 0%float)
  | JStr s => negb (bool_decide (s = []))
  | JList l => negb (bool_decide (l = []))
  | JDict d => negb (bool_decide (d = []))
  end.

Section attempts.

Variable digit_value : N → option nat.

(** [==] of Python on two decoded JSON values. *)
Variable py_eq : json → json → bool.

(** The urls the JSON gives for one binary: [url], then [contentUrl]
    unless it is already listed. *)
Definition json_urls (val : list (str * json)) : list json :=
  let urls := match dict_get (lit "url") val with
              | Some u => if truthy u then [u] else []
              | None => []
              end in
  match dict_get (lit "contentUrl") val with
  | Some c => if truthy c && negb (existsb (fun u => py_eq u c) urls)
              then urls ++ [c]
              else urls
  | None => urls
  end.

(** [attempt_map]: a regenerated url for every version, highest version
    first, then the urls of the JSON for every binary whose key has the
    form of a version. *)
Definition attempt_map (model_id : str) (version_nums : list nat)
    (binaries : list (str * json)) : list (str * list json) :=
  ((fun v => (lit "s" ++ py_str v, [JStr (_build_skp_url model_id v)]))
     <$> version_nums)
  ++ omap (fun kv =>
        match kv.2 with
        | JDict val =>
            if bool_decide
                 (is_Some (re_fullmatch (version_pattern digit_value) kv.1))
            then match json_urls val with
                 | [] => None
                 | urls => Some (kv.1, urls)
                 end
            else None
        | _ => None
        end) binaries.

(** The loop over [attempt_map].  [attempt version_key urls] stands for
    the call of [_attempt_download] and the import of the file it gives:
    [Returns true] when a file was downloaded and imported, [Returns false]
    when no file came or the import failed, which makes the loop go on, and
    [Raises e] when [_attempt_download] itself raised, which [execute] does
    not catch.  The result lists the calls of [_attempt_download] in order,
    and how the loop ended: with [skp_imported] or with the exception. *)
Fixpoint attempt_loop (attempt : str → list json → py_result bool)
    (tried_versions : list str) (attempts : list (str * list json))
  : list (str * list json) * py_result bool :=
  match attempts with
  | [] => ([], Returns false)
  | (version_key, urls) :: attempts' =>
      if decide (version_key ∈ tried_versions)
      then attempt_loop attempt tried_versions attempts'
      else
        match attempt version_key urls with
        | Returns true => ([(version_key, urls)], Returns true)
        | Returns false =>
            let r := attempt_loop attempt (version_key :: tried_versions)
                       attempts' in
            ((version_key, urls) :: r.1, r.2)
        | Raises e => ([(version_key, urls)], Raises e)
        end
  end.

(** The SKP downloads of [execute] for a model id and its entity JSON. *)
Definition skp_download_attempts (attempt : str → list json → py_result bool)
    (model_id : str) (data : list (str * json))
  : list (str * list json) * py_result bool :=
  match _extract_latest_skp_versions digit_value data with
  | Returns version_nums =>
      let binaries := match dict_get (lit "binaries") data with
                      | Some (JDict b) => b
                      | _ => []
                      end in
      attempt_loop attempt [] (attempt_map model_id version_nums binaries)
  | Raises e => ([], Raises e)
  end.

End attempts.

(** The characters a slug is made of: [[a-zA-Z0-9\-_]]. *)
Definition slug_safe (c : N) : bool :=
  in_range 97 122 c || in_range 65 90 c || in_range 48 57 c
  || (c =? 45)%N || (c =? 95)%N.

(** ** Properties of the helpers *)

(** Settles a fact about the classes of one character. *)
Ltac char_tac :=
  unfold slug_safe, slug_char, py_isspace, is_hexdash, in_range in *;
  rewrite ?orb_true_iff, ?andb_true_iff, ?orb_false_iff, ?andb_false_iff,
    ?N.leb_le, ?N.leb_gt, ?N.eqb_eq, ?N.eqb_neq in *;
  lia.

Lemma lstrip_Forall (P : N → Prop) s : Forall P s → Forall P (lstrip s).
Proof.
  induction 1 as [|c s Hc Hs IH]; cbn; [done|].
  destruct (py_isspace c); [done|by constructor].
Qed.

Lemma py_strip_Forall (P : N → Prop) s : Forall P s → Forall P (py_strip s).
Proof.
  intros Hs. unfold py_strip.
  by apply Forall_reverse, lstrip_Forall, Forall_reverse, lstrip_Forall.
Qed.

Lemma lstrip_id s : Forall (fun c => py_isspace c = false) s → lstrip s = s.
Proof. destruct 1 as [|c s Hc _]; cbn; [done|]. by rewrite Hc. Qed.

Lemma py_strip_id s :
  Forall (fun c => py_isspace c = false) s → py_strip s = s.
Proof.
  intros Hs. unfold py_strip. rewrite (lstrip_id s) by done.
  rewrite lstrip_id by by apply Forall_reverse. apply reverse_involutive.
Qed.

Lemma filter_id {A} (P : A → Prop) `{!∀ a, Decision (P a)} (l : list A) :
  Forall P l → filter P l = l.
Proof.
  induction 1 as [|a l Ha _ IH]; [done|].
  by rewrite filter_cons, decide_True, IH by done.
Qed.

Lemma py_replace_slug s :
  Forall (fun c => slug_char c = true) s →
  Forall (fun c => slug_safe c = true) (py_replace 32 45 s).
Proof.
  intros Hs. unfold py_replace. apply Forall_fmap.
  eapply Forall_impl; [done|]. cbn. intros c Hc.
  case_decide as Hsp; [done|]. char_tac.
Qed.

Lemma slug_safe_Model : Forall (fun c => slug_safe c = true) (lit "Model").
Proof. by repeat constructor. Qed.

Lemma slugify_cases name :
  _slugify name = lit "Model"
  ∨ ∃ r, r ≠ [] ∧ Forall (fun c => slug_safe c = true) r
         ∧ _slugify name = take 60 r.
Proof.
  unfold _slugify.
  set (n := match name with None | Some [] => lit "Model" | Some n => n end).
  assert (Forall (fun c => slug_safe c = true)
            (py_replace 32 45 (py_strip (filter (fun c => slug_char c) n))))
    as Hsafe.
  { apply py_replace_slug, py_strip_Forall, Forall_forall.
    intros c [Hc _]%list_elem_of_filter. by destruct (slug_char c). }
  destruct (py_replace 32 45 _) as [|c slug] eqn:Hslug; [by left|].
  right. by exists (c :: slug).
Qed.

(** [_slugify] always returns a usable path segment: between 1 and 60
    characters, each a letter, a digit, ['-'] or ['_'], whatever the name
    (missing, empty, or made of other characters only). *)
Theorem slugify_safe name :
  _slugify name ≠ []
  ∧ length (_slugify name) ≤ 60
  ∧ Forall (fun c => slug_safe c = true) (_slugify name).
Proof.
  destruct (slugify_cases name) as [->|(r & Hne & Hsafe & ->)].
  { split_and!; [done|cbn; lia|apply slug_safe_Model]. }
  split_and!.
  - by destruct r.
  - rewrite length_take. lia.
  - by apply Forall_take.
Qed.

Lemma slugify_fixpoint r :
  r ≠ [] → length r ≤ 60 → Forall (fun c => slug_safe c = true) r →
  _slugify (Some r) = r.
Proof.
  intros Hne Hlen Hsafe. unfold _slugify.
  destruct r as [|c0 r0] eqn:Hr; [done|]. rewrite <-Hr in *. clear Hr.
  rewrite filter_id.
  2:{ eapply Forall_impl; [done|]. cbn. intros c Hc.
      apply Is_true_true. char_tac. }
  rewrite py_strip_id.
  2:{ eapply Forall_impl; [done|]. cbn. intros c Hc.
      apply not_true_is_false. char_tac. }
  assert (py_replace 32 45 r = r) as ->.
  { unfold py_replace. rewrite <-(list_fmap_id r) at 2.
    apply Forall_fmap_ext. eapply Forall_impl; [done|]. cbn. intros c Hc.
    case_decide as Hsp; [|done]. subst. done. }
  destruct r; [done|]. by apply take_ge.
Qed.

(** Slugs are stable: the slug of a slug is the slug itself. *)
Theorem slugify_idempotent name :
  _slugify (Some (_slugify name)) = _slugify name.
Proof.
  destruct (slugify_cases name) as [->|(r & Hne & Hsafe & ->)].
  { apply slugify_fixpoint; [done|cbn; lia|apply slug_safe_Model]. }
  apply slugify_fixpoint.
  - by destruct r.
  - rewrite length_take. lia.
  - by apply Forall_take.
Qed.

(** *** The matcher against the words of an expression *)

Lemma rep_class_spec p hi s n rest :
  (n, rest) ∈ rep_class p hi s
  ↔ ∃ w, s = w ++ rest ∧ length w = n
         ∧ Forall (fun c => p c = true) w ∧ n ≤ hi.
Proof.
  revert s n. induction hi as [|hi IH]; intros s n.
  - cbn. rewrite list_elem_of_singleton. split.
    + intros [= -> ->]. exists []. by split_and!.
    + intros (w & -> & <- & _ & Hw). destruct w; [done|cbn in Hw; lia].
  - destruct s as [|c s]; cbn.
    + rewrite list_elem_of_singleton. split.
      * intros [= -> ->]. exists []. split_and!; [done..|lia].
      * intros (w & Hw & <- & _). symmetry in Hw.
        by apply app_eq_nil in Hw as [-> ->].
    + destruct (p c) eqn:Hc.
      * rewrite elem_of_app, list_elem_of_fmap, list_elem_of_singleton.
        split.
        -- intros [([n' rest'] & [= -> ->] & Hin)|[= -> ->]].
           ++ apply IH in Hin as (w & -> & <- & Hw & Hn). cbn.
              exists (c :: w). split_and!; [done..|by constructor|cbn; lia].
           ++ exists []. split_and!; [done..|lia].
        -- intros (w & Hw & <- & Hp & Hn). destruct w as [|c' w].
           ++ right. by rewrite Hw.
           ++ left. cbn in Hw, Hn. simplify_eq.
              apply Forall_cons in Hp as [_ Hp].
              exists (length w, rest). split; [done|].
              apply IH. exists w. split_and!; [done..|lia].
      * rewrite list_elem_of_singleton. split.
        -- intros [= -> ->]. exists []. split_and!; [done..|lia].
        -- intros (w & Hw & <- & Hp & Hn). destruct w as [|c' w].
           ++ by rewrite Hw.
           ++ cbn in Hw. simplify_eq.
              apply Forall_cons in Hp as [Hp _]. congruence.
Qed.

(** The matcher lists exactly the ways to split off a word of the
    expression. *)
Lemma matches_spec r s g rest :
  (g, rest) ∈ matches r s ↔ ∃ w, s = w ++ rest ∧ re_lang r w g.
Proof.
  revert s g rest. induction r as [l|p lo hi|r1 IH1 r2 IH2|r IH];
    intros s g rest; cbn [matches].
  - case_decide as Hl.
    + rewrite list_elem_of_singleton. split.
      * intros [= -> ->]. exists l. split; [|constructor].
        by rewrite <-Hl at 1; rewrite take_drop.
      * intros (w & -> & Hw). inversion Hw; subst.
        by rewrite drop_app_length.
    + split; [by intros ?%elem_of_nil|].
      intros (w & -> & Hw). inversion Hw; subst.
      destruct Hl. by rewrite take_app_length.
  - rewrite list_elem_of_fmap. split.
    + intros ([n rest'] & [= -> ->] & [Hlo Hin]%list_elem_of_filter).
      apply rep_class_spec in Hin as (w & -> & <- & Hw & Hhi).
      exists w. split; [done|]. constructor; [done|]. cbn in Hlo. lia.
    + intros (w & -> & Hw). inversion Hw; subst.
      exists (length w, rest). split; [done|].
      apply list_elem_of_filter. split; [cbn; lia|].
      apply rep_class_spec. exists w. split_and!; [done..|lia].
  - rewrite elem_of_flat_map. split.
    + intros ([g1 s1] & Hm1 & ([g2 s2] & [= -> ->] & Hm2)%list_elem_of_fmap).
      apply IH1 in Hm1 as (w1 & -> & Hw1).
      apply IH2 in Hm2 as (w2 & Hs & Hw2). cbn in Hs. subst.
      exists (w1 ++ w2). split; [by rewrite <-app_assoc|by constructor].
    + intros (w & -> & Hw). inversion Hw; subst.
      exists (g1, w2 ++ rest). split.
      * apply IH1. exists w1. split; [by rewrite <-app_assoc|done].
      * apply list_elem_of_fmap. exists (g2, rest). split; [done|].
        apply IH2. by exists w2.
  - rewrite list_elem_of_fmap. split.
    + intros ([g' rest'] & [= -> ->] & (w & -> & Hw)%IH).
      exists w. split; [done|].
      replace (take _ _) with w; [by constructor|].
      rewrite length_app, Nat.add_sub. by rewrite take_app_length.
    + intros (w & -> & Hw). inversion Hw; subst.
      exists (g0, rest). split.
      * cbn. rewrite length_app, Nat.add_sub. by rewrite take_app_length.
      * apply IH. by exists w.
Qed.

(** If an expression has a match at all, [re.match] returns one. *)
Lemma re_match_elem_of r s m : re_match r s = Some m → m ∈ matches r s.
Proof.
  unfold re_match. destruct (matches r s); [done|]. intros [= ->]. by left.
Qed.

Lemma re_match_is_Some r s m : m ∈ matches r s → is_Some (re_match r s).
Proof.
  unfold re_match. destruct (matches r s); [by intros ?%elem_of_nil|].
  by eexists.
Qed.

(** Two ways to cut a string at a character outside a set, after words
    inside the set, cut it at the same place. *)
Lemma class_word_unique (p : N → bool) w1 w2 c r1 r2 :
  Forall (fun c => p c = true) w1 → Forall (fun c => p c = true) w2 →
  p c = false →
  w1 ++ c :: r1 = w2 ++ c :: r2 → w1 = w2.
Proof.
  intros H1. revert w2. induction H1 as [|c1 w1 Hc1 _ IH]; intros w2 H2 Hc.
  - destruct H2 as [|c2 w2 Hc2 _]; [done|]. cbn. intros; simplify_eq.
    congruence.
  - destruct H2 as [|c2 w2 Hc2 H2]; cbn; intros; simplify_eq;
      [congruence|]. f_equal. by eapply IH.
Qed.

(** *** [_extract_model_id] *)

Lemma model_id_lang w g :
  re_lang model_id_pattern w g
  ↔ ∃ scheme id,
      w = scheme ++ lit "://3dwarehouse.sketchup.com/model/" ++ id ++ lit "/"
      ∧ (scheme = lit "http" ∨ scheme = lit "https")
      ∧ 30 ≤ length id ≤ 36
      ∧ Forall (fun c => is_hexdash c = true) id
      ∧ g = [id].
Proof.
  unfold model_id_pattern. split.
  - intros H.
    repeat match goal with
           | H : re_lang (RCat _ _) _ _ |- _ => inversion H; clear H; subst
           | H : re_lang (RLit _) _ _ |- _ => inversion H; clear H; subst
           | H : re_lang (RGroup _) _ _ |- _ => inversion H; clear H; subst
           | H : re_lang (RRep _ _ _) _ _ |- _ => inversion H; clear H; subst
           end.
    match goal with
    | Hs : Forall (fun c => (c =? 115)%N = true) ?ws,
      Hid : Forall (fun c => is_hexdash c = true) ?id |- _ =>
        rename Hs into Hws; rename ws into ws0; rename id into id0
    end.
    exists (lit "http" ++ ws0), id0. split_and!; [| |lia|lia|done|done].
    + by rewrite <-app_assoc.
    + destruct ws0 as [|c [|??]]; [by left| |cbn in *; lia].
      apply Forall_cons in Hws as [->%N.eqb_eq _]. by right.
  - intros (scheme & id & -> & Hscheme & Hlen & Hid & ->).
    assert (∃ ws, scheme = lit "http" ++ ws
                  ∧ Forall (fun c => (c =? 115)%N = true) ws
                  ∧ 0 ≤ length ws ≤ 1) as (ws & -> & Hws & Hwl).
    { destruct Hscheme as [->| ->].
      - exists []. split_and!; [done|constructor|cbn; lia..].
      - exists [115%N]. split_and!; [done|by repeat constructor|cbn; lia..]. }
    rewrite <-app_assoc.
    apply (re_cat _ _ _ _ [] [id]); [constructor|].
    apply (re_cat _ _ _ _ [] [id]); [by constructor|].
    apply (re_cat _ _ _ _ [] [id]); [constructor|].
    apply (re_cat _ _ _ _ [id] []); [|constructor].
    constructor. by constructor.
Qed.

Lemma matches_model_id u g rest :
  (g, rest) ∈ matches model_id_pattern u
  ↔ ∃ scheme id,
      u = scheme ++ lit "://3dwarehouse.sketchup.com/model/" ++ id
          ++ lit "/" ++ rest
      ∧ (scheme = lit "http" ∨ scheme = lit "https")
      ∧ 30 ≤ length id ≤ 36
      ∧ Forall (fun c => is_hexdash c = true) id
      ∧ g = [id].
Proof.
  rewrite matches_spec. setoid_rewrite model_id_lang. split.
  - intros (w & -> & scheme & id & -> & ? & ? & ? & ->).
    exists scheme, id. split_and!; try done; try lia.
    by rewrite <-!app_assoc.
  - intros (scheme & id & -> & ? & ? & ? & ->).
    eexists. split; [|by exists scheme, id].
    by rewrite <-!app_assoc.
Qed.

(** The first way to match is the only one: the id ends at the first
    slash. *)
Lemma model_id_first_match u scheme id rest :
  u = scheme ++ lit "://3dwarehouse.sketchup.com/model/" ++ id ++ lit "/"
      ++ rest →
  scheme = lit "http" ∨ scheme = lit "https" →
  30 ≤ length id ≤ 36 →
  Forall (fun c => is_hexdash c = true) id →
  re_match model_id_pattern u ≫= group1 = Some id.
Proof.
  intros Hurl Hscheme Hlen Hid.
  assert (([id], rest) ∈ matches model_id_pattern u) as Hin.
  { apply matches_model_id. by exists scheme, id. }
  apply re_match_is_Some in Hin as [[g rest'] Hrun]. rewrite Hrun. cbn.
  apply re_match_elem_of, matches_model_id in Hrun
    as (scheme' & id' & Hurl' & Hscheme' & _ & Hid' & ->).
  cbn. f_equal. rewrite Hurl in Hurl'.
  assert (scheme' = scheme) as ->.
  { destruct Hscheme as [->| ->], Hscheme' as [->| ->]; try done;
      unfold lit in Hurl'; cbn in Hurl'; by simplify_eq. }
  apply app_inv_head, app_inv_head in Hurl'.
  symmetry. by apply (class_word_unique is_hexdash id id' 47%N rest rest').
Qed.

(** [_extract_model_id] returns an id exactly for the URLs that, once
    stripped of surrounding white space, start with [http://] or
    [https://], the host [3dwarehouse.sketchup.com] and [/model/], followed
    by 30 to 36 hexadecimal digits or dashes and a slash; the id is that
    run of digits and dashes. *)
Theorem extract_model_id_spec url id :
  _extract_model_id url = Some id
  ↔ ∃ scheme rest,
      py_strip url
      = scheme ++ lit "://3dwarehouse.sketchup.com/model/" ++ id ++ lit "/"
        ++ rest
      ∧ (scheme = lit "http" ∨ scheme = lit "https")
      ∧ 30 ≤ length id ≤ 36
      ∧ Forall (fun c => is_hexdash c = true) id.
Proof.
  unfold _extract_model_id. split.
  - destruct (re_match _ _) as [[g rest]|] eqn:Hrun; [|done]. cbn.
    apply re_match_elem_of, matches_model_id in Hrun
      as (scheme & id' & ? & ? & ? & ? & ->).
    intros [= <-]. by exists scheme, rest.
  - intros (scheme & rest & Hurl & Hscheme & Hlen & Hid).
    by eapply model_id_first_match.
Qed.

Lemma py_strip_ends c s d :
  py_isspace c = false → py_isspace d = false →
  py_strip (c :: s ++ [d]) = c :: s ++ [d].
Proof.
  intros Hc Hd. unfold py_strip. cbn [lstrip]. rewrite Hc.
  replace (reverse (c :: s ++ [d])) with (d :: reverse (c :: s))
    by by rewrite app_comm_cons, reverse_app.
  cbn [lstrip]. rewrite Hd. by rewrite reverse_cons, reverse_involutive.
Qed.

(** The URL that [SKPWH_OT_ImportResult] builds for a search result gives
    the model id back to [_extract_model_id] exactly when the id is made of
    30 to 36 hexadecimal digits or dashes; a result with any other id
    cannot be imported under its id. *)
Theorem import_result_round_trip model_id name :
  _extract_model_id (import_result_url model_id (_slugify name))
  = Some model_id
  ↔ 30 ≤ length model_id ≤ 36
    ∧ Forall (fun c => is_hexdash c = true) model_id.
Proof.
  unfold import_result_url.
  set (model_name := match _slugify name with
                     | [] => lit "Model"
                     | _ => _slugify name
                     end).
  assert (∃ s d, model_name = s ++ [d] ∧ py_isspace d = false)
    as (s & d & Hname & Hd).
  { assert (model_name ≠ [] ∧ Forall (fun c => slug_safe c = true) model_name)
      as [Hne Hsafe].
    { unfold model_name.
      destruct (slugify_cases name) as [->|(r & Hne & Hsafe & ->)];
        [split; [done|apply slug_safe_Model]|].
      destruct (take 60 r) as [|c0 r0] eqn:Hr.
      { split; [done|apply slug_safe_Model]. }
      split; [done|]. rewrite <-Hr. by apply Forall_take. }
    destruct (exists_last Hne) as (s & d & Hsd). exists s, d.
    split; [done|]. rewrite Hsd in Hsafe.
    apply Forall_app in Hsafe as [_ [Hsafe _]%Forall_cons]. char_tac. }
  assert (py_strip
            (lit "https://3dwarehouse.sketchup.com/model/" ++ model_id
             ++ lit "/" ++ model_name)
          = lit "https" ++ lit "://3dwarehouse.sketchup.com/model/"
            ++ model_id ++ lit "/" ++ model_name) as Hstrip.
  { rewrite Hname.
    change (lit "https://3dwarehouse.sketchup.com/model/")
      with (104%N :: lit "ttps://3dwarehouse.sketchup.com/model/").
    change (lit "https" ++ lit "://3dwarehouse.sketchup.com/model/"
            ++ model_id ++ lit "/" ++ s ++ [d])
      with (104%N :: lit "ttps://3dwarehouse.sketchup.com/model/"
            ++ model_id ++ lit "/" ++ s ++ [d]).
    rewrite <-!app_comm_cons, !app_assoc. by apply py_strip_ends. }
  unfold _extract_model_id. rewrite Hstrip. split.
  - destruct (re_match _ _) as [[g rest]|] eqn:Hrun; [|done]. cbn.
    apply re_match_elem_of, matches_model_id in Hrun
      as (scheme & id' & ? & ? & ? & ? & ->).
    cbn. intros [= ->]. by split.
  - intros [Hlen Hid].
    eapply (model_id_first_match _ (lit "https")); [done|by right|done..].
Qed.

Section versions_properties.

Variable digit_value : N → option nat.

#[local] Instance ge_trans : Transitive ge.
Proof. intros a b c. unfold ge. lia. Qed.
#[local] Instance ge_total : Total ge.
Proof. intros a b. unfold ge. lia. Qed.

Lemma version_lang w g :
  re_lang (version_pattern digit_value) w g
  ↔ ∃ d, w = lit "s" ++ d ∧ 1 ≤ length d ≤ 2
         ∧ Forall (fun c => is_decimal digit_value c = true) d ∧ g = [d].
Proof.
  unfold version_pattern. split.
  - intros H.
    repeat match goal with
           | H : re_lang (RCat _ _) _ _ |- _ => inversion H; clear H; subst
           | H : re_lang (RLit _) _ _ |- _ => inversion H; clear H; subst
           | H : re_lang (RGroup _) _ _ |- _ => inversion H; clear H; subst
           | H : re_lang (RRep _ _ _) _ _ |- _ => inversion H; clear H; subst
           end.
    eexists. split_and!; [done|lia|lia|done|done].
  - intros (d & -> & Hlen & Hd & ->).
    apply (re_cat _ _ _ _ [] [d]); [constructor|].
    constructor. by constructor.
Qed.

(** A key of [binaries] stands for a version exactly when it is an [s]
    followed by one or two decimal digits; the version is their value. *)
Lemma key_version_spec key v :
  key_version digit_value key = Some v
  ↔ ∃ d, key = lit "s" ++ d ∧ 1 ≤ length d ≤ 2
         ∧ Forall (fun c => is_decimal digit_value c = true) d
         ∧ v = py_int digit_value d.
Proof.
  unfold key_version, re_fullmatch.
  assert (∀ g rest,
            (g, rest) ∈ filter (fun m => m.2 = [])
                          (matches (version_pattern digit_value) key)
            ↔ rest = []
              ∧ ∃ d, key = lit "s" ++ d ∧ 1 ≤ length d ≤ 2
                     ∧ Forall (fun c => is_decimal digit_value c = true) d
                     ∧ g = [d]) as Hm.
  { intros g rest. rewrite list_elem_of_filter, matches_spec.
    setoid_rewrite version_lang. cbn. split.
    - intros [-> (w & -> & d & -> & ? & ? & ->)]. split; [done|].
      exists d. by rewrite app_nil_r.
    - intros [-> (d & -> & ? & ? & ->)]. split; [done|].
      eexists. split; [by rewrite app_nil_r|]. by exists d. }
  destruct (filter _ _) as [|[g rest] ms] eqn:Hf;
    cbn [head mbind option_bind].
  - split; [done|]. intros (d & Hkey & Hlen & Hd & _).
    assert (([d], @nil N) ∈ @nil (list str * str)) as Hin;
      [|by apply elem_of_nil in Hin].
    apply Hm. split; [done|]. by exists d.
  - assert ((g, rest) ∈ (g, rest) :: ms) as Hin by left.
    apply Hm in Hin as [-> (d & Hkey & Hlen & Hd & ->)].
    cbn [group1 head fst mbind option_bind]. split.
    + intros [= <-]. by exists d.
    + intros (d' & Hkey' & _ & _ & ->). rewrite Hkey in Hkey'.
      by apply app_inv_head in Hkey' as ->.
Qed.

Lemma py_int_lt d :
  (∀ c x, digit_value c = Some x → x < 10) →
  length d ≤ 2 → py_int digit_value d < 100.
Proof.
  intros Hdigit Hlen. unfold py_int.
  assert (∀ c, default 0 (digit_value c) < 10) as Hd.
  { intros c. destruct (digit_value c) eqn:Hc; cbn; [by eapply Hdigit|lia]. }
  destruct d as [|c1 [|c2 [|??]]]; cbn in *; [lia| | |lia].
  - specialize (Hd c1). lia.
  - pose proof (Hd c1). pose proof (Hd c2). lia.
Qed.

(** [_extract_latest_skp_versions] returns the versions the model is
    offered in, highest first: the values of the keys of [binaries] that
    are an [s] followed by one or two decimal digits, sorted in descending
    order, each below 100.  Without a [binaries] entry the list is empty;
    a [binaries] entry that is not a dictionary raises [AttributeError]. *)
Theorem extract_latest_skp_versions_spec data :
  (∀ c x, digit_value c = Some x → x < 10) →
  match dict_get (lit "binaries") data with
  | Some (JDict _) | None =>
      let keys :=
        match dict_get (lit "binaries") data with
        | Some (JDict binaries) => binaries.*1
        | _ => []
        end in
      ∃ vs,
        _extract_latest_skp_versions digit_value data = Returns vs
        ∧ StronglySorted ge vs
        ∧ Forall (fun v => v < 100) vs
        ∧ ∀ v, v ∈ vs
               ↔ ∃ key d, key ∈ keys ∧ key = lit "s" ++ d
                          ∧ 1 ≤ length d ≤ 2
                          ∧ Forall (fun c => is_decimal digit_value c = true) d
                          ∧ v = py_int digit_value d
  | Some _ => _extract_latest_skp_versions digit_value data
              = Raises AttributeError
  end.
Proof.
  intros Hdigit. unfold _extract_latest_skp_versions.
  assert (∀ keys : list str,
            let vs := merge_sort ge (omap (key_version digit_value) keys) in
            StronglySorted ge vs
            ∧ Forall (fun v => v < 100) vs
            ∧ ∀ v, v ∈ vs
                   ↔ ∃ key d, key ∈ keys ∧ key = lit "s" ++ d
                              ∧ 1 ≤ length d ≤ 2
                              ∧ Forall (fun c => is_decimal digit_value c = true) d
                              ∧ v = py_int digit_value d) as Hkeys.
  { intros keys vs.
    assert (∀ v, v ∈ vs
                 ↔ ∃ key d, key ∈ keys ∧ key = lit "s" ++ d
                            ∧ 1 ≤ length d ≤ 2
                            ∧ Forall (fun c => is_decimal digit_value c = true) d
                            ∧ v = py_int digit_value d) as Hin.
    { intros v. unfold vs. rewrite merge_sort_Permutation, list_elem_of_omap.
      setoid_rewrite key_version_spec. split.
      - intros (key & ? & d & ? & ? & ? & ?). by exists key, d.
      - intros (key & d & ? & ? & ? & ? & ?). exists key.
        split; [done|]. by exists d. }
    split_and!; [apply StronglySorted_merge_sort; apply _| |done].
    apply Forall_forall. intros v (key & d & _ & _ & Hlen & _ & ->)%Hin.
    apply py_int_lt; [done|lia]. }
  destruct (dict_get (lit "binaries") data) as [[]|]; cbn; try done.
  - eexists. split; [done|]. apply Hkeys.
  - eexists. split; [done|]. apply (Hkeys []).
Qed.

End versions_properties.

Section attempts_properties.

Variable digit_value : N → option nat.
Variable py_eq : json → json → bool.

Lemma re_fullmatch_key_version key :
  is_Some (re_fullmatch (version_pattern digit_value) key) →
  is_Some (key_version digit_value key).
Proof.
  unfold key_version, re_fullmatch.
  destruct (filter _ _) as [|[g rest] ms] eqn:Hf; cbn [head];
    [by intros []|].
  intros _.
  assert ((g, rest) ∈ filter (fun m => m.2 = [])
                        (matches (version_pattern digit_value) key)) as Hin
    by (rewrite Hf; left).
  apply list_elem_of_filter in Hin as [_ (w & _ & Hw)%matches_spec].
  apply version_lang in Hw as (d & _ & _ & _ & ->). by eexists.
Qed.

Lemma attempt_loop_tail attempt tried am k urls :
  (k, urls) ∈ (attempt_loop attempt tried am).1 →
  (k, urls) ∈ am ∧ k ∉ tried.
Proof.
  revert tried. induction am as [|[k0 u0] am IH]; intros tried; cbn.
  { by intros ?%elem_of_nil. }
  case_decide as Htried.
  { intros [? ?]%IH. split; [by right|done]. }
  destruct (attempt k0 u0) as [[]|]; cbn.
  - intros Heq%list_elem_of_singleton. simplify_eq. split; [by left|done].
  - intros [Heq|[? Hk]%IH]%elem_of_cons;
      [simplify_eq; split; [by left|done]|].
    split; [by right|]. intros ?. apply Hk. by right.
  - intros Heq%list_elem_of_singleton. simplify_eq. split; [by left|done].
Qed.

(** A call comes from the first part of the attempts, or from the second
    part for a key that the first part does not hold. *)
Lemma attempt_loop_app attempt tried am1 am2 k urls :
  (k, urls) ∈ (attempt_loop attempt tried (am1 ++ am2)).1 →
  (k, urls) ∈ am1 ∨ ((k, urls) ∈ am2 ∧ k ∉ am1.*1).
Proof.
  revert tried. induction am1 as [|[k0 u0] am1 IH]; intros tried; cbn.
  { intros [? _]%attempt_loop_tail. right. split; [done|].
    by intros ?%elem_of_nil. }
  assert (∀ tried',
            k0 ∈ tried' →
            (k, urls) ∈ (attempt_loop attempt tried' (am1 ++ am2)).1 →
            (k, urls) ∈ (k0, u0) :: am1
            ∨ (k, urls) ∈ am2 ∧ k ∉ k0 :: am1.*1) as Hrest.
  { intros tried' Hk0 Hin.
    pose proof (attempt_loop_tail _ _ _ _ _ Hin) as [_ Hk].
    apply IH in Hin as [?|[? ?]]; [left; by right|]. right.
    split; [done|]. intros [->|?]%elem_of_cons; done. }
  case_decide as Htried; [by apply Hrest|].
  destruct (attempt k0 u0) as [[]|]; cbn.
  - intros Heq%list_elem_of_singleton. simplify_eq. left. by left.
  - intros [Heq|Hin]%elem_of_cons; [simplify_eq; left; by left|].
    eapply Hrest; [|done]. by left.
  - intros Heq%list_elem_of_singleton. simplify_eq. left. by left.
Qed.

Lemma attempt_loop_NoDup attempt tried am :
  NoDup (attempt_loop attempt tried am).1.*1.
Proof.
  revert tried. induction am as [|[k0 u0] am IH]; intros tried; cbn.
  { constructor. }
  case_decide as Htried; [apply IH|].
  destruct (attempt k0 u0) as [[]|]; cbn; [apply NoDup_singleton| |].
  - constructor; [|apply IH].
    intros ([k urls] & -> & [_ Hk]%attempt_loop_tail)%list_elem_of_fmap.
    apply Hk. by left.
  - apply NoDup_singleton.
Qed.

(** In [execute], however the downloads and imports turn out, every
    version key is downloaded at most once, and a download uses either the
    regenerated url of a version the model is offered in, or the urls of
    the JSON for a key that is not the canonical name ["s" + str(version)]
    of its own version: for a key in canonical form the regenerated attempt
    has taken the key, so the urls the JSON gives for it are never
    requested. *)
Theorem skp_download_attempts_regenerated attempt model_id data :
  let calls :=
    (skp_download_attempts digit_value py_eq attempt model_id data).1 in
  NoDup calls.*1
  ∧ ∀ version_key urls, (version_key, urls) ∈ calls →
      (∃ v version_nums,
         _extract_latest_skp_versions digit_value data = Returns version_nums
         ∧ v ∈ version_nums
         ∧ version_key = lit "s" ++ py_str v
         ∧ urls = [JStr (_build_skp_url model_id v)])
      ∨ (∃ v, key_version digit_value version_key = Some v
              ∧ version_key ≠ lit "s" ++ py_str v).
Proof.
  unfold skp_download_attempts.
  destruct (_extract_latest_skp_versions digit_value data)
    as [version_nums|] eqn:Hversions; cbn zeta.
  2: { split; [constructor|]. by intros ?? ?%elem_of_nil. }
  split; [apply attempt_loop_NoDup|].
  intros version_key urls [Hin|[Hin Hkey]]%attempt_loop_app.
  - apply list_elem_of_fmap in Hin as (v & [= -> ->] & Hv).
    left. by exists v, version_nums.
  - right. apply list_elem_of_omap in Hin as ([key val] & Hkv & Hsome).
    cbn in Hsome. destruct val as [| | | | | |val]; try done.
    case_bool_decide as Hfull; [|done].
    destruct (json_urls _ _) as [|u us]; [done|]. simplify_eq.
    apply re_fullmatch_key_version in Hfull as [v Hv].
    exists v. split; [done|]. intros ->. apply Hkey.
    apply list_elem_of_fmap. eexists (_, _). split; [reflexivity|].
    apply list_elem_of_fmap. exists v. split; [done|].
    unfold _extract_latest_skp_versions in Hversions.
    destruct (dict_get (lit "binaries") data) as [[| | | | | |b]|];
      cbn in Hversions; simplify_eq.
    + rewrite merge_sort_Permutation. apply list_elem_of_omap.
      exists (lit "s" ++ py_str v). split; [|done].
      by apply (list_elem_of_fmap_2 fst _ (_, JDict val)).
    + by apply elem_of_nil in Hkv.
Qed.

End attempts_properties.

(** * A worked model

    Integers stand for matrices, vectors and quaternions: composition is
    multiplication, and an integer decomposes into its hundreds (location),
    its tens digit (rotation) and its units digit (scale). *)

Definition ex_inherent_default_mat (mat : option string)
    (default_material : string) : string :=
  default default_material mat.

Definition ex_group_name (name material : string) : string :=
  if decide (material = "Material") then name
  else name +:+ "_" +:+ material.

Definition ex_unique_name (existing : list string) (name : string) : string :=
  name.

Definition ex_decompose (m : Z) : Z * Z * Z :=
  ((m / 100)%Z, (m / 10 mod 10)%Z, (m mod 10)%Z).

Abbreviation ExEntities := (@Entities Z Z unit unit string).
Abbreviation ExState := (@State Z Z Z unit unit string).
Abbreviation ExConfig := (@Config Z Z unit unit string).

(** One triangle. *)
Definition ex_triangle : @Face Z unit unit :=
  mkFace None (fun _ => mkTess [0; 1; 2]%Z [(0, 1, 2)] [tt; tt; tt]) [false].

(** A face whose tessellation has no vertices. *)
Definition ex_empty_face : @Face Z unit unit :=
  mkFace None (fun _ => mkTess [] [] []) [].

Definition ex_instance (definition : string) (transform : Z) (hidden : bool)
    (layer : string) : @Instance Z string :=
  mkInstance "" definition transform None hidden layer.

(** "Leg" is a leaf, of depth 0; "Table" holds two legs and has depth 1. *)
Definition ex_leg : ExEntities := mkEntities [] [] [ex_triangle].
Definition ex_table : ExEntities :=
  mkEntities []
    [ex_instance "Leg" 2 false "Layer0"; ex_instance "Leg" 3 false "Layer0"]
    [].

(** The model: a group on a hidden layer, two tables, and a leg that is
    flagged hidden. *)
Definition ex_model : ExEntities :=
  mkEntities
    [mkGroup "Stash" 1%Z
       (mkEntities [] [ex_instance "Table" 13 false "Layer0"] [])
       None false "Hidden"]
    [ex_instance "Table" 5 false "Layer0";
     ex_instance "Table" 7 false "Layer0";
     ex_instance "Leg" 11 true "Layer0"]
    [].

Definition ex_cfg (max_instance : Z) : ExConfig :=
  mkConfig ["Hidden"] false max_instance
    (<["Leg" := mkComponentDefinition "Leg" ex_leg]>
       (<["Table" := mkComponentDefinition "Table" ex_table]> ∅))
    (<["Leg" := 0]> (<["Table" := 1]> ∅))
    (<["Material" := mkBMat "Material" (Some ["Principled BSDF"])]> ∅)
    ∅ ex_model 1.5%float 250%float.

Definition ex_analyze (cfg : ExConfig) :=
  analyze_entities Z.mul ex_inherent_default_mat 4 cfg ex_model "Sketchup"
    1%Z "Material" ET_none [] None.

Definition ex_write_duplicateable_groups (cfg : ExConfig) (s : ExState) :=
  write_duplicateable_groups Z.mul 1%Z ex_inherent_default_mat ex_group_name
    ex_unique_name 4 cfg s.

Definition ex_translation_of (m : Z) : Z := (m / 100)%Z.

Definition ex_write_mesh_data (cfg : ExConfig) (entities : ExEntities)
    (name default_material : string) (s : ExState) :=
  write_mesh_data ex_unique_name cfg entities name default_material s.

Definition ex_write_entities (fuel : nat) (cfg : ExConfig)
    (entities : ExEntities) (name : string) (parent_transform : Z)
    (default_material : string) (etype : option EntityType)
    (parent_name : option string) (s : ExState) :=
  write_entities Z.mul ex_translation_of Z.sub 0%Z 1%Z 0%Z
    ex_inherent_default_mat (fun n => n) ex_unique_name fuel cfg entities
    name parent_transform default_material etype parent_name 0%Z s.

(** The state after the mesh of "Leg" was built once. *)
Definition ex_leg_built : ExState :=
  match ex_write_mesh_data (ex_cfg 2) ex_leg "Leg" "Material" initial_state
  with
  | Ok (_, s) => s
  | _ => initial_state
  end.

(** A state in which "Leg" was given a group. *)
Definition ex_leg_skipped : ExState :=
  set_group_written (<[("Leg", "Material") := 0]> ∅)
    (set_component_skip (<[("Leg", "Material") := SkipEntities ex_leg]> ∅)
       initial_state).

(** A perspective camera of 60 degrees with aspect ratio 1.5, and an
    orthographic one. *)
Definition ex_camera : @SkpCamera Z :=
  mkSkpCamera (3, 0, 1)%Z (PyFloat 1.5) (PyFloat 60).
Definition ex_camera_ortho : @SkpCamera Z :=
  mkSkpCamera (3, 0, 1)%Z PyFalse PyFalse.

Definition ex_write_camera (camera : @SkpCamera Z) (s : ExState) :=
  write_camera Z.sub Z.mul (fun v => v) ex_unique_name (ex_cfg 2) camera
    "View" s.

(** Occurrences recorded for one key: two share scale and rotation. *)
Definition ex_stats : list (Key * list Z) :=
  [(("Leg", "Material"), [512; 712; 523]%Z)].

(** ** The passes on the model *)

Example ex_analyze_stats :
  ex_analyze (ex_cfg 2)
  = Ok [(("Table", "Material"), [5; 7]%Z);
        (("Leg", "Material"), [10; 15; 14; 21; 11]%Z)].
Proof. reflexivity. Qed.

(** Threshold 2: the leg (5 occurrences, depth 0) gets a group, the table
    (2 occurrences, depth 1) does not. *)
Example ex_groups_threshold_2 :
  (s ← ex_write_duplicateable_groups (ex_cfg 2) initial_state;
   Ok (map_to_list (group_written s), (map_to_list (component_skip s)).*1,
       coll_name <$> bpy_collections s))
  = Ok ([(("Leg", "Material"), 0)], [("Leg", "Material")], ["Leg"]).
Proof. vm_compute. reflexivity. Qed.

(** Threshold 6: no pair reaches it, nothing is written. *)
Example ex_groups_threshold_6 :
  ex_write_duplicateable_groups (ex_cfg 6) initial_state = Ok initial_state.
Proof. vm_compute. reflexivity. Qed.

Example ex_camera_angle :
  camera_angle 60 1.5 = (math_pi * 60 / 180 * 1.5)%float
  ∧ cam_angle <$> last (bpy_cameras (ex_write_camera ex_camera initial_state).2)
    = Some (Some (camera_angle 60 1.5))
  ∧ cam_type <$> last (bpy_cameras
                         (ex_write_camera ex_camera_ortho initial_state).2)
    = Some ORTHO.
Proof. split_and!; reflexivity. Qed.

Example ex_clusters :
  get_orientations ex_decompose [512; 712; 523]%Z
  = [((2, 1), [5; 7]); ((3, 2), [5])]%Z.
Proof. reflexivity. Qed.

Lemma ex_face_ok : face_ok ex_triangle.
Proof.
  intros scale. split; [reflexivity|].
  repeat constructor; cbn; lia.
Qed.

Lemma ex_leg_ok avoid n cfg : tree_ok cfg avoid (S n) ex_leg.
Proof.
  split_and!; [|constructor..].
  apply Forall_cons. split; [apply ex_face_ok|constructor].
Qed.

Lemma ex_table_ok avoid n thr :
  avoid ≠ Some "Leg" → tree_ok (ex_cfg thr) avoid (S (S n)) ex_table.
Proof.
  intros Havoid. split_and!; [constructor..|].
  assert (∀ i_transform,
            ∃ cdef,
              skp_components (ex_cfg thr)
                !! i_definition_name
                     (ex_instance "Leg" i_transform false "Layer0")
              = Some cdef
              ∧ Some (cd_name cdef) ≠ avoid
              ∧ tree_ok (ex_cfg thr) avoid (S n) (cd_entities cdef)) as Hleg.
  { intros. eexists.
    split_and!; [reflexivity|cbn; congruence|apply ex_leg_ok]. }
  apply Forall_cons_2; [apply Hleg|].
  apply Forall_cons_2; [apply Hleg|constructor].
Qed.

Lemma ex_model_tree_ok thr : tree_ok (ex_cfg thr) None 4 ex_model.
Proof.
  split_and!; [constructor|..].
  - apply Forall_cons. split; [|constructor].
    split_and!; [constructor..|].
    apply Forall_cons. split; [|constructor].
    eexists. split_and!; [reflexivity|done|by apply ex_table_ok].
  - apply Forall_cons_2.
    { eexists. split_and!; [reflexivity|done|by apply ex_table_ok]. }
    apply Forall_cons_2.
    { eexists. split_and!; [reflexivity|done|by apply ex_table_ok]. }
    apply Forall_cons_2; [|constructor].
    eexists. split_and!; [reflexivity|done|apply ex_leg_ok].
Qed.

Lemma ex_model_ok thr : model_ok (ex_cfg thr) 4.
Proof.
  split_and!.
  - by eexists.
  - apply map_Forall_insert_2; [|apply map_Forall_insert_2;
                                  [|apply map_Forall_empty]].
    + split_and!; [done|by eexists|apply ex_leg_ok].
    + split_and!; [done|by eexists|by apply ex_table_ok].
  - apply ex_model_tree_ok.
Qed.

(** ** The theorems at the model *)

(** With threshold 2 the table occurs exactly 2 times and has depth 1: it
    is not promoted, against the threshold boundary as stated. *)
Lemma threshold_boundary_counterexample :
  ¬ stated_threshold_claim Z.mul 1%Z ex_inherent_default_mat
      ex_group_name ex_unique_name 4 (ex_cfg 2) (initial_state : ExState).
Proof.
  intros Hclaim.
  assert (∃ s',
            ex_write_duplicateable_groups (ex_cfg 2) initial_state = Ok s'
            ∧ component_skip s' !! ("Table", "Material") = None)
    as (s' & Hrun & Hnone).
  { vm_compute. eexists. split; reflexivity. }
  destruct (Hclaim [(("Table", "Material"), [5; 7]%Z);
                    (("Leg", "Material"), [10; 15; 14; 21; 11]%Z)]
              s' ("Table", "Material")) as [Hpromoted _].
  - reflexivity.
  - exact Hrun.
  - left.
  - destruct Hpromoted as [[v Hv] _]; [reflexivity|]. congruence.
Qed.

Lemma threshold_boundary_witness :
  ∃ stats s',
    ex_analyze (ex_cfg 2) = Ok stats
    ∧ ex_write_duplicateable_groups (ex_cfg 2) initial_state = Ok s'
    ∧ ∀ k, k ∈ stats.*1 →
        promoted s' k
        ↔ (2 ≤ Z.of_nat (length (defaultdict_get k stats)))%Z
          ∧ component_depth (ex_cfg 2) !! k.1 ≠ Some 1.
Proof.
  destruct (threshold_boundary Z.mul 1%Z ex_inherent_default_mat
              ex_group_name ex_unique_name 4 (ex_cfg 2)
              (initial_state : ExState) (ex_model_ok 2) eq_refl eq_refl)
    as (stats & s' & Hstats & Hrun & Hkeys).
  exists stats, s'. split_and!; [exact Hstats|exact Hrun|].
  intros k Hk. exact (proj1 (Hkeys k Hk)).
Defined.



Lemma write_mesh_data_idempotent_witness :
  ex_write_mesh_data (ex_cfg 2) ex_table "Leg" "Material"
    (ex_write_camera ex_camera ex_leg_built).2
  = Ok ((Some 0, false), (ex_write_camera ex_camera ex_leg_built).2).
Proof.
  apply (write_mesh_data_idempotent Z.mul 1%Z ex_decompose ex_translation_of
           Z.sub Z.mul (fun v => v) 0%Z 1%Z 0%Z ex_inherent_default_mat
           ex_group_name (fun n => n) ex_unique_name (ex_cfg 2) ex_leg
           "Leg" "Material" initial_state 0 false ex_leg_built).
  - vm_compute. reflexivity.
  - eapply rtc_l; [apply step_write_camera|apply rtc_refl].
Defined.


Lemma hidden_layer_filtering_witness :
  ex_analyze (ex_cfg 2)
  = analyze_entities Z.mul ex_inherent_default_mat 4 (ex_cfg 2)
      (prune_layers (ex_cfg 2) ex_model) "Sketchup" 1%Z "Material" ET_none []
      None
  ∧ e_groups (prune_layers (ex_cfg 2) ex_model) = [].
Proof.
  split; [|reflexivity].
  exact (proj1 (hidden_layer_filtering Z.mul ex_translation_of Z.sub 0%Z
                  1%Z 0%Z ex_inherent_default_mat (fun n => n)
                  ex_unique_name (ex_cfg 2))
           4 ex_model "Sketchup" 1%Z "Material" ET_none [] None).
Defined.

Lemma analysis_counts_every_occurrence_witness :
  ∃ stats,
    ex_analyze (ex_cfg 2) = Ok stats
    ∧ ∀ k, defaultdict_get k stats
           = (filter (fun o => o.1 = k)
                (occurrences Z.mul ex_inherent_default_mat 4 (ex_cfg 2)
                   ex_model 1%Z "Material")).*2.
Proof.
  destruct (analysis_counts_every_occurrence Z.mul 1%Z
              ex_inherent_default_mat 4 (ex_cfg 2) (ex_model_tree_ok 2))
    as (_ & (stats & Hrun & Hstats & _) & _).
  exists stats. split; [exact Hrun|exact Hstats].
Defined.

Lemma orientation_clustering_witness :
  ∃ s' dmes,
    instance_group_dupli_vert ex_decompose Z.sub ex_unique_name "Leg"
      "Material" ex_stats ex_leg_skipped = Ok s'
    ∧ bpy_meshes s' = [] ++ dmes
    ∧ me_vertices <$> dmes = [[0; 2]; [0]]%Z.
Proof.
  destruct (orientation_clustering ex_decompose Z.sub ex_unique_name "Leg"
              "Material" ex_stats ex_leg_skipped) as (_ & _ & Hmeshes).
  apply Hmeshes. eexists. vm_compute. reflexivity.
Defined.

Lemma write_camera_field_of_view_witness :
  ∃ cam,
    bpy_cameras (ex_write_camera ex_camera initial_state).2 = [] ++ [cam]
    ∧ cam_type cam = PERSP
    ∧ cam_angle cam = Some (camera_angle 60 1.5).
Proof.
  destruct (write_camera_field_of_view Z.sub Z.mul (fun v => v)
              ex_unique_name (ex_cfg 2) ex_camera "View"
              (initial_state : ExState))
    as (cam & Hcameras & _ & Hpersp).
  exists cam. destruct (Hpersp eq_refl) as [Htype Hangle].
  split_and!; [exact Hcameras|exact Htype|exact Hangle].
Defined.

Lemma hidden_flag_asymmetry_witness :
  ∃ st',
    ex_analyze (ex_cfg 2) = Ok st'
    ∧ ∃ cdef,
        skp_components (ex_cfg 2) !! "Leg" = Some cdef
        ∧ (1 * 11)%Z
          ∈ defaultdict_get
              (cd_name cdef, ex_inherent_default_mat None "Material") st'.
Proof.
  destruct (hidden_flag_asymmetry (Quat := Z) Z.mul ex_inherent_default_mat
              (fun n => n) ex_unique_name 4 (ex_cfg 2) None ex_model
              "Sketchup" 1%Z "Material" ET_none [] (ex_model_tree_ok 2))
    as (_ & (st' & Hrun & Hinstances & _) & _).
  exists st'. split; [exact Hrun|].
  apply (Hinstances (ex_instance "Leg" 11 true "Layer0")).
  - do 2 apply list_elem_of_further. apply list_elem_of_here.
  - reflexivity.
  - reflexivity.
Defined.

(** ** Further properties at the model *)

(** The state after [write_duplicateable_groups] with threshold 2, and
    after the write pass that follows it in [load]. *)
Definition ex_groups_written : ExState :=
  match ex_write_duplicateable_groups (ex_cfg 2) initial_state with
  | Ok s => s
  | _ => initial_state
  end.

Definition ex_written : ExState :=
  match ex_write_entities 4 (ex_cfg 2) ex_model "_(Loose Entity)" 1%Z
          "Material" None None ex_groups_written with
  | Ok s => s
  | _ => initial_state
  end.

(** The leg was given a group, yet the write pass writes every leg as an
    object of its own and records no occurrence: nothing is instanced. *)
Example ex_written_objects :
  (map_to_list (component_skip ex_groups_written)).*1 = [("Leg", "Material")]
  ∧ component_stats ex_written = []
  ∧ ob_name <$> bpy_objects ex_written
    = ["Leg"; "_(Loose Entity)"; "C-Table"; "C-Leg"; "C-Leg"; "C-Table";
       "C-Leg"; "C-Leg"].
Proof. vm_compute. done. Qed.

Lemma ex_names_not_cname nm :
  is_Some (skp_components (ex_cfg 2) !! nm) → ¬ is_cname nm.
Proof.
  intros Hnm.
  assert (nm = "Leg" ∨ nm = "Table") as Hcases.
  { unfold ex_cfg in Hnm. cbn [skp_components] in Hnm.
    apply lookup_insert_is_Some in Hnm as [<-|[_ Hnm]]; [by left|].
    apply lookup_insert_is_Some in Hnm as [<-|[_ Hnm]]; [by right|].
    rewrite lookup_empty in Hnm. by destruct Hnm. }
  intros [[x Hx]|(y & x & Hx)]; destruct Hcases as [-> | ->];
    try discriminate Hx.
  - destruct y as [|? [|? [|? [|? ?]]]]; cbn in Hx; simplify_eq.
  - destruct y as [|? [|? [|? [|? [|? [|? ?]]]]]]; cbn in Hx; simplify_eq.
Qed.




Lemma load_mesh_objects_no_instancing_witness :
  load_mesh_objects Z.mul 1%Z ex_decompose ex_translation_of Z.sub 0%Z 1%Z
    0%Z ex_inherent_default_mat (fun n => n) ex_unique_name
    (fun _ _ _ s => Ok s) 4 (ex_cfg 2) "VERTEX" ex_groups_written
  = Ok ex_written.
Proof.
  destruct (load_mesh_objects_no_instancing Z.mul 1%Z ex_decompose
              ex_translation_of Z.sub 0%Z 1%Z 0%Z ex_inherent_default_mat
              ex_group_name (fun n => n) ex_unique_name (fun _ _ _ s => Ok s)
              4 4 (ex_cfg 2) "VERTEX" (initial_state : ExState)
              ex_groups_written ex_groups_written) as [Heq _].
  - reflexivity.
  - reflexivity.
  - apply ex_names_not_cname.
  - vm_compute. reflexivity.
  - reflexivity.
  - reflexivity.
  - rewrite Heq. vm_compute. reflexivity.
Defined.

Lemma instance_group_dupli_vert_count_witness :
  ∃ s' dmes,
    instance_group_dupli_vert ex_decompose Z.sub ex_unique_name "Leg"
      "Material" ex_stats ex_leg_skipped = Ok s'
    ∧ bpy_meshes s' = bpy_meshes ex_leg_skipped ++ dmes
    ∧ Forall (fun dme => me_vertices dme ≠ []) dmes
    ∧ length (concat (me_vertices <$> dmes)) = 3.
Proof.
  apply (instance_group_dupli_vert_count ex_decompose Z.sub ex_unique_name
           "Leg" "Material" ex_stats ex_leg_skipped).
  eexists. vm_compute. reflexivity.
Defined.

Lemma session_keeps_scene_ok_witness : scene_ok ex_written.
Proof.
  apply (session_keeps_scene_ok Z.mul 1%Z ex_decompose ex_translation_of
           Z.sub Z.mul (fun v => v) 0%Z 1%Z 0%Z ex_inherent_default_mat
           ex_group_name (fun n => n) ex_unique_name (ex_cfg 2)
           (initial_state : ExState) ex_written).
  - unfold scene_ok. cbn.
    split_and!;
      [apply Forall_nil_2|split; constructor|apply Forall_nil_2
      |apply map_Forall_empty|apply map_Forall_empty|apply Forall_nil_2].
  - apply (rtc_l _ _ ex_groups_written).
    + apply (step_write_duplicateable_groups _ _ _ _ _ _ _ _ _ _ _ _ _ _ _ 4).
      vm_compute. reflexivity.
    + apply rtc_once.
      apply (step_write_entities _ _ _ _ _ _ _ _ _ _ _ _ _ _ _ 4 ex_model
               "_(Loose Entity)" 1%Z "Material" None None 0%Z).
      vm_compute. reflexivity.
Defined.

(** ** Materials on an example *)

Definition ex_skp_materials : list SkpMaterial :=
  [mkSkpMaterial "Wood" (120, 80, 40, 255)%Z
     (Some (mkSkpTexture "wood.jpg" (1, 1, 2, 2)%float));
   mkSkpMaterial "Glass" (200, 220, 255, 128)%Z None].

Definition ex_write_materials (default_nodes : list string)
  : result MatState :=
  write_materials ex_unique_name (fun x _ => x) (fun x => x) default_nodes
    "Image Texture" true ex_skp_materials [].

Lemma write_materials_with_reuse_witness :
  ∃ s,
    ex_write_materials ["Principled BSDF"; "Material Output"] = Ok s
    ∧ ∀ name, is_Some (ms_materials s !! name)
              ↔ name = "Material" ∨ name ∈ ["Wood"; "Glass"].
Proof.
  destruct (write_materials_with_reuse ex_unique_name (fun x _ => x)
              (fun x => x) ["Principled BSDF"; "Material Output"]
              "Image Texture" ex_skp_materials [])
    as (s & Hrun & _ & _ & Hdom & _).
  - by apply (bool_decide_unpack _).
  - exists s. split; [exact Hrun|exact Hdom].
Defined.

Lemma write_materials_shader_lookup_witness :
  ex_write_materials ["Shader"; "Material Output"] = Raise KeyError.
Proof.
  apply (write_materials_shader_lookup ex_unique_name (fun x _ => x)
           (fun x => x) ["Shader"; "Material Output"] "Image Texture"
           ex_skp_materials []).
  - by apply (bool_decide_unpack _).
  - apply Exists_cons_hd. by apply (bool_decide_unpack _).
Defined.

(** ** The Warehouse helpers on examples *)

(** The decimal digits of ASCII. *)
Definition ex_digit_value (c : N) : option nat :=
  if in_range 48 57 c then Some (N.to_nat (c - 48)) else None.

(** The entity JSON of a model offered as SketchUp 2021 and 2007, and as
    GLB. *)
Definition ex_entity_json : list (str * json) :=
  [(lit "id", JStr (lit "abc"));
   (lit "binaries",
    JDict [(lit "s21", JDict [(lit "url", JStr (lit "u21"))]);
           (lit "glb", JDict [(lit "url", JStr (lit "g"))]);
           (lit "s07", JDict [(lit "contentUrl", JStr (lit "c07"))])])].

Definition ex_calls : list (str * list json) :=
  (skp_download_attempts ex_digit_value (fun _ _ => false)
     (fun _ _ => Returns false) (lit "abc") ex_entity_json).1.

Example ex_slugify :
  _slugify (Some (lit " Eames Chair (v2)! ")) = lit "Eames-Chair-v2"
  ∧ _slugify (Some (lit "***")) = lit "Model"
  ∧ _slugify None = lit "Model".
Proof. vm_compute. done. Qed.

Example ex_extract_model_id :
  _extract_model_id
    (lit " https://3dwarehouse.sketchup.com/model/0123456789abcdef0123456789abcdef/Chair ")
  = Some (lit "0123456789abcdef0123456789abcdef")
  ∧ _extract_model_id (lit "https://3dwarehouse.sketchup.com/model/0123/Chair")
    = None.
Proof. vm_compute. done. Qed.

Example ex_versions :
  _extract_latest_skp_versions ex_digit_value ex_entity_json
  = Returns [21; 7].
Proof. vm_compute. reflexivity. Qed.

(** The key ["s21"] gets one attempt, with the regenerated url; the urls
    the JSON gives are requested for ["s07"] only. *)
Example ex_download_attempts :
  ex_calls
  = [(lit "s21", [JStr (_build_skp_url (lit "abc") 21)]);
     (lit "s7", [JStr (_build_skp_url (lit "abc") 7)]);
     (lit "s07", [JStr (lit "c07")])].
Proof. vm_compute. reflexivity. Qed.

Lemma ex_digit_value_lt c x : ex_digit_value c = Some x → x < 10.
Proof.
  unfold ex_digit_value, in_range.
  destruct (_ && _) eqn:Hc; [|done]. intros [= <-].
  apply andb_true_iff in Hc as [?%N.leb_le ?%N.leb_le]. lia.
Qed.

Lemma extract_latest_skp_versions_spec_witness :
  ∃ vs,
    _extract_latest_skp_versions ex_digit_value ex_entity_json = Returns vs
    ∧ StronglySorted ge vs
    ∧ Forall (fun v => v < 100) vs.
Proof.
  destruct (extract_latest_skp_versions_spec ex_digit_value ex_entity_json
              ex_digit_value_lt) as (vs & Hrun & Hsorted & Hlt & _).
  exists vs. split_and!; [exact Hrun|exact Hsorted|exact Hlt].
Defined.

